(** * confluence-docs-as-code: the tree builder and the reconciliation engine

    A shallow embedding of [src/lib/context.js] (the tree builder) and of
    [src/lib/confluence-syncer.js] (home resolver, level-by-level
    reconciliation, cleanup), with the properties of the specification
    stated over it.

    Conventions.
    - A JavaScript string is a [string], the bytes of its UTF-8 encoding;
      [null]/[undefined] is [None].
    - A JavaScript [Map] whose iteration order is observed is an association
      list updated by [Map_set]; a [Map] that is only read by key is a [gmap].
    - Code that mutates its arguments, logs or throws runs in the monad
      [M S A := S -> S * result A]: the state survives a throw, as the
      mutations of a JavaScript program do. *)

From Stdlib Require Import ZArith Ascii.
From stdpp Require Import base option list strings gmap.

Local Open Scope Z_scope.
Set Warnings "-register-all".

(** ** Strings: the methods of [String.prototype] the code calls *)

Module JS.

(** The double-quote character, built from its code. *)
Definition dquote : string := String (ascii_of_nat 34) EmptyString.

(** [s.startsWith(p)] *)
Definition startsWith (s p : string) : bool := String.prefix p s.

(** [s.indexOf(sub)]; [-1] is [None]. *)
Definition indexOf (s sub : string) : option nat := String.index 0 sub s.

(** [s.substring(i)] *)
Definition substring (s : string) (i : nat) : string :=
  String.substring i (String.length s - i) s.

(** [s.split(sep)] for a separator of one character. *)
Fixpoint split (sep : ascii) (s : string) : list string :=
  match s with
  | EmptyString => [EmptyString]
  | String c r =>
      if Ascii.eqb c sep then EmptyString :: split sep r
      else match split sep r with
           | h :: t => String c h :: t
           | [] => [String c EmptyString]
           end
  end.

(** [parts.join(sep)] *)
Definition join (sep : ascii) (parts : list string) : string :=
  String.concat (String sep EmptyString) parts.

(** A string from the codes of its bytes. *)
Definition ofBytes (codes : list N) : string :=
  String.string_of_list_ascii (ascii_of_N <$> codes).

(** The white space of ECMAScript, which [trim] strips: the characters
    WhiteSpace (U+0009, U+000B, U+000C, U+FEFF and the space separators
    U+0020, U+00A0, U+1680, U+2000 to U+200A, U+202F, U+205F, U+3000) and
    LineTerminator (U+000A, U+000D, U+2028, U+2029), each as the bytes of its
    UTF-8 encoding. *)
Definition whiteSpace : list string :=
  ofBytes <$>
    [[9]; [10]; [11]; [12]; [13]; [32]; [194; 160]; [225; 154; 128];
     [226; 128; 128]; [226; 128; 129]; [226; 128; 130]; [226; 128; 131];
     [226; 128; 132]; [226; 128; 133]; [226; 128; 134]; [226; 128; 135];
     [226; 128; 136]; [226; 128; 137]; [226; 128; 138];
     [226; 128; 168]; [226; 128; 169]; [226; 128; 175]; [226; 129; 159];
     [227; 128; 128]; [239; 187; 191]]%N.

(** [s] without its prefix [p], when it starts with [p]. *)
Fixpoint stripPrefix (p s : string) : option string :=
  match p, s with
  | EmptyString, _ => Some s
  | String a p', String b s' => if Ascii.eqb a b then stripPrefix p' s' else None
  | String _ _, EmptyString => None
  end.

(** [s] without the one of [seqs] it starts with, if it starts with one. *)
Definition stripOne (seqs : list string) (s : string) : option string :=
  head (omap (fun w => stripPrefix w s) seqs).

(** [s] without the sequences of [seqs] it starts with, one after the
    other; [fuel] bounds their number. *)
Fixpoint dropAll (seqs : list string) (fuel : nat) (s : string) : string :=
  match fuel with
  | O => s
  | S fuel' =>
      match stripOne seqs s with
      | Some r => dropAll seqs fuel' r
      | None => s
      end
  end.

(** [s.trimStart()], [s.trimEnd()] and [s.trim()]. White space at the end
    of a string is its white space read from the right. *)
Definition trimStart (s : string) : string := dropAll whiteSpace (String.length s) s.
Definition trimEnd (s : string) : string :=
  String.rev (dropAll (String.rev <$> whiteSpace) (String.length s) (String.rev s)).
Definition trim (s : string) : string := trimEnd (trimStart s).

(** Truthiness of a string or null value: [null], [undefined] and the empty
    string are falsy. *)
Definition truthy (s : option string) : bool :=
  match s with
  | Some (String _ _) => true
  | _ => false
  end.

(** [v || null] on a string or null value. *)
Definition orNull (s : option string) : option string :=
  if truthy s then s else None.

End JS.

(** ** A [Map] in insertion order *)

Section OrderedMap.
Context {K V : Type} `{EqDecision K}.

(** [m.set(k, v)]: a present key keeps its position and takes the new value,
    a new key goes last. *)
Fixpoint Map_set (k : K) (v : V) (m : list (K * V)) : list (K * V) :=
  match m with
  | [] => [(k, v)]
  | (k', v') :: r => if decide (k' = k) then (k, v) :: r else (k', v') :: Map_set k v r
  end.

(** [m.get(k)] *)
Fixpoint Map_get (k : K) (m : list (K * V)) : option V :=
  match m with
  | [] => None
  | (k', v') :: r => if decide (k' = k) then Some v' else Map_get k r
  end.

(** [m.delete(k)] *)
Fixpoint Map_delete (k : K) (m : list (K * V)) : list (K * V) :=
  match m with
  | [] => []
  | (k', v') :: r => if decide (k' = k) then Map_delete k r else (k', v') :: Map_delete k r
  end.

(** [m.values()] *)
Definition Map_values (m : list (K * V)) : list V := m.*2.

(** [m.keys()] *)
Definition Map_keys (m : list (K * V)) : list K := m.*1.
End OrderedMap.

(** ** A plain object whose properties are listed

    The own properties of an object are listed with the array indices first,
    in ascending order, then the other keys in the order of their creation;
    such an object is the list of its properties in that order. *)

(** The number a string of decimal digits writes, after [acc]. *)
Fixpoint digits (s : string) (acc : N) : option N :=
  match s with
  | EmptyString => Some acc
  | String c r =>
      match Ascii.is_nat c with
      | Some d => digits r (10 * acc + N.of_nat d)%N
      | None => None
      end
  end.

(** An array index: the canonical decimal form of an integer below
    [2^32 - 1]. *)
Definition arrayIndex (k : string) : option N :=
  match k with
  | EmptyString => None
  | String c r =>
      if Ascii.eqb c "0" && negb (String.eqb r "") then None
      else match digits k 0 with
           | Some n => if (n <? 4294967295)%N then Some n else None
           | None => None
           end
  end.

Section PlainObject.
Context {V : Type}.

(** A new property with the array index [i] goes before the first property
    that is no smaller array index. *)
Fixpoint insertIndex (i : N) (k : string) (v : V) (o : list (string * V))
  : list (string * V) :=
  match o with
  | [] => [(k, v)]
  | (k', v') :: r =>
      match arrayIndex k' with
      | Some j => if (j <? i)%N then (k', v') :: insertIndex i k v r else (k, v) :: o
      | None => (k, v) :: o
      end
  end.

(** The definition of the own property [k]: a property the object has takes
    the new value where it is, a new one takes its place in the order. *)
Definition Object_define (k : string) (v : V) (o : list (string * V))
  : list (string * V) :=
  if decide (k ∈ Map_keys o) then Map_set k v o
  else match arrayIndex k with
       | Some i => insertIndex i k v o
       | None => o ++ [(k, v)]
       end.

(** [Object.fromEntries(m)] for a [Map] [m]. *)
Definition Object_fromEntries (m : list (string * V)) : list (string * V) :=
  foldl (fun o kv => Object_define kv.1 kv.2 o) [] m.

End PlainObject.

(** ** Outcomes and the state-and-exception monad *)

(** The errors the two modules raise or let through. *)
Inductive error :=
| NoTitle (item : string)                  (* context.js, traverse: an entry without a title *)
| RepoConflict (siteName repo : string)    (* syncHome: the title belongs to another repo *)
| ParentPageMissing (title : string)       (* findParentPage *)
| TypeError (what : string)                (* the JavaScript runtime *)
| RemoteStoreError (detail : string).      (* raised by the Confluence collaborator *)

(** [error.message] *)
Definition message (e : error) : string :=
  match e with
  | NoTitle item => "No title for " +:+ item
  | RepoConflict siteName repo =>
      "Page " +:+ JS.dquote +:+ siteName +:+ JS.dquote
        +:+ " already exist for another repo " +:+ JS.dquote +:+ repo +:+ JS.dquote
  | ParentPageMissing title =>
      "The page configured as parent (" +:+ title +:+ ") does not exist in confluence"
  | TypeError what => what
  | RemoteStoreError detail => detail
  end.

(** The spec's name for the repository conflict. *)
Definition isConflictError (e : error) : bool :=
  match e with RepoConflict _ _ => true | _ => false end.

(** What a call does: it returns a value or it throws. *)
Inductive outcome (A : Type) :=
| Returned (a : A)
| Threw (e : error).
Arguments Returned {A} a.
Arguments Threw {A} e.

(** What a run of the model gives: the outcome of the program, unless the
    recursion budget of the model ran out first. *)
Inductive result (A : Type) :=
| Ok (a : A)          (* returned *)
| Throw (e : error)   (* threw *)
| OutOfFuel.          (* the recursion budget of the model ran out *)
Arguments Ok {A} a.
Arguments Throw {A} e.
Arguments OutOfFuel {A}.

Definition ofOutcome {A} (o : outcome A) : result A :=
  match o with
  | Returned a => Ok a
  | Threw e => Throw e
  end.

Definition M (S A : Type) : Type := S -> S * result A.

Definition ret {S A} (a : A) : M S A := fun s => (s, Ok a).
Definition bind {S A B} (m : M S A) (k : A -> M S B) : M S B :=
  fun s => match m s with
           | (s1, Ok a) => k a s1
           | (s1, Throw e) => (s1, Throw e)
           | (s1, OutOfFuel) => (s1, OutOfFuel)
           end.
Definition throw {S A} (e : error) : M S A := fun s => (s, Throw e).
Definition modify {S} (f : S -> S) : M S unit := fun s => (f s, Ok tt).
Definition gets {S A} (f : S -> A) : M S A := fun s => (s, Ok (f s)).

(** [try { m } catch (error) { h(error) }] *)
Definition tryCatch {S A} (m : M S A) (h : error -> M S A) : M S A :=
  fun s => match m s with
           | (s1, Throw e) => h e s1
           | r => r
           end.

Declare Scope m_scope.
Delimit Scope m_scope with M.
Notation "x <- m ;; k" := (bind m (fun x => k))
  (at level 100, m at next level, right associativity) : m_scope.
Notation "m ;;; k" := (bind m (fun _ => k))
  (at level 100, right associativity) : m_scope.

(** [for (const x of xs) body(x)], one iteration after the other. *)
Fixpoint forEach {S A} (body : A -> M S unit) (xs : list A) : M S unit :=
  match xs with
  | [] => ret tt
  | x :: r => (body x ;;; forEach body r)%M
  end.

(** ** The data model ([lib/models], reached through the two modules) *)

(** Modelled from the spec: the class [Meta] of [lib/models] is not among the
    sources. Its fields are the arguments of [new Meta(repo, path, sha)] in
    [getPage], read back as [meta.repo] and [meta.path] (section 3,
    sourceMeta); the home page that [syncHome] synthesizes has only the
    repo. *)
Record Meta := mkMeta {
  repo : string;
  path : option string;
  sha : option string
}.

(** Modelled from the spec: the class [LocalPage] of [lib/models] is not
    among the sources. Its fields are those the two modules read and write
    (section 3): [parentPath] is the enclosing section ([null] at the root),
    [parentPageId] the remote id of the parent, set by the syncer. *)
Record LocalPage := mkLocalPage {
  title : string;
  meta : Meta;
  parentPath : option string;
  parentPageId : option Z;
  html : option string
}.

(** [new LocalPage(title, meta)] *)
Definition newLocalPage (t : string) (m : Meta) : LocalPage :=
  mkLocalPage t m None None None.

Definition setParentPath (ps : option string) (p : LocalPage) : LocalPage :=
  mkLocalPage (title p) (meta p) ps (parentPageId p) (html p).
Definition setParentPageId (pid : option Z) (p : LocalPage) : LocalPage :=
  mkLocalPage (title p) (meta p) (parentPath p) pid (html p).
Definition setHtml (h : string) (p : LocalPage) : LocalPage :=
  mkLocalPage (title p) (meta p) (parentPath p) (parentPageId p) (Some h).

Global Instance Meta_eq_dec : EqDecision Meta.
Proof. solve_decision. Defined.
Global Instance LocalPage_eq_dec : EqDecision LocalPage.
Proof. solve_decision. Defined.

(** ** The host: [node:fs], [node:path], [process.cwd()] and [util.fileHash]

    The tree builder reaches the file system and the path library through
    these functions only; they are taken as given. *)
Record Host := mkHost {
  cwd : string;                          (* process.cwd() *)
  sep : ascii;                           (* path.sep *)
  resolve : list string -> string;       (* path.resolve(...segments) *)
  relative : string -> string -> string; (* path.relative(from, to) *)
  dirname : string -> string;            (* path.dirname(p) *)
  existsSync : string -> bool;           (* fs.existsSync(p) *)
  fileHash : string -> string            (* util.fileHash(p) *)
}.

(** What the builder does to the outside: file-system reads and log lines,
    in program order. *)
Inductive hostEvent :=
| ExistsSync (p : string)
| FileHash (p : string)
| Warn (msg : string)
| Debug (msg : string).

(** An entry of [nav] of one of the three kinds the specification names: a
    bare string, [{title: path}] or [{title: [entries]}]. The entries as
    YAML parses them, of any kind, are traversed by [Raw.traverse] below. *)
Inductive navItem :=
| NavString (s : string)
| NavLeaf (pageTitle pagePath : string)
| NavSection (pageTitle : string) (items : list navItem).

(** The objects [traverse] mutates ([pages], [sectionHierarchy]) and the
    output of the run so far. *)
Record Build := mkBuild {
  pages : list LocalPage;
  sectionHierarchy : list (string * option string);
  out : list hostEvent
}.

Definition emit (e : hostEvent) : M Build unit :=
  modify (fun b => mkBuild (pages b) (sectionHierarchy b) (out b ++ [e])).
Definition pushPage (p : LocalPage) : M Build unit :=
  modify (fun b => mkBuild (pages b ++ [p]) (sectionHierarchy b) (out b)).
Definition setSection (name : string) (parent : option string) : M Build unit :=
  modify (fun b => mkBuild (pages b) (Map_set name parent (sectionHierarchy b)) (out b)).

Definition liftR {S A} (r : result A) : M S A := fun s => (s, r).
Definition liftO {S A} (o : outcome A) : M S A := fun s => (s, ofOutcome o).

(** [xs.map(f)] where [f] may throw. *)
Fixpoint mapO {A B} (f : A -> outcome B) (xs : list A) : outcome (list B) :=
  match xs with
  | [] => Returned []
  | x :: r =>
      match f x with
      | Returned y => match mapO f r with
                      | Returned ys => Returned (y :: ys)
                      | Threw e => Threw e
                      end
      | Threw e => Threw e
      end
  end.

(** The context object [getContext] returns. *)
Record Context := mkContext {
  siteName : string;
  ctxRepo : string;
  ctxPages : list LocalPage;
  pageRefs : gmap string string;
  ctxSectionHierarchy : list (string * option string);
  readMe : option LocalPage
}.

Section TreeBuilder.
Variable host : Host.
(** [config.confluence.titlePrefix] *)
Variable configTitlePrefix : string.

Definition README_MD : string := "README.md".

(** context.js, [getPage]. *)
Definition getPage (repo_url title pagePath titlePrefix : string)
  : M Build (option LocalPage) :=
  (let safe := JS.startsWith pagePath (cwd host) in
   exists_ <- (if safe
               then (emit (ExistsSync pagePath) ;;; ret (existsSync host pagePath))
               else ret false) ;;
   let relPath := relative host (cwd host) pagePath in
   if negb exists_ then
     emit (Warn ("Page " +:+ JS.dquote +:+ title +:+ JS.dquote +:+ " not found at "
                   +:+ JS.dquote +:+ relPath +:+ JS.dquote)) ;;;
     ret None
   else
     emit (FileHash pagePath) ;;;
     let sha := fileHash host pagePath in
     let prefixedTitle := JS.trim (titlePrefix +:+ " " +:+ title) in
     ret (Some (newLocalPage prefixedTitle (mkMeta repo_url (Some relPath) (Some sha)))))%M.

(** context.js, [traverse]: the body of [nav.forEach], and the loop. The
    recursive call on a section is the inner [fix]. *)
Fixpoint traverseItem (repo_url basePath : string) (parentSection : option string)
    (item : navItem) : M Build unit :=
  match item with
  | NavString s => throw (NoTitle s)
  | NavSection pageTitle pagePath =>
      (setSection pageTitle parentSection ;;;
       (fix traverse (nav : list navItem) : M Build unit :=
          match nav with
          | [] => ret tt
          | i :: r => traverseItem repo_url basePath (Some pageTitle) i ;;; traverse r
          end) pagePath)%M
  | NavLeaf pageTitle pagePath =>
      (page <- getPage repo_url pageTitle (resolve host [basePath; "docs"; pagePath])
                 configTitlePrefix ;;
       match page with
       | Some p => pushPage (setParentPath parentSection p)
       | None => ret tt
       end)%M
  end.

Fixpoint traverse (repo_url : string) (nav : list navItem) (basePath : string)
    (parentSection : option string) : M Build unit :=
  match nav with
  | [] => ret tt
  | i :: r =>
      (traverseItem repo_url basePath parentSection i ;;;
       traverse repo_url r basePath parentSection)%M
  end.

(** context.js, [inferSectionDirectory]: the directory of one child, after
    the first [/docs/] of its path; [null] when the path has none. *)
Definition relativeDir (child : LocalPage) : outcome (option string) :=
  match path (meta child) with
  | None => Threw (TypeError "Cannot read properties of undefined (reading 'indexOf')")
  | Some fullPath =>
      match JS.indexOf fullPath "/docs/" with
      | None => Returned None
      | Some docsIndex =>
          Returned (Some (dirname host (JS.substring fullPath (docsIndex + 6))))
      end
  end.

(** The loop [for (let len = parts.length; len > 0; len--)]. *)
Fixpoint commonPrefix (parts relativePaths : list string) (len : nat) : option string :=
  match len with
  | O => None
  | S len' =>
      let prefix := JS.join (sep host) (take len parts) in
      if forallb (fun p => JS.startsWith p prefix) relativePaths
      then Some prefix
      else commonPrefix parts relativePaths len'
  end.

Definition inferSectionDirectory (children : list LocalPage) : outcome (option string) :=
  match children with
  | [] => Returned None
  | _ =>
      match mapO relativeDir children with
      | Returned dirs =>
          let relativePaths := omap id dirs in
          match relativePaths with
          | [] => Returned None
          | firstPath :: _ =>
              if forallb (fun p => String.eqb p firstPath) relativePaths
              then Returned (Some firstPath)
              else
                let parts := JS.split (sep host) firstPath in
                Returned (commonPrefix parts relativePaths (length parts))
          end
      | Threw e => Threw e
      end
  end.

(** context.js, [createSectionPages]: one turn of the loop over the entries
    of the hierarchy, with [sectionPages] the pages collected so far. *)
Definition sectionPage (repo_url basePath : string) (pages : list LocalPage)
    (sectionPages : list LocalPage) (entry : string * option string)
  : M Build (list LocalPage) :=
  (let '(sectionName, parentSection) := entry in
   let sectionChildren := filter (fun p => parentPath p = Some sectionName) pages in
   match sectionChildren with
   | [] => ret sectionPages
   | _ =>
       sectionDir <- liftO (inferSectionDirectory sectionChildren) ;;
       match sectionDir with
       | Some (String c d as dir) =>
           let readmePath := resolve host [basePath; "docs"; dir; "README.md"] in
           readmePage <- getPage repo_url sectionName readmePath configTitlePrefix ;;
           match readmePage with
           | Some p =>
               emit (Debug ("Created section page " +:+ JS.dquote +:+ sectionName
                              +:+ JS.dquote +:+ " from " +:+ dir +:+ "/README.md")) ;;;
               ret (sectionPages ++ [setParentPath parentSection p])
           | None => ret sectionPages
           end
       | _ => ret sectionPages
       end
   end)%M.

Fixpoint createSectionPagesFrom (repo_url basePath : string) (pages : list LocalPage)
    (entries : list (string * option string)) (sectionPages : list LocalPage)
  : M Build (list LocalPage) :=
  match entries with
  | [] => ret sectionPages
  | entry :: r =>
      (sectionPages' <- sectionPage repo_url basePath pages sectionPages entry ;;
       createSectionPagesFrom repo_url basePath pages r sectionPages')%M
  end.

Definition createSectionPages (repo_url basePath : string) (pages : list LocalPage)
    (sectionHierarchy : list (string * option string)) : M Build (list LocalPage) :=
  createSectionPagesFrom repo_url basePath pages sectionHierarchy [].

(** The key of a page in [pageRefs]: [page.meta.path] as a property key. *)
Definition refKey (page : LocalPage) : string := default "undefined" (path (meta page)).

(** [obj[page.meta.path] = page.title] on a plain object: under the key
    [__proto__] the assignment reaches the setter the object inherits, which
    ignores a string, and no property is recorded. *)
Definition setRef (obj : gmap string string) (page : LocalPage) : gmap string string :=
  if String.eqb (refKey page) "__proto__" then obj
  else <[refKey page := title page]> obj.

(** [readMe ? { [readMe.meta.path]: readMe.title } : {}]: a computed key of
    an object literal defines an own property, whatever the key. *)
Definition initialRefs (readMe : option LocalPage) : gmap string string :=
  match readMe with
  | Some page => {[ refKey page := title page ]}
  | None => ∅
  end.

(** context.js, [getContext], after [loadConfig] has read [nav], [repo_url]
    and [site_name] from [mkdocs.yml], for a [site_name] that is a string.
    [pages] and [sectionHierarchy] start empty; the context carries the
    hierarchy as the plain object [Object.fromEntries] makes of the [Map];
    the debug dump of the context is not recorded. *)
Definition getContextM (basePath : string) (nav : list navItem)
    (repo_url site_name : string) : M Build Context :=
  (traverse repo_url nav basePath None ;;;
   readMe <- getPage repo_url site_name (resolve host [basePath; README_MD]) "" ;;
   pages0 <- gets pages ;;
   hierarchy <- gets sectionHierarchy ;;
   sectionPages <- createSectionPages repo_url basePath pages0 hierarchy ;;
   forEach pushPage sectionPages ;;;
   pages1 <- gets pages ;;
   let pageRefs := foldl setRef (initialRefs readMe) pages1 in
   let sectionHierarchyObj := Object_fromEntries hierarchy in
   ret (mkContext site_name repo_url pages1 pageRefs sectionHierarchyObj readMe))%M.

Definition getContext (basePath : string) (nav : list navItem)
    (repo_url site_name : string) : Build * result Context :=
  getContextM basePath nav repo_url site_name (mkBuild [] [] []).

End TreeBuilder.

(** ** A POSIX host for the worked examples

    [node:path] in its POSIX variant, over a file system given as the list of
    the files that exist. [dirname] follows the library's scan from the right;
    [resolve] and [relative] work on the normalized components. *)
Module Posix.

Definition slash : ascii := ascii_of_nat 47.

(** The loop of [path.posix.dirname]: [i] runs from the last index down to 1
    over the characters read from the right. *)
Fixpoint dirnameEnd (fromRight : list ascii) (i : nat) (matchedSlash : bool) : option nat :=
  match fromRight, i with
  | c :: r, S i' =>
      if Ascii.eqb c slash
      then (if matchedSlash then dirnameEnd r i' matchedSlash else Some i)
      else dirnameEnd r i' false
  | _, _ => None
  end.

Definition dirname (p : string) : string :=
  match p with
  | EmptyString => "."
  | String c0 _ =>
      let hasRoot := Ascii.eqb c0 slash in
      match dirnameEnd (rev (String.list_ascii_of_string p)) (String.length p - 1) true with
      | None => if hasRoot then "/" else "."
      | Some e => if hasRoot && Nat.eqb e 1 then "//" else String.substring 0 e p
      end
  end.

(** Components of a path with [.], [..] and empty segments resolved. *)
Fixpoint normalize (segments done : list string) : list string :=
  match segments with
  | [] => done
  | s :: r =>
      if String.eqb s "" || String.eqb s "." then normalize r done
      else if String.eqb s ".." then normalize r (removelast done)
      else normalize r (done ++ [s])
  end.

Definition components (p : string) : list string := normalize (JS.split slash p) [].

(** [path.posix.resolve], with an absolute working directory. *)
Definition resolve (cwd : string) (segments : list string) : string :=
  let joined :=
    foldl (fun cur s =>
             match s with
             | EmptyString => cur
             | String c _ => if Ascii.eqb c slash then s else cur +:+ "/" +:+ s
             end) cwd segments in
  "/" +:+ JS.join slash (components joined).

Fixpoint stripCommon (a b : list string) : list string * list string :=
  match a, b with
  | x :: a', y :: b' => if String.eqb x y then stripCommon a' b' else (a, b)
  | _, _ => (a, b)
  end.

(** [path.posix.relative] *)
Definition relative (cwd from to : string) : string :=
  let '(up, down) := stripCommon (components (resolve cwd [from])) (components (resolve cwd [to])) in
  JS.join slash (map (fun _ => "..") up ++ down).

(** A host whose working directory is [cwd] and whose files are [files];
    the content hash of a file is a tag on its path. *)
Definition host (cwd : string) (files : list string) : Host :=
  mkHost cwd slash (resolve cwd) (relative cwd) dirname
         (fun p => bool_decide (p ∈ files))
         (fun p => "sha1:" +:+ p).

End Posix.

(** ** The remote side of the data model *)

(** Modelled from the spec: the class [RemotePage] of [lib/models] is not
    among the sources. Its fields are those of section 3 of the spec: a page
    of the remote store, with the local page it was matched against (set by
    the syncer before [sync]). *)
Record RemotePage := mkRemotePage {
  remoteId : Z;
  remoteTitle : string;
  remoteMeta : Meta;
  remoteParentId : option Z;
  localPage : option LocalPage
}.

Global Instance RemotePage_eq_dec : EqDecision RemotePage.
Proof. solve_decision. Defined.

(** [remotePage.localPage = localPage] *)
Definition setLocalPage (lp : LocalPage) (r : RemotePage) : RemotePage :=
  mkRemotePage (remoteId r) (remoteTitle r) (remoteMeta r) (remoteParentId r) (Some lp).

(** What the syncer calls [sync] on: a local page without counterpart, or a
    remote page (matched, or left over). *)
Inductive page :=
| Local (p : LocalPage)
| Remote (r : RemotePage).

Global Instance page_eq_dec : EqDecision page.
Proof. solve_decision. Defined.

(** [page.title] *)
Definition pageTitle (u : page) : string :=
  match u with
  | Local p => title p
  | Remote r => remoteTitle r
  end.

(** The local page a [sync] call carries, if any. *)
Definition localOf (u : page) : option LocalPage :=
  match u with
  | Local p => Some p
  | Remote r => localPage r
  end.

(** Modelled from the spec: [RemotePage.repoConflict] is a method of
    [lib/models], which is not among the sources. Section 4.3 of the spec:
    the page found by title conflicts when its source repository differs
    from the current repository; the method takes no argument, so the current
    repository is the one of the local page attached to the remote page. *)
Definition repoConflict (r : RemotePage) : bool :=
  match localPage r with
  | Some lp => negb (String.eqb (repo (remoteMeta r)) (repo (meta lp)))
  | None => false
  end.

(** ** The Confluence collaborator

    [confluence-sdk.js] and the [sync] methods of the page models are not part
    of the two modules: they are taken as given, acting on a remote store of
    some type [W]. The two fetches read the store; [deletePage] and [sync]
    may change it. [sync] resolves to a page record or to nothing; it is
    given the page by value, and is taken to leave the title of the page it
    is called on as it is. *)
Record Confluence (W : Type) := mkConfluence {
  findPage : string -> W -> outcome (option RemotePage);
  getChildPages : option Z -> W -> outcome (list (string * RemotePage));
  deletePage : Z -> W -> W * outcome unit;
  pageSync : page -> W -> W * outcome (option RemotePage)
}.
Arguments findPage {W} _ _ _.
Arguments getChildPages {W} _ _ _.
Arguments deletePage {W} _ _ _.
Arguments pageSync {W} _ _ _.

(** Where a call is made from. *)
Inductive origin :=
| AtHome                              (* syncHome, findParentPage *)
| AtLevel (parentKey : option string) (* processLevel(parentKey) *)
| AtCleanup.                          (* cleanup, unpublish *)

Global Instance origin_eq_dec : EqDecision origin.
Proof. solve_decision. Defined.

(** The calls to the collaborator and to the logger, in program order. The
    event of a call to the collaborator records the call with its outcome. *)
Inductive event :=
| FindPage (o : origin) (t : string) (out : outcome (option RemotePage))
| GetChildPages (o : origin) (parentPageId : option Z)
                (out : outcome (list (string * RemotePage)))
| Sync (o : origin) (u : page) (out : outcome (option RemotePage))
| DeletePage (o : origin) (pageId : Z) (out : outcome unit)
| LogWarn (msg : string)
| LogPublished (site : string) (home : Z)
| SummaryPublished (site : string) (home : Z)
| SummaryCleanup (site : string)
| LogFail (e : error).

(** [config.confluence], the part the syncer reads. *)
Record Config := mkConfig {
  parentPage : option string
}.

(** The state of a run: the remote store and what happened so far. *)
Record Run (W : Type) := mkRun {
  world : W;
  trace : list event
}.
Arguments mkRun {W} _ _.
Arguments world {W} _.
Arguments trace {W} _.

(** [syncedPages.set(page.title, syncedPage.id)] under its guard
    [page.title && syncedPage && syncedPage.id]. *)
Definition record (u : page) (syncedPage : option RemotePage)
    (syncedPages : gmap (option string) Z) : gmap (option string) Z :=
  match syncedPage with
  | Some sp =>
      if JS.truthy (Some (pageTitle u)) && negb (remoteId sp =? 0)
      then <[Some (pageTitle u) := remoteId sp]> syncedPages
      else syncedPages
  | None => syncedPages
  end.

(** The key a page is grouped under: [page.parentPath || null]. *)
Definition parentKeyOf (p : LocalPage) : option string := JS.orNull (parentPath p).

(** confluence-syncer.js, [syncPages]: one turn of the grouping loop. *)
Definition group (acc : gmap (option string) (list LocalPage) * gmap string LocalPage)
    (p : LocalPage) : gmap (option string) (list LocalPage) * gmap string LocalPage :=
  let '(pagesByParent, sectionPages) := acc in
  let parentKey := parentKeyOf p in
  let pagesByParent :=
    match pagesByParent !! parentKey with
    | None => <[parentKey := []]> pagesByParent
    | Some _ => pagesByParent
    end in
  let pagesByParent :=
    <[parentKey := default [] (pagesByParent !! parentKey) ++ [p]]> pagesByParent in
  let sectionPages :=
    match parentPath p with
    | Some (String _ _ as s) =>
        match sectionPages !! s with
        | None => <[s := p]> sectionPages
        | Some _ => sectionPages
        end
    | _ => sectionPages
    end in
  (pagesByParent, sectionPages).

Definition groupPages (localPages : list LocalPage)
  : gmap (option string) (list LocalPage) * gmap string LocalPage :=
  foldl group (∅, ∅) localPages.

(** [remotePages.get(path)] and [remotePages.delete(path)] for the path of a
    local page; an undefined path is the key of no remote page. *)
Definition getByPath (p : option string) (remotePages : list (string * RemotePage))
  : option RemotePage :=
  match p with
  | Some k => Map_get k remotePages
  | None => None
  end.

Definition deleteByPath (p : option string) (remotePages : list (string * RemotePage))
  : list (string * RemotePage) :=
  match p with
  | Some k => Map_delete k remotePages
  | None => remotePages
  end.

(** [processLevel]: the loop that pairs the local pages of a level with the
    remote children, removing each match from [remotePages]. *)
Fixpoint pairPages (parentPageId : option Z) (pages : list LocalPage)
    (remotePages : list (string * RemotePage)) (union : list page)
  : list (string * RemotePage) * list page :=
  match pages with
  | [] => (remotePages, union)
  | localPage :: rest =>
      let localPage := setParentPageId parentPageId localPage in
      match getByPath (path (meta localPage)) remotePages with
      | None => pairPages parentPageId rest remotePages (union ++ [Local localPage])
      | Some remotePage =>
          pairPages parentPageId rest (deleteByPath (path (meta localPage)) remotePages)
                    (union ++ [Remote (setLocalPage localPage remotePage)])
      end
  end.

(** The [union] of a level: the local pages in their order, matched or not,
    then every remote page still in [remotePages]. *)
Definition levelUnion (parentPageId : option Z) (pages : list LocalPage)
    (remotePages : list (string * RemotePage)) : list page :=
  let '(remaining, union) := pairPages parentPageId pages remotePages [] in
  union ++ map Remote (Map_values remaining).

Section Syncer.
Context {W : Type}.
Variable confluence : Confluence W.
Variable config : Config.

Definition log (e : event) : M (Run W) unit :=
  modify (fun s => mkRun (world s) (trace s ++ [e])).

(** [await confluence.findPage(title)] *)
Definition findPageM (o : origin) (t : string) : M (Run W) (option RemotePage) :=
  fun s =>
    let r := findPage confluence t (world s) in
    (mkRun (world s) (trace s ++ [FindPage o t r]), ofOutcome r).

(** [await confluence.getChildPages(parentPageId)] *)
Definition getChildPagesM (o : origin) (parentPageId : option Z)
  : M (Run W) (list (string * RemotePage)) :=
  fun s =>
    let r := getChildPages confluence parentPageId (world s) in
    (mkRun (world s) (trace s ++ [GetChildPages o parentPageId r]), ofOutcome r).

(** [await page.sync(renderer, confluence)] *)
Definition syncM (o : origin) (u : page) : M (Run W) (option RemotePage) :=
  fun s =>
    let '(w, r) := pageSync confluence u (world s) in
    (mkRun w (trace s ++ [Sync o u r]), ofOutcome r).

(** [await confluence.deletePage(id)] *)
Definition deletePageM (o : origin) (pageId : Z) : M (Run W) unit :=
  fun s =>
    let '(w, r) := deletePage confluence pageId (world s) in
    (mkRun w (trace s ++ [DeletePage o pageId r]), ofOutcome r).

(** confluence-syncer.js, [findParentPage]. *)
Definition findParentPage : M (Run W) (option Z) :=
  match parentPage config with
  | Some (String _ _ as t) =>
      (parent <- findPageM AtHome t ;;
       match parent with
       | None => throw (ParentPageMissing t)
       | Some p => ret (Some (remoteId p))
       end)%M
  | _ => ret None
  end.

(** confluence-syncer.js, [syncHome]. *)
Definition syncHome (repo' siteName : string) (localPage : option LocalPage)
  : M (Run W) Z :=
  (let localPage :=
     match localPage with
     | Some p => p
     | None => setHtml ("<h1>" +:+ siteName +:+ "</h1>")
                       (newLocalPage siteName (mkMeta repo' None None))
     end in
   parentPageId <- findParentPage ;;
   let localPage := setParentPageId parentPageId localPage in
   remotePage <- findPageM AtHome siteName ;;
   homePage <-
     match remotePage with
     | Some r =>
         let homePage := setLocalPage localPage r in
         if repoConflict homePage
         then throw (RepoConflict siteName (repo (remoteMeta homePage)))
         else ret (Remote homePage)
     | None => ret (Local localPage)
     end ;;
   synced <- syncM AtHome homePage ;;
   match synced with
   | Some p => ret (remoteId p)
   | None => throw (TypeError "Cannot read properties of undefined (reading 'id')")
   end)%M.

(** [processLevel]: the loop [for (let page of union)]. *)
Fixpoint syncUnion (parentKey : option string) (union : list page)
    (syncedPages : gmap (option string) Z) : M (Run W) (gmap (option string) Z) :=
  match union with
  | [] => ret syncedPages
  | u :: rest =>
      (syncedPage <- syncM (AtLevel parentKey) u ;;
       syncUnion parentKey rest (record u syncedPage syncedPages))%M
  end.

(** [processLevel]: the loop that descends into the sections of a level;
    [recur] is [processLevel] itself. *)
Definition processSections (sectionPages : gmap string LocalPage)
    (recur : option string -> gmap (option string) Z -> M (Run W) (gmap (option string) Z))
  : list LocalPage -> gmap (option string) Z -> M (Run W) (gmap (option string) Z) :=
  fix loop (pages : list LocalPage) (syncedPages : gmap (option string) Z) :=
    match pages with
    | [] => ret syncedPages
    | p :: rest =>
        match sectionPages !! title p with
        | Some _ => (syncedPages' <- recur (Some (title p)) syncedPages ;;
                     loop rest syncedPages')%M
        | None => loop rest syncedPages
        end
    end.

(** confluence-syncer.js, [processLevel]. The closure's recursion has no
    bound of its own; [fuel] bounds its depth. [syncedPages] is the map the
    closure mutates, passed in and out. *)
Fixpoint processLevel (pagesByParent : gmap (option string) (list LocalPage))
    (sectionPages : gmap string LocalPage) (fuel : nat) (parentKey : option string)
    (syncedPages : gmap (option string) Z) : M (Run W) (gmap (option string) Z) :=
  match fuel with
  | O => liftR OutOfFuel
  | S fuel' =>
      (let pages := default [] (pagesByParent !! parentKey) in
       let parentPageId := syncedPages !! parentKey in
       remotePages <- getChildPagesM (AtLevel parentKey) parentPageId ;;
       let union := levelUnion parentPageId pages remotePages in
       syncedPages <- syncUnion parentKey union syncedPages ;;
       processSections sectionPages
         (processLevel pagesByParent sectionPages fuel') pages syncedPages)%M
  end.

(** confluence-syncer.js, [syncPages]. *)
Definition syncPages (fuel : nat) (home : Z) (localPages : list LocalPage)
  : M (Run W) unit :=
  (let syncedPages : gmap (option string) Z := {[ None := home ]} in
   let '(pagesByParent, sectionPages) := groupPages localPages in
   processLevel pagesByParent sectionPages fuel None syncedPages ;;; ret tt)%M.

(** confluence-syncer.js, [errorHandler]; the debug dump is not recorded. *)
Definition errorHandler (e : error) : M (Run W) unit := log (LogFail e).

(** confluence-syncer.js, [sync], given what [context.getContext()] returns
    or throws. *)
Definition sync (fuel : nat) (context : result Context) : M (Run W) unit :=
  tryCatch
    (ctx <- liftR context ;;
     home <- syncHome (ctxRepo ctx) (siteName ctx) (readMe ctx) ;;
     syncPages fuel home (ctxPages ctx) ;;;
     log (LogPublished (siteName ctx) home) ;;;
     log (SummaryPublished (siteName ctx) home))%M
    errorHandler.

(** confluence-syncer.js, [unpublish]. *)
Definition unpublish (remotePages : list RemotePage) : M (Run W) unit :=
  forEach (fun p => deletePageM AtCleanup (remoteId p)) remotePages.

(** confluence-syncer.js, [cleanup]; [getContext] is called outside the
    [try]. *)
Definition cleanup (context : result Context) : M (Run W) unit :=
  (ctx <- liftR context ;;
   tryCatch
     (home <- findPageM AtCleanup (siteName ctx) ;;
      match home with
      | None =>
          log (LogWarn ("No page with title " +:+ JS.dquote +:+ siteName ctx +:+ JS.dquote
                          +:+ " found in confluence, nothing to clean here"))
      | Some h =>
          remotePages <- getChildPagesM AtCleanup (Some (remoteId h)) ;;
          unpublish (Map_values remotePages) ;;;
          unpublish [h] ;;;
          log (SummaryCleanup (siteName ctx))
      end)
     errorHandler)%M.

End Syncer.

(** ** A remote store for the worked examples *)
Module SpecStore.

(** The pages of the store, and the id the next created page gets. *)
Record Store := mkStore {
  nextId : Z;
  remote : list RemotePage
}.

(** Modelled from the spec: [confluence-sdk.js] is not among the sources.
    Section 6, [findPageByTitle(title) -> RemotePage | none]. *)
Definition findPage (t : string) (w : Store) : outcome (option RemotePage) :=
  Returned (List.find (fun r => String.eqb (remoteTitle r) t) (remote w)).

(** Modelled from the spec: [confluence-sdk.js] is not among the sources.
    Section 6, [getChildPages(parentId)]: the direct children of [parentId]
    as a mapping from source path to page, empty when there are none. *)
Definition getChildPages (parentId : option Z) (w : Store)
  : outcome (list (string * RemotePage)) :=
  Returned (foldl (fun m r => match path (remoteMeta r) with
                        | Some k => Map_set k r m
                        | None => m
                        end)
            [] (filter (fun r => remoteParentId r = parentId) (remote w))).

(** The ids of [ids] and of their descendants, [fuel] generations deep. *)
Fixpoint withDescendants (fuel : nat) (ids : list Z) (rs : list RemotePage) : list Z :=
  match fuel with
  | O => ids
  | S fuel' =>
      withDescendants fuel'
        (ids ++ map remoteId
                  (List.filter
                     (fun r => bool_decide (remoteId r ∉ ids) &&
                               match remoteParentId r with
                               | Some p => bool_decide (p ∈ ids)
                               | None => false
                               end) rs))
        rs
  end.

(** Modelled from the spec: [confluence-sdk.js] is not among the sources.
    Section 6, [deletePage(id) -> void], assumed to delete the descendants
    of the page with it. *)
Definition deletePage (pageId : Z) (w : Store) : Store * outcome unit :=
  let gone := withDescendants (length (remote w)) [pageId] (remote w) in
  (mkStore (nextId w) (filter (fun r => remoteId r ∉ gone) (remote w)), Returned tt).

(** Modelled from the spec: the [sync] methods of [lib/models] are not among
    the sources. Section 4.5: without counterpart, create with title, parent
    id and content, the store assigning the id; with a counterpart that
    passes the repository check, update content and parent, the id
    unchanged; with a counterpart that fails it, a conflict error. Section
    4.4 (e): a remote page without local page is deleted. *)
Definition pageSync (u : page) (w : Store) : Store * outcome (option RemotePage) :=
  match u with
  | Local lp =>
      let created := mkRemotePage (nextId w) (title lp) (meta lp) (parentPageId lp) None in
      (mkStore (nextId w + 1) (remote w ++ [created]), Returned (Some created))
  | Remote r =>
      match localPage r with
      | Some lp =>
          if repoConflict r
          then (w, Threw (RepoConflict (remoteTitle r) (repo (remoteMeta r))))
          else
            let updated :=
              mkRemotePage (remoteId r) (remoteTitle r) (meta lp) (parentPageId lp) None in
            (mkStore (nextId w)
                     (map (fun x => if decide (remoteId x = remoteId r) then updated else x)
                          (remote w)),
             Returned (Some updated))
      | None =>
          let '(w', r') := deletePage (remoteId r) w in
          (w', match r' with
               | Returned _ => Returned None
               | Threw e => Threw e
               end)
      end
  end.

Definition sdk : Confluence Store :=
  mkConfluence Store findPage getChildPages deletePage pageSync.

(** A store without pages. *)
Definition empty : Store := mkStore 1 [].

End SpecStore.

(** ** The words of the specification, for comparison with the code *)

(** The sections of a navigation in the order a depth-first traversal meets
    them, each with the section that encloses it. *)
Fixpoint visits (parentSection : option string) (item : navItem)
  : list (string * option string) :=
  match item with
  | NavSection t items => (t, parentSection) :: List.flat_map (visits (Some t)) items
  | _ => []
  end.

Definition sectionVisits (parentSection : option string) (nav : list navItem)
  : list (string * option string) :=
  List.flat_map (visits parentSection) nav.

(** The parent a section name is met with the first time, and the last. *)
Definition firstBinding (name : string) (vs : list (string * option string))
  : option (option string) :=
  snd <$> List.find (fun v => String.eqb (fst v) name) vs.

Definition lastBinding (name : string) (vs : list (string * option string))
  : option (option string) :=
  firstBinding name (rev vs).

(** The hierarchy entry as the specification words it: the binding of a
    section name is the one of its first encounter. *)
Definition recordsFirstEncounter (host : Host) (nav : list navItem) : Prop :=
  forall b name,
    traverse host "" "repo" nav "." None (mkBuild [] [] []) = (b, Ok tt) ->
    name ∈ (sectionVisits None nav).*1 ->
    Map_get name (sectionHierarchy b) = firstBinding name (sectionVisits None nav).

(** The page [createSectionPages] builds from the index file of directory
    [dir] for the section [name] whose hierarchy entry names [parent]. *)
Definition sectionReadme (host : Host) (titlePrefix repo_url basePath : string)
    (name : string) (parent : option string) (dir : string) : LocalPage :=
  let readmePath := resolve host [basePath; "docs"; dir; "README.md"] in
  mkLocalPage (JS.trim (titlePrefix +:+ " " +:+ name))
              (mkMeta repo_url (Some (relative host (cwd host) readmePath))
                      (Some (fileHash host readmePath)))
              parent None None.

(** A section whose children give the directory [dir], with an index file
    that exists under the working directory. *)
Definition hasReadme (host : Host) (basePath : string) (leaves : list LocalPage)
    (name dir : string) : Prop :=
  inferSectionDirectory host (filter (fun p => parentPath p = Some name) leaves)
    = Returned (Some dir) /\
  dir <> "" /\
  JS.startsWith (resolve host [basePath; "docs"; dir; "README.md"]) (cwd host) = true /\
  existsSync host (resolve host [basePath; "docs"; dir; "README.md"]) = true.

(** The pages [traverse] collects from a navigation. *)
Definition leafPages (host : Host) (titlePrefix repo_url basePath : string)
    (nav : list navItem) : list LocalPage :=
  pages (traverse host titlePrefix repo_url nav basePath None (mkBuild [] [] [])).1.

(** The synthesized section page as the specification words it: a page
    after the leaves, titled with the section name, in the parent section. *)
Definition sectionPageTitledBySection (host : Host) (titlePrefix basePath : string)
    (nav : list navItem) : Prop :=
  forall b ctx name parent dir,
    getContext host titlePrefix basePath nav "repo" "Site" = (b, Ok ctx) ->
    (name, parent) ∈ ctxSectionHierarchy ctx ->
    hasReadme host basePath (leafPages host titlePrefix "repo" basePath nav) name dir ->
    exists p,
      p ∈ drop (length (leafPages host titlePrefix "repo" basePath nav)) (ctxPages ctx) /\
      title p = name /\ parentPath p = parent.

(** ** Auxiliary definitions of the statements *)

(** The warning [getPage] logs for a page it does not find. *)
Definition notFound (host : Host) (title pagePath : string) : hostEvent :=
  Warn ("Page " +:+ JS.dquote +:+ title +:+ JS.dquote +:+ " not found at "
          +:+ JS.dquote +:+ relative host (cwd host) pagePath +:+ JS.dquote).

(** The build state with more output. *)
Definition addOut (evs : list hostEvent) (b : Build) : Build :=
  mkBuild (pages b) (sectionHierarchy b) (out b ++ evs).

(** [sectionHierarchy.set] for each visit, in order. *)
Definition setAll (vs : list (string * option string))
    (h : list (string * option string)) : list (string * option string) :=
  foldl (fun m v => Map_set (fst v) (snd v) m) h vs.

(** The warning of [cleanup] when the site has no home page. *)
Definition nothingToClean (site : string) : event :=
  LogWarn ("No page with title " +:+ JS.dquote +:+ site +:+ JS.dquote
             +:+ " found in confluence, nothing to clean here").

(** Events that are reads by title. *)
Definition isFindPage (e : event) : Prop :=
  match e with
  | FindPage _ _ _ => True
  | _ => False
  end.

(** ** Levels in a trace *)

(** [pagesByParent.get(parentKey) || []] *)
Definition levelPages (pagesByParent : gmap (option string) (list LocalPage))
    (parentKey : option string) : list LocalPage :=
  default [] (pagesByParent !! parentKey).

(** The local pages that belong to a level, in the order of [localPages]. *)
Definition pagesOfLevel (localPages : list LocalPage) (parentKey : option string)
  : list LocalPage :=
  filter (fun p => parentKeyOf p = parentKey) localPages.

(** The [sync] calls of a level on the pages of [union], one after the other,
    with their outcomes. *)
Definition syncTrace (parentKey : option string) (union : list page)
    (outcomes : list (outcome (option RemotePage))) : list event :=
  zip_with (Sync (AtLevel parentKey)) union outcomes.

(** A call that returned. *)
Definition returned {A} (r : outcome A) : Prop :=
  match r with
  | Returned _ => True
  | Threw _ => False
  end.

(** The level a call belongs to. *)
Definition levelOf (e : event) : option (option string) :=
  match e with
  | GetChildPages (AtLevel k) _ _ | Sync (AtLevel k) _ _ => Some k
  | _ => None
  end.

(** The SyncedPageIndex after the calls of a trace: seeded with the home id
    under the no-parent key, then written by [record] at each [sync] of a
    level that returned. *)
Definition replay (h : list event) (syncedPages : gmap (option string) Z)
  : gmap (option string) Z :=
  foldl (fun idx e =>
           match e with
           | Sync (AtLevel _) u (Returned syncedPage) => record u syncedPage idx
           | _ => idx
           end) syncedPages h.

Definition indexAfter (home : Z) (h : list event) : gmap (option string) Z :=
  replay h {[ None := home ]}.

(** The id a [sync] call records under the title [t], if it records one. *)
Definition recordsUnder (t : string) (e : event) : option Z :=
  match e with
  | Sync (AtLevel _) u (Returned (Some sp)) =>
      if JS.truthy (Some (pageTitle u)) && negb (remoteId sp =? 0)
         && String.eqb (pageTitle u) t
      then Some (remoteId sp) else None
  | _ => None
  end.

(** The id most recently recorded under the title [t] by the calls of [h]. *)
Definition lastRecorded (t : string) (h : list event) : option Z :=
  last (omap (recordsUnder t) h).

(** The id the index holds under a key after the calls of [h]. *)
Definition recordedFor (home : Z) (h : list event) (parentKey : option string) : option Z :=
  match parentKey with
  | None => Some home
  | Some t => lastRecorded t h
  end.

(** How a local page of a level enters the union: alone, to be created, or
    attached to the remote child fetched under its path, to be updated; in
    both cases with the parent id of the level. *)
Definition isPairOf (parentPageId : option Z) (remotePages : list (string * RemotePage))
    (lp : LocalPage) (u : page) : Prop :=
  u = Local (setParentPageId parentPageId lp) \/
  exists k r,
    path (meta lp) = Some k /\ (k, r) ∈ remotePages /\
    u = Remote (setLocalPage (setParentPageId parentPageId lp) r).

(** The remote children no local page of the level matches, in the order of
    the fetch. *)
Definition unmatched (pages : list LocalPage) (remotePages : list (string * RemotePage))
  : list RemotePage :=
  (filter (fun kr => Some kr.1 ∉ (fun p => path (meta p)) <$> pages) remotePages).*2.

(** A level that ran to the end of its [sync] loop: the fetch of the remote
    children, then a [sync] that returned for every page of the union.
    [pagesAt] gives the local pages of each level. *)
Definition completedLevel (pagesAt : option string -> list LocalPage)
    (parentKey : option string) (block : list event) : Prop :=
  exists parentPageId remotePages outcomes,
    let union := levelUnion parentPageId (pagesAt parentKey) remotePages in
    block = GetChildPages (AtLevel parentKey) parentPageId (Returned remotePages)
              :: syncTrace parentKey union outcomes /\
    length outcomes = length union /\
    Forall returned outcomes.

(** A trace made of completed levels, one after the other. *)
Definition completedLevels (pagesAt : option string -> list LocalPage)
    (h : list event) : Prop :=
  exists blocks,
    h = concat blocks /\
    Forall (fun block => exists k, completedLevel pagesAt k block) blocks.

(** The trace [h] holds a completed level one of whose local pages is titled
    [t]: the level of the parent page of the level keyed [t]. *)
Definition parentLevelCompleted (pagesAt : option string -> list LocalPage)
    (h : list event) (t : string) : Prop :=
  exists parentKey block before after p,
    h = before ++ block ++ after /\
    completedLevel pagesAt parentKey block /\
    p ∈ pagesAt parentKey /\
    title p = t.

(** The root level may start at once; a level keyed by a title may start
    once the level of a page with that title is complete. *)
Definition levelStarted (pagesAt : option string -> list LocalPage)
    (h : list event) (parentKey : option string) : Prop :=
  match parentKey with
  | None => True
  | Some t => parentLevelCompleted pagesAt h t
  end.

(** After the trace [h], the next [sync] of the level is due on [u]: [h] ends
    with the fetch of the level, made with the id the index holds under the
    level's key, and with the returned [sync] calls of the pages of the union
    before [u]. *)
Definition nextInLevel (pagesAt : option string -> list LocalPage)
    (home : Z) (h : list event) (parentKey : option string) (u : page) : Prop :=
  exists before parentPageId remotePages outcomes,
    let union := levelUnion parentPageId (pagesAt parentKey) remotePages in
    h = before ++ GetChildPages (AtLevel parentKey) parentPageId (Returned remotePages)
               :: syncTrace parentKey union outcomes /\
    Forall returned outcomes /\
    union !! length outcomes = Some u /\
    parentPageId = indexAfter home before !! parentKey.

(** What holds of a call of [syncPages] made after the trace [h]. *)
Definition eventOK (pagesAt : option string -> list LocalPage)
    (home : Z) (h : list event) (e : event) : Prop :=
  match e with
  | GetChildPages (AtLevel k) parentPageId _ =>
      parentPageId = indexAfter home h !! k /\ levelStarted pagesAt h k
  | Sync (AtLevel k) u _ =>
      nextInLevel pagesAt home h k u /\ levelStarted pagesAt h k
  | _ => False
  end.

Fixpoint allOK (pagesAt : option string -> list LocalPage)
    (home : Z) (h new : list event) : Prop :=
  match new with
  | [] => True
  | e :: rest => eventOK pagesAt home h e /\ allOK pagesAt home (h ++ [e]) rest
  end.

(** What the walk guarantees of a level it enters after the trace [h], with
    the index as the calls of [h] left it: the calls it adds are in order,
    and if it returns, the index follows its calls and the calls are
    completed levels. *)
Definition levelSpec {W} (pagesAt : option string -> list LocalPage) (home : Z)
    (run : option string -> gmap (option string) Z -> M (Run W) (gmap (option string) Z))
  : Prop :=
  forall k idx s s' r h,
    levelStarted pagesAt h k ->
    idx = indexAfter home h ->
    run k idx s = (s', r) ->
    exists new,
      trace s' = trace s ++ new /\
      allOK pagesAt home h new /\
      forall idx', r = Ok idx' ->
        idx' = indexAfter home (h ++ new) /\ completedLevels pagesAt new.



(** ** Worked examples: hosts, navigations and pages *)
Module Examples.

(** A checkout at [/repo] with one section directory and its index file. *)
Definition guidesHost : Host :=
  Posix.host "/repo"
    ["/repo/README.md"; "/repo/docs/guides/intro.md"; "/repo/docs/guides/README.md";
     "/repo/site/docs/guides/intro.md"; "/repo/site/docs/guides/README.md";
     "/etc/passwd"].

(** The navigation of section 8 of the specification. *)
Definition guidesNav : list navItem :=
  [NavSection "Guides" [NavLeaf "Intro" "guides/intro.md"]].

Definition noContext : Context := mkContext "" "" [] ∅ [] None.

(** What [getContext] returns for the navigation under [site/], with the
    title prefix [Docs:]. *)
Definition docsBuild : Build :=
  Eval vm_compute in (getContext guidesHost "Docs:" "site" guidesNav "repo" "Site").1.
Definition docsContext : Context :=
  Eval vm_compute in
    match (getContext guidesHost "Docs:" "site" guidesNav "repo" "Site").2 with
    | Ok ctx => ctx
    | _ => noContext
    end.

(** What [getContext] returns for the navigation at the root of the
    checkout, without title prefix. *)
Definition rootBuild : Build :=
  Eval vm_compute in (getContext guidesHost "" "." guidesNav "repo" "Site").1.
Definition rootContext : Context :=
  Eval vm_compute in
    match (getContext guidesHost "" "." guidesNav "repo" "Site").2 with
    | Ok ctx => ctx
    | _ => noContext
    end.

(** Two sections that each nest a section of the same name. *)
Definition twiceNav : list navItem :=
  [NavSection "A" [NavSection "X" []]; NavSection "B" [NavSection "X" []]].

(** A page as [getPage] builds it, then placed in a section. *)
Definition pageAtSha (t p h : string) (parentSection : option string) : LocalPage :=
  mkLocalPage t (mkMeta "repo" (Some p) (Some h)) parentSection None None.
Definition pageAt (t p : string) (parentSection : option string) : LocalPage :=
  pageAtSha t p ("sha1:" +:+ p) parentSection.

(** A checkout in which the title [B] is borne by the section [B] of the
    root and by a page of the section [A]; both sections have an index
    file. *)
Definition sameTitleHost : Host :=
  Posix.host "/repo"
    ["/repo/site/docs/a/b.md"; "/repo/site/docs/a/README.md";
     "/repo/site/docs/b/c.md"; "/repo/site/docs/b/README.md"].

Definition sameTitleNav : list navItem :=
  [NavSection "A" [NavLeaf "B" "a/b.md"]; NavSection "B" [NavLeaf "C" "b/c.md"]].

Definition sameTitleBuild : Build :=
  Eval vm_compute in (getContext sameTitleHost "" "site" sameTitleNav "repo" "Site").1.
Definition sameTitleContext : Context :=
  Eval vm_compute in
    match (getContext sameTitleHost "" "site" sameTitleNav "repo" "Site").2 with
    | Ok ctx => ctx
    | _ => noContext
    end.

(** Its pages: the two leaves, then the pages of the sections [A] and [B]. *)
Definition sameTitlePages : list LocalPage :=
  Eval vm_compute in ctxPages sameTitleContext.

(** A section [Guides] with a child and no page of its own. *)
Definition orphanSectionPages : list LocalPage :=
  [pageAt "Intro" "docs/guides/intro.md" (Some "Guides")].

(** A store in which the title [Site] belongs to another repository. *)
Definition foreignHome : RemotePage :=
  mkRemotePage 1 "Site" (mkMeta "other" (Some "README.md") None) None None.
Definition foreignStore : SpecStore.Store := SpecStore.mkStore 2 [foreignHome].

Definition noConfig : Config := mkConfig None.

Definition start (w : SpecStore.Store) : Run SpecStore.Store := mkRun w [].

(** A checkout whose section directory has no index file. *)
Definition bareHost : Host := Posix.host "/repo" ["/repo/docs/guides/intro.md"].

Definition bareBuild : Build :=
  Eval vm_compute in (getContext bareHost "" "." guidesNav "repo" "Site").1.
Definition bareContext : Context :=
  Eval vm_compute in
    match (getContext bareHost "" "." guidesNav "repo" "Site").2 with
    | Ok ctx => ctx
    | _ => noContext
    end.

(** A checkout in which the title [X] is borne by a page of the root and by
    the section [X] of the section [A]; both sections have an index file. *)
Definition nestedHost : Host :=
  Posix.host "/repo"
    ["/repo/site/docs/x.md"; "/repo/site/docs/a/y.md"; "/repo/site/docs/a/x/c.md";
     "/repo/site/docs/a/README.md"; "/repo/site/docs/a/x/README.md"].

Definition nestedNav : list navItem :=
  [NavLeaf "X" "x.md";
   NavSection "A" [NavLeaf "Y" "a/y.md"; NavSection "X" [NavLeaf "C" "a/x/c.md"]]].

Definition nestedBuild : Build :=
  Eval vm_compute in (getContext nestedHost "" "site" nestedNav "repo" "Site").1.
Definition nestedContext : Context :=
  Eval vm_compute in
    match (getContext nestedHost "" "site" nestedNav "repo" "Site").2 with
    | Ok ctx => ctx
    | _ => noContext
    end.

(** Its pages: the leaves [X], [Y] and [C], then the pages of the sections
    [A] and [X]. *)
Definition nestedPages : list LocalPage :=
  Eval vm_compute in ctxPages nestedContext.

(** The run of [syncPages] on [nestedPages], under the home page 7. *)
Definition nestedRun : Run SpecStore.Store * result unit :=
  Eval vm_compute in syncPages SpecStore.sdk 10 7 nestedPages (start SpecStore.empty).

(** The run of [syncPages] on [sameTitlePages], under the home page 7. *)
Definition sameTitleRun : Run SpecStore.Store * result unit :=
  Eval vm_compute in syncPages SpecStore.sdk 10 7 sameTitlePages (start SpecStore.empty).

(** The run of [sync] on [bareContext]. *)
Definition bareRun : Run SpecStore.Store * result unit :=
  Eval vm_compute in sync SpecStore.sdk noConfig 10 (Ok bareContext) (start SpecStore.empty).

End Examples.

(** * Further definitions: the rest of the two modules *)

(** ** The leaves of a navigation *)

(** The leaves of a navigation in the order a depth-first traversal meets
    them, each with its title, its path and the section that encloses it. *)
Fixpoint leaves (parentSection : option string) (item : navItem)
  : list (string * string * option string) :=
  match item with
  | NavLeaf t p => [(t, p, parentSection)]
  | NavSection t items => List.flat_map (leaves (Some t)) items
  | NavString _ => []
  end.

Definition navLeaves (parentSection : option string) (nav : list navItem)
  : list (string * string * option string) :=
  List.flat_map (leaves parentSection) nav.

(** The entries without title, in the same order. *)
Fixpoint bareStrings (item : navItem) : list string :=
  match item with
  | NavString s => [s]
  | NavLeaf _ _ => []
  | NavSection _ items => List.flat_map bareStrings items
  end.

Definition firstBare (nav : list navItem) : option string :=
  head (List.flat_map bareStrings nav).

(** A page that stands for the file at the absolute path [pagePath]: the file
    exists, its path starts with the working directory, and the page records
    the repository, the path relative to the working directory and the hash
    of the file. *)
Definition fromFile (host : Host) (repo_url : string) (p : LocalPage) : Prop :=
  exists pagePath,
    JS.startsWith pagePath (cwd host) = true /\
    existsSync host pagePath = true /\
    meta p = mkMeta repo_url (Some (relative host (cwd host) pagePath))
                    (Some (fileHash host pagePath)).

(** The page of a leaf, when its file exists under the working directory. *)
Definition leafPage (host : Host) (titlePrefix repo_url basePath : string)
    (leaf : string * string * option string) : option LocalPage :=
  let '(t, p, parentSection) := leaf in
  let pagePath := resolve host [basePath; "docs"; p] in
  if JS.startsWith pagePath (cwd host) && existsSync host pagePath
  then Some (mkLocalPage (JS.trim (titlePrefix +:+ " " +:+ t))
               (mkMeta repo_url (Some (relative host (cwd host) pagePath))
                       (Some (fileHash host pagePath)))
               parentSection None None)
  else None.

(** A read of the file system that stays with the paths that start with the
    working directory, and hashes only files that exist. *)
Definition confined (host : Host) (e : hostEvent) : Prop :=
  match e with
  | ExistsSync p => JS.startsWith p (cwd host) = true
  | FileHash p => JS.startsWith p (cwd host) = true /\ existsSync host p = true
  | _ => True
  end.

(** The last page of [pages] recorded under the path [k]. *)
Definition lastWithPath (k : string) (pages : list LocalPage) : option LocalPage :=
  last (filter (fun p => path (meta p) = Some k) pages).

(** The section page an entry of the hierarchy gives, if it gives one: the
    page built from the index file of the directory inferred for it. *)
Definition picked (host : Host) (titlePrefix repo_url basePath : string)
    (leafs : list LocalPage) (entry : string * option string)
    (pick : option LocalPage) : Prop :=
  forall p, pick = Some p ->
    exists dir, hasReadme host basePath leafs entry.1 dir /\
                p = sectionReadme host titlePrefix repo_url basePath entry.1 entry.2 dir.

(** What a run of [traverse] amounts to. *)
Definition traversed (host : Host) (titlePrefix repo_url basePath : string)
    (parent : option string) (b : Build) (ls : list (string * string * option string))
    (bare : option string)
    (run : Build * result unit) : Prop :=
  exists evs,
    out run.1 = out b ++ evs /\
    Forall (confined host) evs /\
    match bare with
    | Some s => run.2 = Throw (NoTitle s)
    | None =>
        run.2 = Ok tt /\
        pages run.1 = pages b ++ omap (leafPage host titlePrefix repo_url basePath) ls
    end.

(** The page [getContext] builds from [README.md], if it builds one. *)
Definition readmeOf (host : Host) (basePath repo_url site_name : string)
  : option LocalPage :=
  let pagePath := resolve host [basePath; README_MD] in
  if JS.startsWith pagePath (cwd host) && existsSync host pagePath
  then Some (newLocalPage (JS.trim (" " +:+ site_name))
               (mkMeta repo_url (Some (relative host (cwd host) pagePath))
                       (Some (fileHash host pagePath))))
  else None.

(** ** The navigation as [YAML.parse] gives it *)

(** A value as [YAML.parse] gives it: a scalar, a sequence or a mapping. A
    number is held as the text Node prints for it, and a mapping as its
    properties in the order [Object.keys] lists them. *)
Inductive jsValue :=
| JUndefined
| JNull
| JBool (b : bool)
| JNumber (shown : string)
| JString (s : string)
| JArray (items : list jsValue)
| JObject (props : list (string * jsValue)).

(** What [Object.keys] throws on [null]. *)
Definition nullToObject : error :=
  TypeError "Cannot convert undefined or null to object".

(** What [path.resolve(basePath, 'docs', pagePath)] throws when [pagePath]
    is no string; [received] is how Node names the value. *)
Definition notAPath (received : string) : error :=
  TypeError ("The " +:+ JS.dquote +:+ "paths[2]" +:+ JS.dquote
               +:+ " argument must be of type string. Received " +:+ received).

Module Raw.
Section TreeBuilder.
Variable host : Host.
(** [config.confluence.titlePrefix] *)
Variable configTitlePrefix : string.

(** context.js, [traverse], on the entries as they are parsed: the body of
    [nav.forEach]. [entry] is the part of the body after the first key and
    the first value of the item are read: of a mapping its first property,
    of a sequence its first element under the key [0], of a number or a
    boolean nothing. *)
Fixpoint traverseItem (repo_url basePath : string) (parentSection : option string)
    (item : jsValue) : M Build unit :=
  let entry (pageTitle : string) (pagePath : jsValue) : M Build unit :=
    match pagePath with
    | JArray pagePath =>
        (setSection pageTitle parentSection ;;;
         (fix traverse (nav : list jsValue) : M Build unit :=
            match nav with
            | [] => ret tt
            | i :: r => traverseItem repo_url basePath (Some pageTitle) i ;;; traverse r
            end) pagePath)%M
    | JString pagePath =>
        (page <- getPage host repo_url pageTitle (resolve host [basePath; "docs"; pagePath])
                   configTitlePrefix ;;
         match page with
         | Some p => pushPage (setParentPath parentSection p)
         | None => ret tt
         end)%M
    | JUndefined => throw (notAPath "undefined")
    | JNull => throw (notAPath "null")
    | JBool b =>
        throw (notAPath ("type boolean (" +:+ (if b then "true" else "false") +:+ ")"))
    | JNumber shown => throw (notAPath ("type number (" +:+ shown +:+ ")"))
    | JObject _ => throw (notAPath "an instance of Object")
    end in
  match item with
  | JString s => throw (NoTitle s)
  | JUndefined | JNull => throw nullToObject
  | JObject ((pageTitle, pagePath) :: _) => entry pageTitle pagePath
  | JArray (pagePath :: _) => entry "0" pagePath
  | JObject [] | JArray [] | JBool _ | JNumber _ => throw (notAPath "undefined")
  end.

Fixpoint traverse (repo_url : string) (nav : list jsValue) (basePath : string)
    (parentSection : option string) : M Build unit :=
  match nav with
  | [] => ret tt
  | i :: r =>
      (traverseItem repo_url basePath parentSection i ;;;
       traverse repo_url r basePath parentSection)%M
  end.

(** context.js, [getContext], after [loadConfig] has read [nav], [repo_url]
    and [site_name], for a [site_name] that is a string. *)
Definition getContextM (basePath : string) (nav : list jsValue)
    (repo_url site_name : string) : M Build Context :=
  (traverse repo_url nav basePath None ;;;
   readMe <- getPage host repo_url site_name (resolve host [basePath; README_MD]) "" ;;
   pages0 <- gets pages ;;
   hierarchy <- gets sectionHierarchy ;;
   sectionPages <- createSectionPages host configTitlePrefix repo_url basePath pages0
                     hierarchy ;;
   forEach pushPage sectionPages ;;;
   pages1 <- gets pages ;;
   let pageRefs := foldl setRef (initialRefs readMe) pages1 in
   let sectionHierarchyObj := Object_fromEntries hierarchy in
   ret (mkContext site_name repo_url pages1 pageRefs sectionHierarchyObj readMe))%M.

Definition getContext (basePath : string) (nav : list jsValue)
    (repo_url site_name : string) : Build * result Context :=
  getContextM basePath nav repo_url site_name (mkBuild [] [] []).

End TreeBuilder.
End Raw.

(** An entry of the three kinds of [navItem], as the value it is parsed
    to. *)
Fixpoint navValue (item : navItem) : jsValue :=
  match item with
  | NavString s => JString s
  | NavLeaf pageTitle pagePath => JObject [(pageTitle, JString pagePath)]
  | NavSection pageTitle items => JObject [(pageTitle, JArray (navValue <$> items))]
  end.

(** What keeps [traverse] from going past an entry, if anything does: the
    entry is a string, it is [null], its first value is neither a string nor
    a sequence, or an entry of the sequence that is its first value is such
    an entry. *)
Fixpoint offence (item : jsValue) : option error :=
  let inEntry (pagePath : jsValue) : option error :=
    match pagePath with
    | JArray items => head (omap offence items)
    | JString _ => None
    | JUndefined => Some (notAPath "undefined")
    | JNull => Some (notAPath "null")
    | JBool b =>
        Some (notAPath ("type boolean (" +:+ (if b then "true" else "false") +:+ ")"))
    | JNumber shown => Some (notAPath ("type number (" +:+ shown +:+ ")"))
    | JObject _ => Some (notAPath "an instance of Object")
    end in
  match item with
  | JString s => Some (NoTitle s)
  | JUndefined | JNull => Some nullToObject
  | JObject ((_, pagePath) :: _) | JArray (pagePath :: _) => inEntry pagePath
  | JObject [] | JArray [] | JBool _ | JNumber _ => Some (notAPath "undefined")
  end.

(** The first such entry of a navigation, in depth-first order. *)
Definition firstOffence (nav : list jsValue) : option error := head (omap offence nav).

(** A page with a recorded path. *)
Definition hasPath (p : LocalPage) : Prop := is_Some (path (meta p)).

(** What a run of [traverse] on parsed entries amounts to. *)
Definition walked (host : Host) (b : Build) (stop : option error)
    (run : Build * result unit) : Prop :=
  exists evs,
    out run.1 = out b ++ evs /\
    Forall (confined host) evs /\
    (Forall hasPath (pages b) -> Forall hasPath (pages run.1)) /\
    run.2 = match stop with
            | Some e => Throw e
            | None => Ok tt
            end.

Module Parsed.

(** A checkout at [/repo] with one page. *)
Definition indexHost : Host := Posix.host "/repo" ["/repo/docs/index.md"].

(** A navigation with entries of every kind: a mapping with two keys, a
    sequence, and a mapping whose value is a number. *)
Definition mixedNav : list jsValue :=
  [JObject [("Home", JString "index.md"); ("Other", JNull)];
   JArray [JArray [JObject [("Deep", JString "gone.md")]]];
   JObject [("Draft", JNumber "2024")];
   JString "last.md"].

End Parsed.

Module Cases.

(** A checkout at [/repo] beside a directory [/repo2]. *)
Definition siblingHost : Host :=
  Posix.host "/repo" ["/repo/README.md"; "/repo/docs/index.md"; "/repo2/secret.md"].

(** A navigation with a leaf whose file is missing, a leaf that leaves the
    checkout for the directory beside it, and a leaf for [README.md]. *)
Definition siblingNav : list navItem :=
  [NavLeaf "Home" "index.md"; NavLeaf "Gone" "gone.md";
   NavSection "Notes" [NavLeaf "Secret" "../../repo2/secret.md";
                       NavLeaf "Welcome" "../README.md"]].

Definition siblingBuild : Build :=
  Eval vm_compute in (getContext siblingHost "" "." siblingNav "repo" "Site").1.
Definition siblingContext : Context :=
  Eval vm_compute in
    match (getContext siblingHost "" "." siblingNav "repo" "Site").2 with
    | Ok ctx => ctx
    | _ => Examples.noContext
    end.

(** A checkout with a file named [__proto__] at its root, and a navigation
    with a leaf for it. *)
Definition protoHost : Host :=
  Posix.host "/repo" ["/repo/__proto__"; "/repo/docs/index.md"].

Definition protoNav : list navItem :=
  [NavLeaf "Proto" "../__proto__"; NavLeaf "Home" "index.md"].

Definition protoBuild : Build :=
  Eval vm_compute in (getContext protoHost "" "." protoNav "repo" "Site").1.
Definition protoContext : Context :=
  Eval vm_compute in
    match (getContext protoHost "" "." protoNav "repo" "Site").2 with
    | Ok ctx => ctx
    | _ => Examples.noContext
    end.

(** A checkout with a section [Guides] and a section [2024], both with an
    index file. *)
Definition yearHost : Host :=
  Posix.host "/repo"
    ["/repo/site/docs/guides/intro.md"; "/repo/site/docs/guides/README.md";
     "/repo/site/docs/2024/news.md"; "/repo/site/docs/2024/README.md"].

Definition yearNav : list navItem :=
  [NavSection "Guides" [NavLeaf "Intro" "guides/intro.md"];
   NavSection "2024" [NavLeaf "News" "2024/news.md"]].

Definition yearBuild : Build :=
  Eval vm_compute in (getContext yearHost "" "site" yearNav "repo" "Site").1.
Definition yearContext : Context :=
  Eval vm_compute in
    match (getContext yearHost "" "site" yearNav "repo" "Site").2 with
    | Ok ctx => ctx
    | _ => Examples.noContext
    end.

(** A navigation with entries without title. *)
Definition untitledNav : list navItem :=
  [NavLeaf "Home" "index.md";
   NavSection "Notes" [NavSection "Deep" [NavString "deep.md"]; NavString "notes.md"];
   NavString "last.md"].

End Cases.

(** ** The configuration file: [loadConfig] *)

(** What [loadConfig] throws: its own two errors, or what the file system,
    the parser or the runtime threw. *)
Inductive configError :=
| NavMissing
| RepoUrlMissing
| Other (e : error).

(** [error.message] *)
Definition configMessage (e : configError) : string :=
  match e with
  | NavMissing => "nav is missing from your mkdocs.yml file"
  | RepoUrlMissing => "repo_url is missing from your mkdocs.yml file"
  | Other e => message e
  end.

(** What [loadConfig] returns. *)
Record MkDocs := mkMkDocs {
  cfgNav : list jsValue;
  cfgRepoUrl : string;
  cfgSiteName : jsValue
}.

(** [const { nav, repo_url, site_name } = json]: the three properties of a
    mapping, [undefined] for a property it does not have; a sequence or a
    scalar has none of the three; [null] and [undefined] cannot be
    destructured. *)
Definition destructure (json : jsValue) : outcome (jsValue * jsValue * jsValue) :=
  match json with
  | JUndefined =>
      Threw (TypeError "Cannot destructure property 'nav' of 'json' as it is undefined.")
  | JNull =>
      Threw (TypeError "Cannot destructure property 'nav' of 'json' as it is null.")
  | JObject props =>
      Returned (default JUndefined (Map_get "nav" props),
                default JUndefined (Map_get "repo_url" props),
                default JUndefined (Map_get "site_name" props))
  | _ => Returned (JUndefined, JUndefined, JUndefined)
  end.

Section LoadConfig.
Variable host : Host.
(** [fs.readFileSync(path, 'utf8')] and [YAML.parse(text)], taken as given. *)
Variable readFileSync : string -> outcome string.
Variable parseYaml : string -> outcome jsValue.

Definition MKDOCS_YML : string := "mkdocs.yml".

(** context.js, [loadConfig]. *)
Definition loadConfig (basePath : string) : configError + MkDocs :=
  let mkDocsFile := resolve host [basePath; MKDOCS_YML] in
  match readFileSync mkDocsFile with
  | Threw e => inl (Other e)
  | Returned yml =>
      match parseYaml yml with
      | Threw e => inl (Other e)
      | Returned json =>
          match destructure json with
          | Threw e => inl (Other e)
          | Returned (nav, repo_url, site_name) =>
              match nav with
              | JArray items =>
                  match repo_url with
                  | JString url =>
                      if Nat.eqb (String.length (JS.trim url)) 0
                      then inl RepoUrlMissing
                      else inr (mkMkDocs items url site_name)
                  | _ => inl RepoUrlMissing
                  end
              | _ => inl NavMissing
              end
          end
      end
  end.

End LoadConfig.

(** A string made of sequences of [seqs], one after the other. *)
Inductive madeOf (seqs : list string) : string -> Prop :=
| madeOf_empty : madeOf seqs ""
| madeOf_more w s : w ∈ seqs -> madeOf seqs s -> madeOf seqs (w +:+ s).

(** A string of white space only. *)
Definition blank (s : string) : Prop := madeOf JS.whiteSpace s.

(** [s.endsWith(w)] *)
Definition endsWith (s w : string) : bool := String.prefix (String.rev w) (String.rev s).

(** ** Calls in a trace *)

(** The [deletePage] calls of [unpublish] on the pages with the ids [ids],
    one after the other, with their outcomes. *)
Definition deleteTrace (ids : list Z) (outcomes : list (outcome unit)) : list event :=
  zip_with (DeletePage AtCleanup) ids outcomes.

(** A loop of calls that ran with the outcomes [outcomes] out of [n] calls
    due and ended with [r]: it returned after [n] calls that returned, or it
    threw what its last call threw, the calls before having returned. *)
Definition ranUntil {A B} (n : nat) (outcomes : list (outcome A)) (r : result B) : Prop :=
  match r with
  | Ok _ => length outcomes = n /\ Forall returned outcomes
  | Throw e =>
      exists done, outcomes = done ++ [Threw e] /\ Forall returned done /\
                   (length done < n)%nat
  | OutOfFuel => False
  end.

(** A call to the collaborator, and a call that returned. *)
Definition isCall (e : event) : Prop :=
  match e with
  | FindPage _ _ _ | GetChildPages _ _ _ | Sync _ _ _ | DeletePage _ _ _ => True
  | _ => False
  end.

Definition callReturned (e : event) : Prop :=
  match e with
  | FindPage _ _ out => returned out
  | GetChildPages _ _ out => returned out
  | Sync _ _ out => returned out
  | DeletePage _ _ out => returned out
  | _ => False
  end.

(** The local page [syncHome] works with: the page of [README.md], or a page
    made of the site name. *)
Definition homeLocalPage (repo' siteName : string) (readMe : option LocalPage) : LocalPage :=
  match readMe with
  | Some p => p
  | None => setHtml ("<h1>" +:+ siteName +:+ "</h1>")
                    (newLocalPage siteName (mkMeta repo' None None))
  end.

(** The id of the page configured as parent, in a store: none when no title
    is configured. *)
Definition configuredParent {W} (confluence : Confluence W) (config : Config) (w : W)
    (parentPageId : option Z) : Prop :=
  match parentPage config with
  | Some (String _ _ as t) =>
      exists p, findPage confluence t w = Returned (Some p) /\
                parentPageId = Some (remoteId p)
  | _ => parentPageId = None
  end.

(** The page [syncHome] calls [sync] on: the page found under the site
    name, with the local page attached, or the local page when none is
    found. *)
Definition homePage (found : option RemotePage) (localPage : LocalPage) : page :=
  match found with
  | Some remotePage => Remote (setLocalPage localPage remotePage)
  | None => Local localPage
  end.

(** What a run of [syncHome] from [s] to [s'] with the result [r] amounts
    to: reads by title, then at most one [sync] call. *)
Definition syncedOnce {W} (confluence : Confluence W) (config : Config)
    (repo' siteName : string) (readMe : option LocalPage) (s s' : Run W) (r : result Z)
  : Prop :=
  exists finds,
    Forall isFindPage finds /\
    ((world s' = world s /\ trace s' = trace s ++ finds /\ exists e, r = Throw e) \/
     (exists parentFinds found out parentPageId,
        let localPage :=
          setParentPageId parentPageId (homeLocalPage repo' siteName readMe) in
        finds = parentFinds ++ [FindPage AtHome siteName (Returned found)] /\
        trace s' = trace s ++ finds ++ [Sync AtHome (homePage found localPage) out] /\
        pageSync confluence (homePage found localPage) (world s) = (world s', out) /\
        configuredParent confluence config (world s) parentPageId /\
        (forall remotePage, found = Some remotePage ->
                            repoConflict (setLocalPage localPage remotePage) = false) /\
        Forall callReturned finds /\
        r = match out with
            | Returned (Some p) => Ok (remoteId p)
            | Returned None =>
                Throw (TypeError "Cannot read properties of undefined (reading 'id')")
            | Threw e => Throw e
            end)).

Module Stores.

(** A configuration that names a parent page. *)
Definition underDocs : Config := mkConfig (Some "Docs").

(** A store with the home page of the site, of the repository [repo], and
    two children of it. *)
Definition siteHome : RemotePage :=
  mkRemotePage 1 "Site" (mkMeta "repo" (Some "README.md") None) None None.
Definition childA : RemotePage :=
  mkRemotePage 2 "A" (mkMeta "repo" (Some "docs/a.md") None) (Some 1) None.
Definition childB : RemotePage :=
  mkRemotePage 3 "B" (mkMeta "repo" (Some "docs/b.md") None) (Some 1) None.
Definition published : SpecStore.Store := SpecStore.mkStore 4 [siteHome; childA; childB].

(** The run of [syncHome] for a site without [README.md] on an empty store. *)
Definition createdHome : Run SpecStore.Store * result Z :=
  Eval vm_compute in
    syncHome SpecStore.sdk Examples.noConfig "repo" "Site" None
             (Examples.start SpecStore.empty).

(** The runs of [unpublish] on the two children, and of [cleanup], on the
    published store. *)
Definition unpublished : Run SpecStore.Store * result unit :=
  Eval vm_compute in
    unpublish SpecStore.sdk [childA; childB] (Examples.start published).
Definition cleanedUp : Run SpecStore.Store * result unit :=
  Eval vm_compute in
    cleanup SpecStore.sdk (Ok Examples.bareContext) (Examples.start published).

End Stores.

(** ** The levels a walk enters *)

(** The trace holds the fetch of the remote children of the level [k]. *)
Definition fetchedAt (k : option string) (h : list event) : Prop :=
  exists parentPageId out, GetChildPages (AtLevel k) parentPageId out ∈ h.

(** A page of a level that the walk descends from: some local page names
    its title as parent. *)
Definition hasChildren (localPages : list LocalPage) (p : LocalPage) : Prop :=
  exists q, q ∈ localPages /\ parentPath q = Some (title p) /\ title p <> "".

(** The levels of a trace are closed under descent: with the fetch of a
    level it holds the fetch of the level of each of its pages that has
    children. *)
Definition closedUnderDescent (pagesAt : option string -> list LocalPage)
    (descend : LocalPage -> Prop) (h : list event) : Prop :=
  forall k p, fetchedAt k h -> p ∈ pagesAt k -> descend p ->
              fetchedAt (Some (title p)) h.

(** What the walk guarantees of a level it enters, whatever the trace
    before: if it returns, its calls start with the fetch of the level, with
    the id the index holds under the key of the level, and its levels are
    closed under descent. *)
Definition walkSpec {W} (pagesAt : option string -> list LocalPage)
    (descend : LocalPage -> Prop)
    (run : option string -> gmap (option string) Z -> M (Run W) (gmap (option string) Z))
  : Prop :=
  forall k idx s s' r,
    run k idx s = (s', r) ->
    exists new,
      trace s' = trace s ++ new /\
      forall idx', r = Ok idx' ->
        (exists remotePages rest,
           new = GetChildPages (AtLevel k) (idx !! k) (Returned remotePages) :: rest) /\
        closedUnderDescent pagesAt descend new.

(** The levels a walk from the root reaches: the root level, and the level
    of each page of a reached level that has children. *)
Inductive reached (localPages : list LocalPage) : option string -> Prop :=
| reached_root : reached localPages None
| reached_section k p :
    reached localPages k ->
    p ∈ pagesOfLevel localPages k ->
    hasChildren localPages p ->
    reached localPages (Some (title p)).

(** The id of the remote page a [sync] call is made on, if it is made on
    one. *)
Definition remoteOf (u : page) : option Z :=
  match u with
  | Remote r => Some (remoteId r)
  | Local _ => None
  end.

Module Cycle.

(** A checkout with a page titled [Guides] at the root and a section
    [Guides] that lists a page titled [Guides]. *)
Definition selfHost : Host :=
  Posix.host "/repo" ["/repo/docs/guides.md"; "/repo/docs/guides/index.md"].

Definition selfNav : list navItem :=
  [NavLeaf "Guides" "guides.md"; NavSection "Guides" [NavLeaf "Guides" "guides/index.md"]].

Definition selfContext : Context :=
  Eval vm_compute in
    match (getContext selfHost "" "." selfNav "repo" "Site").2 with
    | Ok ctx => ctx
    | _ => Examples.noContext
    end.

End Cycle.

Module Runs.

(** The run of [syncPages] without local pages on the published store. *)
Definition emptied : Run SpecStore.Store * result unit :=
  Eval vm_compute in syncPages SpecStore.sdk 1 1 [] (Examples.start Stores.published).

(** The run of [sync] on the checkout of [sameTitlePages], on an empty
    store. *)
Definition publishedRun : Run SpecStore.Store * result unit :=
  Eval vm_compute in
    sync SpecStore.sdk Examples.noConfig 10 (Ok Examples.sameTitleContext)
         (Examples.start SpecStore.empty).

End Runs.

(** The titles a navigation gives: those of its leaves and of its
    sections. *)
Definition navTitles (nav : list navItem) : list string :=
  ((fun leaf => leaf.1.1) <$> navLeaves None nav) ++ (sectionVisits None nav).*1.

Module Titles.

(** The navigation of section 8 of the specification, with an em space
    (U+2003) after the title of the leaf and a no-break space (U+00A0)
    before the name of the section. *)
Definition spacedNav : list navItem :=
  [NavSection (JS.ofBytes [194; 160]%N +:+ "Guides")
     [NavLeaf ("Intro" +:+ JS.ofBytes [226; 128; 131]%N) "guides/intro.md"]].

Definition spacedBuild : Build :=
  Eval vm_compute in (getContext Examples.guidesHost "" "site" spacedNav "repo" "Site").1.
Definition spacedContext : Context :=
  Eval vm_compute in
    match (getContext Examples.guidesHost "" "site" spacedNav "repo" "Site").2 with
    | Ok ctx => ctx
    | _ => Examples.noContext
    end.

End Titles.

(** * Properties of the tree builder *)

(** ** The monad, unfolded *)

Lemma bind_Ok {S A B} (m : M S A) (k : A -> M S B) s s1 a :
  m s = (s1, Ok a) -> bind m k s = k a s1.
Proof. unfold bind. intros ->. reflexivity. Qed.

Lemma bind_inv_Ok {S A B} (m : M S A) (k : A -> M S B) s s' b :
  bind m k s = (s', Ok b) -> exists s1 a, m s = (s1, Ok a) /\ k a s1 = (s', Ok b).
Proof.
  unfold bind. destruct (m s) as [s1 [a| |]]; intros Heq; try discriminate.
  exists s1, a. split; [reflexivity | exact Heq].
Qed.

(** ** Sections of a navigation, as a depth-first traversal meets them *)

(** Induction over a navigation entry and the entries nested in it. *)
Lemma navItem_nested_ind (P : navItem -> Prop) :
  (forall s, P (NavString s)) ->
  (forall t p, P (NavLeaf t p)) ->
  (forall t items, Forall P items -> P (NavSection t items)) ->
  forall item, P item.
Proof.
  intros Hs Hl Hsec. fix IH 1. intros [s | t p | t items].
  - apply Hs.
  - apply Hl.
  - apply Hsec. induction items as [| i r IHr]; constructor; [apply IH | exact IHr].
Qed.

Section BuilderFacts.
Variable host : Host.
Variable titlePrefix : string.

(** What [getPage] does, by the three cases of its two tests. *)
Lemma getPage_cases repo_url title pagePath prefix b :
  getPage host repo_url title pagePath prefix b =
    if negb (JS.startsWith pagePath (cwd host)) then
      (addOut [notFound host title pagePath] b, Ok None)
    else if negb (existsSync host pagePath) then
      (addOut [ExistsSync pagePath; notFound host title pagePath] b, Ok None)
    else
      (addOut [ExistsSync pagePath; FileHash pagePath] b,
       Ok (Some (newLocalPage (JS.trim (prefix +:+ " " +:+ title))
                   (mkMeta repo_url (Some (relative host (cwd host) pagePath))
                           (Some (fileHash host pagePath)))))).
Proof.
  unfold getPage, addOut, notFound, bind, ret, emit, modify.
  destruct (JS.startsWith pagePath (cwd host)); simpl.
  - destruct (existsSync host pagePath); simpl; rewrite <- app_assoc; reflexivity.
  - reflexivity.
Qed.

Lemma getPage_keeps repo_url title pagePath prefix b :
  exists evs page,
    getPage host repo_url title pagePath prefix b = (addOut evs b, Ok page).
Proof.
  rewrite getPage_cases.
  destruct (negb _); [eauto |]. destruct (negb _); eauto.
Qed.

(** The loop nested in [traverseItem] is [traverse]. *)
Lemma traverse_nested repo_url basePath parent nav :
  (fix traverse (nav : list navItem) : M Build unit :=
     match nav with
     | [] => ret tt
     | i :: r => bind (traverseItem host titlePrefix repo_url basePath parent i)
                      (fun _ => traverse r)
     end) nav
  = traverse host titlePrefix repo_url nav basePath parent.
Proof. induction nav as [| i r IH]; simpl; [reflexivity | rewrite IH; reflexivity]. Qed.

Lemma traverseItem_section repo_url basePath parent t items :
  traverseItem host titlePrefix repo_url basePath parent (NavSection t items)
  = bind (setSection t parent)
         (fun _ => traverse host titlePrefix repo_url items basePath (Some t)).
Proof. simpl. rewrite traverse_nested. reflexivity. Qed.

Lemma setAll_app vs1 vs2 h : setAll (vs1 ++ vs2) h = setAll vs2 (setAll vs1 h).
Proof. unfold setAll. apply foldl_app. Qed.

(** A traversal that returns has written the binding of every visit, in the
    order of the visits. *)
Lemma traverseItem_hierarchy repo_url basePath item :
  forall parent b b',
    traverseItem host titlePrefix repo_url basePath parent item b = (b', Ok tt) ->
    sectionHierarchy b' = setAll (visits parent item) (sectionHierarchy b).
Proof.
  induction item as [s | t p | t items IH] using navItem_nested_ind; intros parent b b' Hrun.
  - discriminate.
  - simpl in Hrun. apply bind_inv_Ok in Hrun as (b1 & page & Hget & Hrest).
    destruct (getPage_keeps repo_url t (resolve host [basePath; "docs"; p]) titlePrefix b)
      as (evs & page' & Hget').
    rewrite Hget' in Hget. injection Hget as <- <-.
    destruct page'; injection Hrest as <-; reflexivity.
  - rewrite traverseItem_section in Hrun.
    apply bind_inv_Ok in Hrun as (b1 & [] & Hset & Hrest).
    injection Hset as <-. simpl visits. change ((t, parent) :: ?l) with ([(t, parent)] ++ l).
    rewrite setAll_app. simpl setAll at 2.
    set (h0 := Map_set t parent (sectionHierarchy b)).
    assert (Hgen : forall b0 b1,
               traverse host titlePrefix repo_url items basePath (Some t) b0 = (b1, Ok tt) ->
               sectionHierarchy b1
               = setAll (List.flat_map (visits (Some t)) items) (sectionHierarchy b0)).
    { clear Hrest. induction IH as [| i r Hi _ IHr]; intros b0 b2 Hrun.
      - injection Hrun as <-. reflexivity.
      - simpl in Hrun. apply bind_inv_Ok in Hrun as (bi & [] & Hitem & Hrest).
        simpl. rewrite setAll_app. rewrite (IHr _ _ Hrest).
        rewrite (Hi _ _ _ Hitem). reflexivity. }
    apply Hgen in Hrest. exact Hrest.
Qed.

Lemma traverse_hierarchy repo_url basePath nav :
  forall parent b b',
    traverse host titlePrefix repo_url nav basePath parent b = (b', Ok tt) ->
    sectionHierarchy b' = setAll (sectionVisits parent nav) (sectionHierarchy b).
Proof.
  induction nav as [| i r IH]; intros parent b b' Hrun.
  - injection Hrun as <-. reflexivity.
  - simpl in Hrun. apply bind_inv_Ok in Hrun as (bi & [] & Hitem & Hrest).
    unfold sectionVisits. simpl. rewrite setAll_app.
    rewrite (IH _ _ _ Hrest). rewrite (traverseItem_hierarchy _ _ _ _ _ _ Hitem).
    reflexivity.
Qed.

(** ** The ordered map *)

Lemma Map_get_set_eq {K V} `{EqDecision K} (k : K) (v : V) m :
  Map_get k (Map_set k v m) = Some v.
Proof.
  induction m as [| [k' v'] r IH]; simpl; repeat (case_decide; simpl); congruence.
Qed.

Lemma Map_get_set_ne {K V} `{EqDecision K} (k k' : K) (v : V) m :
  k <> k' -> Map_get k' (Map_set k v m) = Map_get k' m.
Proof.
  intros Hne. induction m as [| [k0 v0] r IH]; simpl;
    repeat (case_decide; simpl); congruence.
Qed.

Lemma Map_keys_set {K V} `{EqDecision K} (k : K) (v : V) m :
  Map_keys (Map_set k v m) = if decide (k ∈ Map_keys m) then Map_keys m else Map_keys m ++ [k].
Proof.
  unfold Map_keys. induction m as [| [k0 v0] r IH].
  - simpl. reflexivity.
  - cbn [Map_set fmap list_fmap fst].
    destruct (decide (k0 = k)) as [-> | Hne].
    + rewrite decide_True; [reflexivity | left].
    + cbn [fmap list_fmap fst]. fold (fst <$> Map_set k v r). rewrite IH.
      fold (fst <$> r).
      destruct (decide (k ∈ r.*1)) as [Hin | Hnin].
      * rewrite decide_True; [reflexivity | right; assumption].
      * rewrite decide_False; [reflexivity |].
        intros [Heq | Hin]%elem_of_cons; [congruence | contradiction].
Qed.

Lemma Map_keys_set_NoDup {K V} `{EqDecision K} (k : K) (v : V) m :
  NoDup (Map_keys m) -> NoDup (Map_keys (Map_set k v m)).
Proof.
  intros Hnd. rewrite Map_keys_set. destruct (decide _) as [Hin | Hnin]; [assumption |].
  apply NoDup_app. split; [assumption |]. split; [| apply NoDup_singleton].
  intros x Hx ->%list_elem_of_singleton. contradiction.
Qed.

Lemma Map_keys_set_elem {K V} `{EqDecision K} (k name : K) (v : V) m :
  name ∈ Map_keys (Map_set k v m) <-> name = k \/ name ∈ Map_keys m.
Proof.
  rewrite Map_keys_set. destruct (decide _) as [Hin | Hnin].
  - split; [tauto |]. intros [-> | Hm]; assumption.
  - rewrite elem_of_app, list_elem_of_singleton. tauto.
Qed.

(** ** The plain object *)

Lemma Map_set_elem {K V} `{EqDecision K} (k : K) (v : V) m x :
  x ∈ Map_set k v m -> x = (k, v) \/ x ∈ m.
Proof.
  induction m as [| [k0 v0] r IH]; simpl.
  - intros ->%list_elem_of_singleton. by left.
  - case_decide.
    + intros [-> | Hx]%elem_of_cons; [by left | right; by right].
    + intros [-> | Hx]%elem_of_cons; [right; left |].
      destruct (IH Hx) as [-> | Hr]; [by left | right; by right].
Qed.

Lemma insertIndex_elem {V} i k (v : V) o x :
  x ∈ insertIndex i k v o <-> x = (k, v) \/ x ∈ o.
Proof.
  induction o as [| [k0 v0] r IH]; simpl.
  - rewrite list_elem_of_singleton, elem_of_nil. tauto.
  - destruct (arrayIndex k0) as [j |]; [destruct (j <? i)%N |];
      rewrite !elem_of_cons; rewrite ?IH; tauto.
Qed.

Lemma Object_define_elem {V} k (v : V) o x :
  x ∈ Object_define k v o -> x = (k, v) \/ x ∈ o.
Proof.
  unfold Object_define. case_decide; [apply Map_set_elem |].
  destruct (arrayIndex k) as [i |]; [by rewrite insertIndex_elem |].
  rewrite elem_of_app, list_elem_of_singleton. tauto.
Qed.

(** The properties of the object [Object.fromEntries] makes are entries of
    the [Map]. *)
Lemma Object_fromEntries_elem {V} (m : list (string * V)) x :
  x ∈ Object_fromEntries m -> x ∈ m.
Proof.
  unfold Object_fromEntries. induction m as [| [k v] m IH] using rev_ind; [done |].
  rewrite foldl_app. simpl. intros [-> | Hx]%Object_define_elem; apply elem_of_app.
  - right. left.
  - left. by apply IH.
Qed.

Lemma insertIndex_Permutation {V} i k (v : V) o : insertIndex i k v o ≡ₚ (k, v) :: o.
Proof.
  induction o as [| [k0 v0] r IH]; simpl; [reflexivity |].
  destruct (arrayIndex k0) as [j |]; [destruct (j <? i)%N |]; try reflexivity.
  rewrite IH. apply Permutation_swap.
Qed.

(** The object [Object.fromEntries] makes of a [Map] holds the entries of
    the [Map], each once, in the order of an object. *)
Lemma Object_fromEntries_Permutation {V} (m : list (string * V)) :
  NoDup (Map_keys m) -> Object_fromEntries m ≡ₚ m.
Proof.
  unfold Object_fromEntries, Map_keys.
  induction m as [| [k v] m IH] using rev_ind; [reflexivity |].
  rewrite fmap_app. intros [Hnd [Hk _]]%NoDup_app. specialize (IH Hnd).
  rewrite foldl_app. simpl. unfold Object_define, Map_keys.
  rewrite decide_False.
  - destruct (arrayIndex k) as [i |].
    + rewrite insertIndex_Permutation, IH. apply Permutation_cons_append.
    + by rewrite IH.
  - rewrite IH. intros Hin. apply (Hk k Hin). simpl. left.
Qed.

Lemma setAll_snoc vs v h : setAll (vs ++ [v]) h = Map_set (fst v) (snd v) (setAll vs h).
Proof. rewrite setAll_app. reflexivity. Qed.

Lemma lastBinding_snoc name vs v :
  lastBinding name (vs ++ [v])
  = if String.eqb (fst v) name then Some (snd v) else lastBinding name vs.
Proof.
  unfold lastBinding, firstBinding. rewrite rev_unit. simpl.
  destruct (String.eqb (fst v) name); reflexivity.
Qed.

(** After the writes of [vs], a name is bound as its last visit says, and a
    name without visit keeps its binding. *)
Lemma setAll_get name vs h :
  Map_get name (setAll vs h)
  = match lastBinding name vs with
    | Some parent => Some parent
    | None => Map_get name h
    end.
Proof.
  induction vs as [| v vs IH] using rev_ind; [reflexivity |].
  rewrite setAll_snoc, lastBinding_snoc.
  destruct (String.eqb_spec (fst v) name) as [<- | Hne].
  - apply Map_get_set_eq.
  - rewrite Map_get_set_ne; assumption.
Qed.

Lemma setAll_keys vs h :
  NoDup (Map_keys h) ->
  NoDup (Map_keys (setAll vs h)) /\
  forall name, name ∈ Map_keys (setAll vs h) <-> name ∈ vs.*1 \/ name ∈ Map_keys h.
Proof.
  intros Hnd. induction vs as [| v vs [IHnd IHin]] using rev_ind.
  - split; [assumption |]. intros name. simpl. rewrite elem_of_nil. tauto.
  - rewrite setAll_snoc. split; [apply Map_keys_set_NoDup; assumption |].
    intros name. rewrite Map_keys_set_elem, IHin, fmap_app, elem_of_app.
    simpl. rewrite list_elem_of_singleton. tauto.
Qed.

End BuilderFacts.

(** ** C9: a page outside the working directory *)

(** C9. A navigation leaf whose resolved path does not start with the working
    directory is skipped: [traverse]'s callback leaves the pages and the
    hierarchy as they are, logs the warning, and neither asks the file system
    whether the file exists nor computes a hash. Nothing is assumed about the
    file system, so this holds also when a file exists at that path. *)
Theorem C9_leaf_outside_cwd_is_skipped
    (host : Host) (titlePrefix repo_url basePath : string)
    (parentSection : option string) (pageTitle pagePath : string) (b : Build) :
  JS.startsWith (resolve host [basePath; "docs"; pagePath]) (cwd host) = false ->
  traverseItem host titlePrefix repo_url basePath parentSection
               (NavLeaf pageTitle pagePath) b
  = (addOut [notFound host pageTitle (resolve host [basePath; "docs"; pagePath])] b, Ok tt).
Proof.
  intros Hunsafe. simpl. unfold bind. rewrite getPage_cases, Hunsafe. reflexivity.
Qed.

(** The file [/etc/passwd] exists, and a leaf that resolves to it is skipped. *)
Lemma C9_leaf_outside_cwd_witness :
  existsSync Examples.guidesHost "/etc/passwd" = true /\
  JS.startsWith (resolve Examples.guidesHost ["."; "docs"; "../../etc/passwd"])
                (cwd Examples.guidesHost) = false /\
  traverseItem Examples.guidesHost "" "repo" "." None
               (NavLeaf "Passwd" "../../etc/passwd") (mkBuild [] [] [])
  = (mkBuild [] [] [Warn (String.concat JS.dquote
                            ["Page "; "Passwd"; " not found at "; "../etc/passwd"; ""])],
     Ok tt).
Proof.
  split; [reflexivity |]. split; [reflexivity |].
  rewrite (C9_leaf_outside_cwd_is_skipped Examples.guidesHost "" "repo" "." None
             "Passwd" "../../etc/passwd" (mkBuild [] [] [])); reflexivity.
Defined.

(** ** C6: the binding of a section name *)

(** C6, as the specification states it, fails: the section name [X], met
    first under [A] and then under [B], ends up bound to [B]. *)
Lemma C6_first_encounter_counterexample :
  ~ recordsFirstEncounter Examples.guidesHost Examples.twiceNav.
Proof.
  intros Hclaim.
  specialize (Hclaim
    (mkBuild [] [("A", None); ("X", Some "B"); ("B", None)] []) "X" eq_refl).
  assert (Hin : "X" ∈ (sectionVisits None Examples.twiceNav).*1).
  { simpl. do 1 right. left. }
  specialize (Hclaim Hin). vm_compute in Hclaim. discriminate.
Qed.

(** C6, amended. When [traverse] returns, every section name the traversal
    met is a key of the hierarchy exactly once, no other name is, and each
    name is bound to the parent section of the last encounter: every
    encounter writes the binding, a later one over an earlier one. *)
Theorem C6_hierarchy_binds_last_encounter
    (host : Host) (titlePrefix repo_url basePath : string)
    (nav : list navItem) (b : Build) :
  traverse host titlePrefix repo_url nav basePath None (mkBuild [] [] []) = (b, Ok tt) ->
  NoDup (Map_keys (sectionHierarchy b)) /\
  (forall name, name ∈ Map_keys (sectionHierarchy b) <-> name ∈ (sectionVisits None nav).*1) /\
  (forall name, Map_get name (sectionHierarchy b) = lastBinding name (sectionVisits None nav)).
Proof.
  intros Hrun. apply traverse_hierarchy in Hrun. simpl in Hrun. rewrite Hrun.
  destruct (setAll_keys (sectionVisits None nav) [] (NoDup_nil_2)) as [Hnd Hin].
  split; [exact Hnd |]. split.
  - intros name. rewrite Hin. simpl. rewrite elem_of_nil. tauto.
  - intros name. rewrite setAll_get. destruct (lastBinding _ _); reflexivity.
Qed.

Lemma C6_hierarchy_binds_last_encounter_witness :
  traverse Examples.guidesHost "" "repo" Examples.twiceNav "." None (mkBuild [] [] [])
  = (mkBuild [] [("A", None); ("X", Some "B"); ("B", None)] [], Ok tt) /\
  Map_get "X" [("A", None); ("X", Some "B"); ("B", None)] = Some (Some "B").
Proof.
  split; [reflexivity |].
  destruct (C6_hierarchy_binds_last_encounter Examples.guidesHost "" "repo" "."
              Examples.twiceNav
              (mkBuild [] [("A", None); ("X", Some "B"); ("B", None)] []) eq_refl)
    as (_ & _ & Hget).
  exact (Hget "X").
Defined.


(** ** Section pages *)

Section CreateSectionPages.
Variable host : Host.
Variable titlePrefix : string.

(** One turn of the loop of [createSectionPages] only adds output, and only
    appends to the pages collected so far. *)
Lemma sectionPage_grows repo_url basePath leaves acc entry b b' acc' :
  sectionPage host titlePrefix repo_url basePath leaves acc entry b = (b', Ok acc') ->
  (exists evs, b' = addOut evs b) /\ exists more, acc' = acc ++ more.
Proof.
  destruct entry as [name parent]. unfold sectionPage.
  destruct (filter _ leaves) as [| c cs].
  { intros [= <- <-]. split; [exists []; destruct b; unfold addOut; simpl; by rewrite app_nil_r | exists []; by rewrite app_nil_r]. }
  intros Hrun. apply bind_inv_Ok in Hrun as (b1 & dir & Hinfer & Hrest).
  unfold liftO in Hinfer. injection Hinfer as <- Hinfer.
  destruct dir as [[| c0 d] |].
  - injection Hrest as <- <-. split; [exists []; destruct b; unfold addOut; simpl; by rewrite app_nil_r | exists []; by rewrite app_nil_r].
  - apply bind_inv_Ok in Hrest as (b2 & page & Hget & Hrest).
    destruct (getPage_keeps host repo_url name
                (resolve host [basePath; "docs"; String c0 d; "README.md"]) titlePrefix b)
      as (evs & page' & Hget').
    rewrite Hget' in Hget. injection Hget as <- <-.
    destruct page' as [p |].
    + apply bind_inv_Ok in Hrest as (b3 & [] & Hemit & Hrest).
      injection Hemit as <-. injection Hrest as <- <-.
      split; [| eexists; reflexivity].
      eexists (evs ++ [_]). unfold addOut. simpl. rewrite app_assoc. reflexivity.
    + injection Hrest as <- <-. split; [eauto | exists []; by rewrite app_nil_r].
  - injection Hrest as <- <-. split; [exists []; destruct b; unfold addOut; simpl; by rewrite app_nil_r | exists []; by rewrite app_nil_r].
Qed.

(** The turn for a section with an index file appends its page. *)
Lemma sectionPage_readme repo_url basePath leaves acc name parent dir b b' acc' :
  hasReadme host basePath leaves name dir ->
  sectionPage host titlePrefix repo_url basePath leaves acc (name, parent) b = (b', Ok acc') ->
  acc' = acc ++ [sectionReadme host titlePrefix repo_url basePath name parent dir].
Proof.
  intros (Hinfer & Hdir & Hsafe & Hexists). unfold sectionPage.
  destruct (filter _ leaves) as [| c cs] eqn:Hchildren.
  { discriminate Hinfer. }
  intros Hrun. apply bind_inv_Ok in Hrun as (b1 & dir' & Hinfer' & Hrest).
  unfold liftO in Hinfer'. rewrite Hinfer in Hinfer'. injection Hinfer' as <- <-.
  destruct dir as [| c0 d]; [congruence |].
  apply bind_inv_Ok in Hrest as (b2 & page & Hget & Hrest).
  rewrite getPage_cases, Hsafe, Hexists in Hget. simpl in Hget.
  injection Hget as <- <-.
  apply bind_inv_Ok in Hrest as (b3 & [] & Hemit & Hrest).
  injection Hrest as <- <-. reflexivity.
Qed.

Lemma createSectionPagesFrom_spec repo_url basePath leaves entries :
  forall acc b b' sps,
    createSectionPagesFrom host titlePrefix repo_url basePath leaves entries acc b
    = (b', Ok sps) ->
    (exists evs, b' = addOut evs b) /\
    exists more,
      sps = acc ++ more /\
      forall name parent dir,
        (name, parent) ∈ entries ->
        hasReadme host basePath leaves name dir ->
        sectionReadme host titlePrefix repo_url basePath name parent dir ∈ more.
Proof.
  induction entries as [| entry r IH]; intros acc b b' sps Hrun.
  - injection Hrun as <- <-. split.
    + exists []. destruct b; unfold addOut; simpl; by rewrite app_nil_r.
    + exists []. split; [by rewrite app_nil_r |]. intros ? ? ? Hin. by apply elem_of_nil in Hin.
  - simpl in Hrun. apply bind_inv_Ok in Hrun as (b1 & acc1 & Hone & Hrest).
    destruct (sectionPage_grows _ _ _ _ _ _ _ _ Hone) as [[evs1 ->] [more1 ->]].
    destruct (IH _ _ _ _ Hrest) as [[evs2 ->] (more2 & -> & Hall)].
    split.
    + exists (evs1 ++ evs2). unfold addOut. simpl. by rewrite app_assoc.
    + exists (more1 ++ more2). split; [by rewrite app_assoc |].
      intros name parent dir [Heq | Hin]%elem_of_cons Hreadme.
      * subst entry. apply (sectionPage_readme _ _ _ _ _ _ _ _ _ _ Hreadme) in Hone.
        apply app_inv_head in Hone as ->. apply elem_of_app. left. left.
      * apply elem_of_app. right. eapply Hall; eassumption.
Qed.

End CreateSectionPages.

Lemma forEach_pushPage sps : forall b,
  forEach pushPage sps b = (mkBuild (pages b ++ sps) (sectionHierarchy b) (out b), Ok tt).
Proof.
  induction sps as [| p r IH]; intros b; simpl.
  - unfold ret. destruct b; simpl. by rewrite app_nil_r.
  - unfold bind, pushPage, modify. rewrite IH. simpl. by rewrite <- app_assoc.
Qed.

(** Without title prefix, a section name without surrounding white space is
    the title of its page. *)
Lemma sectionReadme_title_plain host repo_url basePath name parent dir :
  JS.trim name = name ->
  title (sectionReadme host "" repo_url basePath name parent dir) = name.
Proof. intros Htrim. simpl. exact Htrim. Qed.

(** ** C5: the page synthesized for a section *)

(** C5, amended. When [getContext] returns, its pages are the pages the
    traversal collected followed by the synthesized section pages. For every
    entry of the hierarchy, a section name with its parent section, whose
    children give a directory that holds an existing index file, the
    synthesized pages contain the page built from that file: its title is the
    section name behind the configured title prefix and a space, trimmed, and
    its [parentPath] is the parent section of the entry, not the section. *)
Theorem C5_section_page_from_readme
    (host : Host) (titlePrefix basePath : string) (nav : list navItem)
    (repo_url site_name : string) (b : Build) (ctx : Context) :
  getContext host titlePrefix basePath nav repo_url site_name = (b, Ok ctx) ->
  exists synthesized,
    ctxPages ctx = leafPages host titlePrefix repo_url basePath nav ++ synthesized /\
    forall name parent dir,
      (name, parent) ∈ ctxSectionHierarchy ctx ->
      hasReadme host basePath (leafPages host titlePrefix repo_url basePath nav) name dir ->
      sectionReadme host titlePrefix repo_url basePath name parent dir ∈ synthesized.
Proof.
  unfold getContext, getContextM, leafPages. intros Hrun.
  apply bind_inv_Ok in Hrun as (b1 & [] & Htraverse & Hrun). rewrite Htraverse. simpl.
  apply bind_inv_Ok in Hrun as (b2 & readme & Hget & Hrun).
  destruct (getPage_keeps host repo_url site_name (resolve host [basePath; README_MD]) "" b1)
    as (evs & readme' & Hget').
  rewrite Hget' in Hget. injection Hget as <- <-.
  apply bind_inv_Ok in Hrun as (b3 & pages0 & Hpages & Hrun). injection Hpages as <- <-.
  apply bind_inv_Ok in Hrun as (b4 & hierarchy & Hhier & Hrun). injection Hhier as <- <-.
  apply bind_inv_Ok in Hrun as (b5 & sps & Hcreate & Hrun).
  unfold createSectionPages in Hcreate. simpl pages in Hcreate.
  simpl sectionHierarchy in Hcreate.
  destruct (createSectionPagesFrom_spec _ _ _ _ _ _ _ _ _ _ Hcreate)
    as [[evs' ->] (more & -> & Hall)].
  apply bind_inv_Ok in Hrun as (b6 & [] & Hpush & Hrun).
  rewrite forEach_pushPage in Hpush. injection Hpush as <-.
  apply bind_inv_Ok in Hrun as (b7 & pages1 & Hpages & Hrun). injection Hpages as <- <-.
  injection Hrun as <- <-. simpl.
  exists more. split; [reflexivity |].
  intros name parent dir Hin. apply Hall. by apply Object_fromEntries_elem.
Qed.

Lemma C5_section_page_from_readme_witness :
  getContext Examples.guidesHost "Docs:" "site" Examples.guidesNav "repo" "Site"
  = (Examples.docsBuild, Ok Examples.docsContext) /\
  exists synthesized,
    ctxPages Examples.docsContext
    = leafPages Examples.guidesHost "Docs:" "repo" "site" Examples.guidesNav ++ synthesized /\
    Examples.pageAtSha "Docs: Guides" "site/docs/guides/README.md"
                       "sha1:/repo/site/docs/guides/README.md" None ∈ synthesized.
Proof.
  assert (Hctx : getContext Examples.guidesHost "Docs:" "site" Examples.guidesNav "repo" "Site"
                 = (Examples.docsBuild, Ok Examples.docsContext)).
  { vm_compute. reflexivity. }
  split; [exact Hctx |].
  destruct (C5_section_page_from_readme Examples.guidesHost "Docs:" "site"
              Examples.guidesNav "repo" "Site" _ _ Hctx) as (synthesized & Hpages & Hall).
  exists synthesized. split; [exact Hpages |].
  apply (Hall "Guides" None "guides"); [left |].
  repeat split; (reflexivity || discriminate).
Defined.

(** C5, as the specification states it, fails under a title prefix: the page
    synthesized for the section [Guides] is titled [Docs: Guides]. *)
Lemma C5_section_title_counterexample :
  ~ sectionPageTitledBySection Examples.guidesHost "Docs:" "site" Examples.guidesNav.
Proof.
  intros Hclaim.
  assert (Hctx : getContext Examples.guidesHost "Docs:" "site" Examples.guidesNav "repo" "Site"
                 = (Examples.docsBuild, Ok Examples.docsContext)).
  { vm_compute. reflexivity. }
  destruct (Hclaim _ _ "Guides" None "guides" Hctx) as (p & Hin & Htitle & _).
  - left.
  - repeat split; (reflexivity || discriminate).
  - vm_compute in Hin. apply list_elem_of_singleton in Hin. subst p. discriminate Htitle.
Qed.

(** ** C4: the directory inferred for a section *)

(** Children whose recorded paths hold no [/docs/] give no directory. *)
Lemma inferSectionDirectory_without_docs host children :
  Forall (fun c => exists p, path (meta c) = Some p /\ JS.indexOf p "/docs/" = None)
         children ->
  inferSectionDirectory host children = Returned None.
Proof.
  intros Hall.
  assert (Hmap : mapO (relativeDir host) children = Returned (replicate (length children) None)).
  { induction Hall as [| c cs (p & Hp & Hidx) _ IH]; simpl; [reflexivity |].
    unfold relativeDir at 1. rewrite Hp, Hidx, IH. reflexivity. }
  unfold inferSectionDirectory. destruct children as [| c cs]; [reflexivity |].
  rewrite Hmap. clear.
  assert (Hnone : forall n, omap id (replicate n (@None string)) = []).
  { induction n as [| n IH]; [reflexivity | exact IH]. }
  rewrite Hnone. reflexivity.
Qed.


(** C4, evaluated where the code departs from it. A child at
    [docs/guides/intro.md], the path [getPage] records for a page of the
    checkout, has no [/docs/] in its path, and no directory is inferred; so
    [getContext], run on the navigation of section 8 of the specification
    with [docs/guides/README.md] present, returns the leaf alone. And two
    children in [guides/ab] and [guides/abc] give [guides/ab], a prefix of
    the strings that is not a directory of the second child. *)
Theorem C4_inferSectionDirectory_misses_the_directory :
  inferSectionDirectory Examples.guidesHost
    [Examples.pageAt "Intro" "docs/guides/intro.md" (Some "Guides")] = Returned None /\
  inferSectionDirectory Examples.guidesHost
    [Examples.pageAt "P" "site/docs/guides/ab/p.md" (Some "Guides");
     Examples.pageAt "Q" "site/docs/guides/abc/q.md" (Some "Guides")]
  = Returned (Some "guides/ab") /\
  getContext Examples.guidesHost "" "." Examples.guidesNav "repo" "Site"
    = (Examples.rootBuild, Ok Examples.rootContext) /\
  existsSync Examples.guidesHost "/repo/docs/guides/README.md" = true /\
  ctxPages Examples.rootContext
    = [Examples.pageAtSha "Intro" "docs/guides/intro.md"
         "sha1:/repo/docs/guides/intro.md" (Some "Guides")].
Proof.
  split; [reflexivity |]. split; [reflexivity |].
  split; [vm_compute; reflexivity |]. split; reflexivity.
Qed.
(** * Properties of the syncer *)

Section HomeAndCleanup.
Context {W : Type}.
Variable confluence : Confluence W.
Variable config : Config.

(** [findParentPage] only reads the store, by title. *)
Lemma findParentPage_reads (s s1 : Run W) r :
  findParentPage confluence config s = (s1, r) ->
  world s1 = world s /\
  exists finds, trace s1 = trace s ++ finds /\ Forall isFindPage finds.
Proof.
  unfold findParentPage. destruct (parentPage config) as [[| c t] |].
  - intros [= <- <-]. split; [reflexivity |]. exists []. by rewrite app_nil_r.
  - unfold bind, findPageM.
    destruct (findPage confluence (String c t) (world s)) as [[p |] | e] eqn:Hfind;
      (intros [= <- <-]; split; [reflexivity |]; eexists [_]; split; [reflexivity |];
       repeat constructor).
  - intros [= <- <-]. split; [reflexivity |]. exists []. by rewrite app_nil_r.
Qed.

(** ** C7: a home page of another repository *)

(** C7. When the page found under the site title belongs to another
    repository than the one being synced, [syncHome] throws the repository
    conflict and [sync] ends by reporting it as the failure of the run. Up to
    there the run has only looked pages up by title: no [sync] and no delete
    was issued, and the remote store is as it was. (The lookup of the
    configured parent page, which comes first, is assumed to return.) *)
Theorem C7_home_of_another_repo_is_not_touched
    (fuel : nat) (ctx : Context) (found : RemotePage)
    (s s1 : Run W) (parentPageId : option Z) :
  findParentPage confluence config s = (s1, Ok parentPageId) ->
  findPage confluence (siteName ctx) (world s) = Returned (Some found) ->
  repo (remoteMeta found) <> ctxRepo ctx ->
  (forall p, readMe ctx = Some p -> repo (meta p) = ctxRepo ctx) ->
  exists s' finds,
    syncHome confluence config (ctxRepo ctx) (siteName ctx) (readMe ctx) s
    = (s', Throw (RepoConflict (siteName ctx) (repo (remoteMeta found)))) /\
    sync confluence config fuel (Ok ctx) s
    = (mkRun (world s)
             (trace s ++ finds
                ++ [LogFail (RepoConflict (siteName ctx) (repo (remoteMeta found)))]),
       Ok tt) /\
    isConflictError (RepoConflict (siteName ctx) (repo (remoteMeta found))) = true /\
    world s' = world s /\
    trace s' = trace s ++ finds /\
    Forall isFindPage finds.
Proof.
  intros Hparent Hfind Hrepo Hhome.
  destruct (findParentPage_reads _ _ _ Hparent) as (Hworld & finds & Htrace & Hfinds).
  assert (Hconflict : forall lp, repo (meta lp) = ctxRepo ctx ->
                                 repoConflict (setLocalPage lp found) = true).
  { intros lp Hlp. unfold repoConflict. simpl. rewrite Hlp.
    apply negb_true_iff. apply String.eqb_neq. exact Hrepo. }
  assert (Hhome' :
    syncHome confluence config (ctxRepo ctx) (siteName ctx) (readMe ctx) s
    = (mkRun (world s)
             (trace s ++ finds ++ [FindPage AtHome (siteName ctx) (Returned (Some found))]),
       Throw (RepoConflict (siteName ctx) (repo (remoteMeta found))))).
  { unfold syncHome. unfold bind at 1. rewrite Hparent.
    unfold bind at 1. unfold findPageM. rewrite Hworld, Hfind. cbn [ofOutcome].
    unfold bind at 1. rewrite Hconflict.
    2:{ destruct (readMe ctx) as [p |]; simpl; [apply Hhome; reflexivity | reflexivity]. }
    unfold throw. rewrite Htrace, <- app_assoc. reflexivity. }
  eexists _, (finds ++ [FindPage AtHome (siteName ctx) (Returned (Some found))]).
  split; [exact Hhome' |]. split.
  { unfold sync, tryCatch. unfold bind at 1. unfold liftR.
    unfold bind at 1. rewrite Hhome'. unfold errorHandler, log, modify. simpl.
    rewrite <- !app_assoc. reflexivity. }
  split; [reflexivity |]. split; [reflexivity |]. split; [reflexivity |].
  apply Forall_app. split; [exact Hfinds | repeat constructor].
Qed.

(** ** C8: cleanup without a home page *)

(** C8. When no page is found under the site title, [cleanup] looks the
    title up, logs that there is nothing to clean and returns: its trace
    holds no delete call, and the remote store is as it was. *)
Theorem C8_cleanup_without_home_deletes_nothing (ctx : Context) (s : Run W) :
  findPage confluence (siteName ctx) (world s) = Returned None ->
  cleanup confluence (Ok ctx) s
  = (mkRun (world s)
           (trace s ++ [FindPage AtCleanup (siteName ctx) (Returned None);
                        nothingToClean (siteName ctx)]),
     Ok tt).
Proof.
  intros Hfind. unfold cleanup, bind, liftR, tryCatch, findPageM, log, modify. simpl.
  rewrite Hfind. simpl. rewrite <- app_assoc. reflexivity.
Qed.

End HomeAndCleanup.

(** The site title [Site] belongs to the repository [other]: the run of the
    repository [repo] fails, and the store keeps its one page. *)
Lemma C7_home_of_another_repo_witness :
  findParentPage SpecStore.sdk Examples.noConfig (Examples.start Examples.foreignStore)
  = (Examples.start Examples.foreignStore, Ok None) /\
  SpecStore.findPage (siteName Examples.bareContext) Examples.foreignStore
  = Returned (Some Examples.foreignHome) /\
  exists finds,
    sync SpecStore.sdk Examples.noConfig 10 (Ok Examples.bareContext)
         (Examples.start Examples.foreignStore)
    = (mkRun Examples.foreignStore (finds ++ [LogFail (RepoConflict "Site" "other")]),
       Ok tt) /\
    Forall isFindPage finds.
Proof.
  split; [reflexivity |]. split; [reflexivity |].
  destruct (C7_home_of_another_repo_is_not_touched SpecStore.sdk Examples.noConfig
              10 Examples.bareContext Examples.foreignHome
              (Examples.start Examples.foreignStore) (Examples.start Examples.foreignStore)
              None eq_refl eq_refl)
    as (s' & finds & _ & Hsync & _ & _ & _ & Hfinds).
  - discriminate.
  - discriminate.
  - exists finds. split; [exact Hsync | exact Hfinds].
Defined.

(** Cleanup of the site [Site] on a store without pages. *)
Lemma C8_cleanup_without_home_witness :
  SpecStore.findPage "Site" SpecStore.empty = Returned None /\
  cleanup SpecStore.sdk (Ok Examples.rootContext) (Examples.start SpecStore.empty)
  = (mkRun SpecStore.empty [FindPage AtCleanup "Site" (Returned None); nothingToClean "Site"],
     Ok tt).
Proof.
  split; [reflexivity |].
  apply (C8_cleanup_without_home_deletes_nothing SpecStore.sdk Examples.rootContext
           (Examples.start SpecStore.empty)).
  reflexivity.
Defined.
(** ** Traces of the level-by-level walk *)

Section TraceFacts.
Variable pagesAt : option string -> list LocalPage.
Variable home : Z.

Lemma allOK_app n1 : forall h n2,
  allOK pagesAt home h n1 ->
  allOK pagesAt home (h ++ n1) n2 ->
  allOK pagesAt home h (n1 ++ n2).
Proof.
  induction n1 as [| e n1 IH]; simpl; intros h n2 H1 H2.
  - rewrite app_nil_r in H2. exact H2.
  - destruct H1 as [He H1]. split; [exact He |].
    apply IH; [exact H1 |]. rewrite <- app_assoc. exact H2.
Qed.

Lemma allOK_split a : forall h e b,
  allOK pagesAt home h (a ++ e :: b) -> eventOK pagesAt home (h ++ a) e.
Proof.
  induction a as [| x a IH]; simpl; intros h e b Hall.
  - rewrite app_nil_r. tauto.
  - destruct Hall as [_ Hall]. apply IH in Hall. rewrite <- app_assoc in Hall. exact Hall.
Qed.

Lemma parentLevelCompleted_app h x t :
  parentLevelCompleted pagesAt h t -> parentLevelCompleted pagesAt (h ++ x) t.
Proof.
  intros (k & block & before & after & p & -> & Hblock & Hp & Ht).
  exists k, block, before, (after ++ x), p.
  split; [by rewrite <- !app_assoc |]. auto.
Qed.

Lemma levelStarted_app h x k :
  levelStarted pagesAt h k -> levelStarted pagesAt (h ++ x) k.
Proof. destruct k; simpl; [apply parentLevelCompleted_app | trivial]. Qed.

Lemma completedLevels_nil : completedLevels pagesAt [].
Proof. exists []. split; [reflexivity | constructor]. Qed.

Lemma completedLevels_app n1 n2 :
  completedLevels pagesAt n1 -> completedLevels pagesAt n2 ->
  completedLevels pagesAt (n1 ++ n2).
Proof.
  intros (b1 & -> & H1) (b2 & -> & H2). exists (b1 ++ b2).
  split; [by rewrite concat_app | by apply Forall_app].
Qed.

End TraceFacts.

Section Levels.
Context {W : Type}.
Variable confluence : Confluence W.
Variable pagesByParent : gmap (option string) (list LocalPage).
Variable sectionPages : gmap string LocalPage.
Variable home : Z.

Local Abbreviation pagesAt := (levelPages pagesByParent).

Lemma replay_app h1 h2 idx : replay (h1 ++ h2) idx = replay h2 (replay h1 idx).
Proof. unfold replay. apply foldl_app. Qed.

Lemma indexAfter_sync h k u sp :
  indexAfter home (h ++ [Sync (AtLevel k) u (Returned sp)]) = record u sp (indexAfter home h).
Proof. unfold indexAfter. rewrite replay_app. reflexivity. Qed.

Lemma indexAfter_fetch h o pid r :
  indexAfter home (h ++ [GetChildPages o pid r]) = indexAfter home h.
Proof. unfold indexAfter. rewrite replay_app. reflexivity. Qed.

Lemma syncTrace_snoc k done outs u o :
  length outs = length done ->
  syncTrace k (done ++ [u]) (outs ++ [o]) = syncTrace k done outs ++ [Sync (AtLevel k) u o].
Proof. intros Hlen. unfold syncTrace. rewrite zip_with_app; [reflexivity | by symmetry]. Qed.

Lemma syncTrace_prefix k done todo : forall outs,
  length outs = length done ->
  syncTrace k (done ++ todo) outs = syncTrace k done outs.
Proof.
  induction done as [| u done IH]; intros [| o outs] Hlen; try discriminate; simpl.
  - by destruct todo.
  - unfold syncTrace in *. simpl. f_equal. apply IH. by injection Hlen.
Qed.

(** The [sync] loop of a level: each call is the next one due, and the index
    follows the calls that returned. *)
Lemma syncUnion_ok k before pid remote :
  pid = indexAfter home before !! k ->
  levelStarted pagesAt before k ->
  forall todo done outs idx s s' r,
    levelUnion pid (levelPages pagesByParent k) remote = done ++ todo ->
    length outs = length done ->
    Forall returned outs ->
    idx = indexAfter home (before ++ GetChildPages (AtLevel k) pid (Returned remote)
                                  :: syncTrace k done outs) ->
    syncUnion confluence k todo idx s = (s', r) ->
    exists outs',
      trace s' = trace s ++ syncTrace k todo outs' /\
      allOK pagesAt home
            (before ++ GetChildPages (AtLevel k) pid (Returned remote) :: syncTrace k done outs)
            (syncTrace k todo outs') /\
      (forall idx', r = Ok idx' ->
         length outs' = length todo /\ Forall returned outs' /\
         idx' = indexAfter home
                  ((before ++ GetChildPages (AtLevel k) pid (Returned remote)
                           :: syncTrace k done outs) ++ syncTrace k todo outs')).
Proof.
  intros Hpid Hstarted.
  induction todo as [| u rest IH]; intros done outs idx s s' r Hunion Hlen Houts Hidx Hrun.
  - injection Hrun as <- <-. exists []. simpl. rewrite !app_nil_r.
    split; [reflexivity |]. split; [exact I |].
    intros idx' [= <-]. split; [reflexivity |]. split; [constructor | exact Hidx].
  - simpl in Hrun. unfold bind, syncM in Hrun.
    destruct (pageSync confluence u (world s)) as [w out] eqn:Hsync.
    assert (Hev : eventOK pagesAt home
                    (before ++ GetChildPages (AtLevel k) pid (Returned remote)
                            :: syncTrace k done outs)
                    (Sync (AtLevel k) u out)).
    { split.
      - exists before, pid, remote, outs. simpl.
        split; [rewrite Hunion; by rewrite syncTrace_prefix |].
        split; [exact Houts |]. split; [| exact Hpid].
        rewrite Hunion, Hlen. apply list_lookup_middle. reflexivity.
      - apply levelStarted_app. exact Hstarted. }
    destruct out as [sp | e].
    + specialize (IH (done ++ [u]) (outs ++ [Returned sp]) (record u sp idx)
                     (mkRun w (trace s ++ [Sync (AtLevel k) u (Returned sp)])) s' r).
      rewrite syncTrace_snoc in IH by exact Hlen.
      change (before ++ ?f :: (?x ++ [?e])) with (before ++ (f :: x) ++ [e]) in IH.
      rewrite app_assoc in IH.
      destruct IH as (outs' & Htrace & Hall & Hok).
      * rewrite Hunion. by rewrite <- app_assoc.
      * rewrite !length_app. simpl. lia.
      * apply Forall_app. split; [exact Houts | repeat constructor].
      * rewrite indexAfter_sync. by rewrite Hidx.
      * exact Hrun.
      * exists (Returned sp :: outs'). simpl in Htrace. simpl.
        split; [rewrite Htrace; by rewrite <- app_assoc |].
        split; [split; [exact Hev | exact Hall] |].
        intros idx' Hr. destruct (Hok idx' Hr) as (Hl & Hf & Hi).
        split; [simpl; by rewrite Hl |]. split; [constructor; [exact I | exact Hf] |].
        rewrite Hi. f_equal. by rewrite <- !app_assoc.
    + injection Hrun as <- <-. exists [Threw e]. unfold syncTrace. simpl.
      rewrite zip_with_nil_r. split; [reflexivity |].
      split; [split; [exact Hev | exact I] |]. intros ? [=].
Qed.

Lemma processSections_ok
    (recur : option string -> gmap (option string) Z -> M (Run W) (gmap (option string) Z)) :
  levelSpec pagesAt home recur ->
  forall todo idx s s' r h,
    (forall p, p ∈ todo -> parentLevelCompleted pagesAt h (title p)) ->
    idx = indexAfter home h ->
    processSections sectionPages recur todo idx s = (s', r) ->
    exists new,
      trace s' = trace s ++ new /\
      allOK pagesAt home h new /\
      forall idx', r = Ok idx' ->
        idx' = indexAfter home (h ++ new) /\ completedLevels pagesAt new.
Proof.
  intros Hrecur.
  induction todo as [| p rest IH]; intros idx s s' r h Hdone Hidx Hrun.
  - injection Hrun as <- <-. exists []. rewrite !app_nil_r.
    split; [reflexivity |]. split; [exact I |]. intros idx' [= <-].
    split; [exact Hidx | apply completedLevels_nil].
  - simpl in Hrun. destruct (sectionPages !! title p) as [child |].
    + unfold bind in Hrun.
      destruct (recur (Some (title p)) idx s) as [s1 r1] eqn:Hchild.
      destruct (Hrecur (Some (title p)) _ _ _ _ h (Hdone p ltac:(left)) Hidx Hchild)
        as (new1 & Htrace1 & Hall1 & Hidx1).
      destruct r1 as [idx1 | e |].
      * destruct (IH idx1 s1 s' r (h ++ new1)) as (new2 & Htrace2 & Hall2 & Hidx2).
        -- intros q Hq. apply parentLevelCompleted_app. apply Hdone. by right.
        -- by apply Hidx1.
        -- exact Hrun.
        -- exists (new1 ++ new2). split; [rewrite Htrace2, Htrace1; by rewrite app_assoc |].
           split; [by apply allOK_app |].
           intros idx' Hr. rewrite app_assoc. destruct (Hidx2 idx' Hr) as [Hi Hc].
           split; [exact Hi |]. apply completedLevels_app; [| exact Hc].
           by apply (Hidx1 idx1).
      * injection Hrun as <- <-. exists new1. split; [exact Htrace1 |].
        split; [exact Hall1 |]. intros ? [=].
      * injection Hrun as <- <-. exists new1. split; [exact Htrace1 |].
        split; [exact Hall1 |]. intros ? [=].
    + apply (IH idx s s' r h); [| exact Hidx | exact Hrun].
      intros q Hq. apply Hdone. by right.
Qed.

Lemma processLevel_ok fuel :
  levelSpec pagesAt home (processLevel confluence pagesByParent sectionPages fuel).
Proof.
  induction fuel as [| fuel IH]; intros k idx s s' r h Hstarted Hidx Hrun.
  - injection Hrun as <- <-. exists []. rewrite app_nil_r.
    split; [reflexivity |]. split; [exact I |]. intros ? [=].
  - simpl in Hrun. unfold bind at 1 in Hrun. unfold getChildPagesM in Hrun.
    set (pid := idx !! k) in *.
    set (fetched := getChildPages confluence pid (world s)) in *.
    set (fetch := GetChildPages (AtLevel k) pid fetched) in *.
    assert (Hfetch : eventOK pagesAt home h fetch).
    { split; [unfold pid; by rewrite Hidx | exact Hstarted]. }
    destruct fetched as [remote | e] eqn:Hfetched; cbn [ofOutcome] in Hrun.
    + unfold bind at 1 in Hrun.
      destruct (syncUnion confluence k
                  (levelUnion pid (default [] (pagesByParent !! k)) remote) idx
                  (mkRun (world s) (trace s ++ [fetch]))) as [s1 r1] eqn:Hsync.
      destruct (syncUnion_ok k h pid remote ltac:(unfold pid; by rewrite Hidx) Hstarted
                  _ [] [] idx _ s1 r1 eq_refl eq_refl ltac:(constructor)
                  ltac:(simpl; rewrite indexAfter_fetch; exact Hidx) Hsync)
        as (outs & Htrace1 & Hall1 & Hok1).
      simpl in Htrace1, Hall1, Hok1.
      destruct r1 as [idx1 | e |].
      * destruct (Hok1 idx1 eq_refl) as (Hlen & Hret & Hidx1).
        assert (Hdone : forall p, p ∈ levelPages pagesByParent k ->
                  parentLevelCompleted pagesAt
                    ((h ++ [fetch]) ++ syncTrace k
                       (levelUnion pid (levelPages pagesByParent k) remote) outs)
                    (title p)).
        { intros p Hp. exists k, (fetch :: syncTrace k
                       (levelUnion pid (levelPages pagesByParent k) remote) outs),
            h, [], p.
          split; [rewrite app_nil_r; by rewrite <- app_assoc |].
          split; [| split; [exact Hp | reflexivity]].
          exists pid, remote, outs. simpl. split; [reflexivity |].
          split; [exact Hlen | exact Hret]. }
        destruct (processSections_ok _ IH _ _ _ _ _ _ Hdone Hidx1 Hrun)
          as (new2 & Htrace2 & Hall2 & Hidx2).
        exists (fetch :: syncTrace k (levelUnion pid (levelPages pagesByParent k) remote) outs
                  ++ new2).
        split.
        { rewrite Htrace2, Htrace1. rewrite <- !app_assoc. reflexivity. }
        split.
        { split; [exact Hfetch |]. apply allOK_app; [exact Hall1 | exact Hall2]. }
        intros idx' Hr. destruct (Hidx2 idx' Hr) as [Hi Hc]. split.
        { rewrite Hi. f_equal. rewrite <- !app_assoc. reflexivity. }
        change (fetch :: ?x ++ new2) with ((fetch :: x) ++ new2).
        apply completedLevels_app; [| exact Hc].
        exists [fetch :: syncTrace k (levelUnion pid (levelPages pagesByParent k) remote) outs].
        split; [simpl; by rewrite app_nil_r |]. repeat constructor.
        exists k, pid, remote, outs. simpl. split; [reflexivity |].
        split; [exact Hlen | exact Hret].
      * injection Hrun as <- <-.
        exists (fetch :: syncTrace k (levelUnion pid (levelPages pagesByParent k) remote) outs).
        split; [rewrite Htrace1; by rewrite <- app_assoc |].
        split; [split; [exact Hfetch | exact Hall1] |]. intros ? [=].
      * injection Hrun as <- <-.
        exists (fetch :: syncTrace k (levelUnion pid (levelPages pagesByParent k) remote) outs).
        split; [rewrite Htrace1; by rewrite <- app_assoc |].
        split; [split; [exact Hfetch | exact Hall1] |]. intros ? [=].
    + injection Hrun as <- <-. exists [fetch]. split; [reflexivity |].
      split; [split; [exact Hfetch | exact I] |]. intros ? [=].
Qed.

End Levels.
(** ** The grouping of the local pages *)

Lemma group_level acc p k :
  levelPages (group acc p).1 k
  = levelPages acc.1 k ++ (if decide (parentKeyOf p = k) then [p] else []).
Proof.
  destruct acc as [pbp sp]. unfold group, levelPages. simpl.
  set (kp := parentKeyOf p).
  destruct (decide (kp = k)) as [<- | Hne].
  - destruct (pbp !! kp) as [l |] eqn:Hl; simpl.
    + rewrite lookup_insert_eq. simpl. by rewrite Hl.
    + rewrite lookup_insert_eq. simpl. by rewrite lookup_insert_eq.
  - destruct (pbp !! kp) as [l |] eqn:Hl; simpl.
    + rewrite lookup_insert_ne by exact Hne. by rewrite app_nil_r.
    + rewrite !lookup_insert_ne by exact Hne. by rewrite app_nil_r.
Qed.

Lemma foldl_group_level l : forall acc k,
  levelPages (foldl group acc l).1 k = levelPages acc.1 k ++ pagesOfLevel l k.
Proof.
  induction l as [| p l IH]; intros acc k; simpl.
  - by rewrite app_nil_r.
  - rewrite IH, group_level, <- app_assoc. f_equal.
    unfold pagesOfLevel. rewrite filter_cons. by destruct (decide _).
Qed.

(** [pagesByParent] holds, under each key, the local pages of that level in
    the order of [localPages]. *)
Lemma groupPages_level localPages k :
  levelPages (groupPages localPages).1 k = pagesOfLevel localPages k.
Proof. unfold groupPages. by rewrite foldl_group_level. Qed.

(** ** The union of a level *)

Lemma Map_get_elem {V} (k : string) (m : list (string * V)) v :
  Map_get k m = Some v -> (k, v) ∈ m.
Proof.
  induction m as [| [k' v'] m IH]; simpl; [discriminate |].
  case_decide as Hk.
  - intros [= <-]. subst k'. left.
  - intros Hget. right. by apply IH.
Qed.

Lemma Map_get_None_filter {V} (k : string) (m : list (string * V)) :
  Map_get k m = None -> filter (fun kv => kv.1 <> k) m = m.
Proof.
  induction m as [| [k' v'] m IH]; simpl; [reflexivity |].
  case_decide as Hk; [discriminate |].
  intros Hget. rewrite filter_cons. simpl. rewrite decide_True by exact Hk.
  f_equal. by apply IH.
Qed.

Lemma Map_delete_filter {V} (k : string) (m : list (string * V)) :
  Map_delete k m = filter (fun kv => kv.1 <> k) m.
Proof.
  induction m as [| [k' v'] m IH]; simpl; [reflexivity |].
  rewrite filter_cons. simpl. case_decide as Hk.
  - rewrite decide_False by (intros Hne; by apply Hne). exact IH.
  - rewrite decide_True by exact Hk. by rewrite IH.
Qed.

Lemma isPairOf_mono pid remote remote' lp u :
  (forall kr, kr ∈ remote' -> kr ∈ remote) ->
  isPairOf pid remote' lp u -> isPairOf pid remote lp u.
Proof.
  intros Hsub [-> | (k & r & Hpath & Hin & ->)]; [by left | right].
  exists k, r. auto.
Qed.

Lemma filter_all {A} (P : A -> Prop) `{forall x, Decision (P x)} (l : list A) :
  (forall x, P x) -> filter P l = l.
Proof.
  intros HP. induction l as [| x l IH]; [reflexivity |].
  rewrite filter_cons_True by apply HP. by f_equal.
Qed.

Lemma filter_unmatched_cons {V} (lp : LocalPage) (pages : list LocalPage)
    (remote : list (string * V)) :
  filter (fun kr => Some kr.1 ∉ (fun p => path (meta p)) <$> (lp :: pages)) remote
  = filter (fun kr => Some kr.1 ∉ (fun p => path (meta p)) <$> pages)
           (filter (fun kr => Some kr.1 <> path (meta lp)) remote).
Proof.
  rewrite list_filter_filter. apply list_filter_iff. intros kr. simpl.
  rewrite not_elem_of_cons. tauto.
Qed.

Lemma pairPages_shape pid pages : forall remote union remaining union',
  pairPages pid pages remote union = (remaining, union') ->
  exists matched,
    union' = union ++ matched /\
    Forall2 (isPairOf pid remote) pages matched /\
    remaining = filter (fun kr => Some kr.1 ∉ (fun p => path (meta p)) <$> pages) remote.
Proof.
  induction pages as [| lp pages IH]; intros remote union remaining union' Hpair.
  - injection Hpair as <- <-. exists []. rewrite app_nil_r.
    split; [reflexivity |]. split; [constructor |].
    symmetry. apply filter_all. intros kr. apply not_elem_of_nil.
  - simpl in Hpair. rewrite filter_unmatched_cons.
    destruct (path (meta lp)) as [k |] eqn:Hpath; simpl in Hpair.
    + destruct (Map_get k remote) as [r |] eqn:Hget.
      * apply IH in Hpair as (matched & -> & Hall & ->).
        eexists (_ :: matched). split; [by rewrite <- app_assoc |]. split.
        -- constructor.
           ++ right. exists k, r. split; [exact Hpath |].
              split; [by apply Map_get_elem | reflexivity].
           ++ eapply Forall2_impl; [exact Hall |]. intros x y. apply isPairOf_mono.
              intros kr. rewrite Map_delete_filter, list_elem_of_filter. tauto.
        -- rewrite Map_delete_filter. f_equal. apply list_filter_iff.
           intros kr. split; congruence.
      * apply IH in Hpair as (matched & -> & Hall & ->).
        eexists (_ :: matched). split; [by rewrite <- app_assoc |]. split.
        -- constructor; [by left | exact Hall].
        -- f_equal. rewrite <- (Map_get_None_filter k remote Hget) at 1.
           apply list_filter_iff.
           intros kr. split; congruence.
    + apply IH in Hpair as (matched & -> & Hall & ->).
      eexists (_ :: matched). split; [by rewrite <- app_assoc |]. split.
      * constructor; [by left | exact Hall].
      * f_equal. symmetry. apply filter_all. intros kr. discriminate.
Qed.

(** The union of a level is its local pages in their order, each alone or
    attached to the remote child of its path, followed by the remote children
    that no local page matched. *)
Lemma levelUnion_shape pid pages remote :
  exists matched,
    levelUnion pid pages remote = matched ++ (Remote <$> unmatched pages remote) /\
    Forall2 (isPairOf pid remote) pages matched.
Proof.
  unfold levelUnion, unmatched.
  destruct (pairPages pid pages remote []) as [remaining union] eqn:Hpair.
  apply pairPages_shape in Hpair as (matched & -> & Hall & ->).
  exists matched. split; [reflexivity | exact Hall].
Qed.

Lemma isPairOf_localOf pid remote lp u :
  isPairOf pid remote lp u -> localOf u = Some (setParentPageId pid lp).
Proof. intros [-> | (k & r & _ & _ & ->)]; reflexivity. Qed.

(** ** The index after a trace *)

Lemma record_root u sp idx : record u sp idx !! None = idx !! None.
Proof.
  unfold record. destruct sp as [sp |]; [| reflexivity].
  destruct (_ && _); [| reflexivity]. by rewrite lookup_insert_ne.
Qed.

Lemma replay_snoc h e idx :
  replay (h ++ [e]) idx
  = match e with
    | Sync (AtLevel _) u (Returned sp) => record u sp (replay h idx)
    | _ => replay h idx
    end.
Proof. unfold replay. rewrite foldl_app. reflexivity. Qed.

Lemma replay_root h idx : replay h idx !! None = idx !! None.
Proof.
  induction h as [| e h IH] using rev_ind; [reflexivity |].
  rewrite replay_snoc. destruct e as [| | [] ? [] | | | | | |]; try exact IH.
  by rewrite record_root.
Qed.

Lemma lastRecorded_snoc t h e :
  lastRecorded t (h ++ [e])
  = match recordsUnder t e with
    | Some i => Some i
    | None => lastRecorded t h
    end.
Proof.
  unfold lastRecorded. rewrite omap_app. simpl.
  destruct (recordsUnder t e) as [i |]; simpl.
  - apply last_snoc.
  - by rewrite app_nil_r.
Qed.

Lemma replay_title h idx t :
  replay h idx !! Some t
  = match lastRecorded t h with
    | Some i => Some i
    | None => idx !! Some t
    end.
Proof.
  induction h as [| e h IH] using rev_ind; [reflexivity |].
  rewrite replay_snoc, lastRecorded_snoc.
  destruct e as [| | o u out | | | | | |]; try (simpl; exact IH).
  destruct o as [| k |]; try (simpl; exact IH).
  destruct out as [[sp |] |]; try (simpl; exact IH).
  unfold record, recordsUnder.
  destruct (JS.truthy (Some (pageTitle u)) && negb (remoteId sp =? 0)) eqn:Hguard; simpl;
    [| exact IH].
  destruct (String.eqb_spec (pageTitle u) t) as [-> | Hne].
  - by rewrite lookup_insert_eq.
  - rewrite lookup_insert_ne by congruence. exact IH.
Qed.

(** The index holds the home id under the no-parent key, and under a title
    the id most recently recorded for it. *)
Lemma indexAfter_lookup home h k : indexAfter home h !! k = recordedFor home h k.
Proof.
  unfold indexAfter. destruct k as [t |]; simpl.
  - rewrite replay_title. destruct (lastRecorded t h); [reflexivity |].
    by rewrite lookup_singleton_ne.
  - rewrite replay_root. by rewrite lookup_singleton_eq.
Qed.



(** ** The run of [syncPages] *)

Section SamePages.
Variables f g : option string -> list LocalPage.
Hypothesis Hfg : forall k, f k = g k.

Lemma completedLevel_same k block : completedLevel f k block -> completedLevel g k block.
Proof. unfold completedLevel. rewrite Hfg. trivial. Qed.

Lemma parentLevelCompleted_same h t :
  parentLevelCompleted f h t -> parentLevelCompleted g h t.
Proof.
  intros (k & block & before & after & p & Hh & Hblock & Hp & Ht).
  exists k, block, before, after, p. rewrite <- Hfg.
  split; [exact Hh |]. split; [by apply completedLevel_same | by split].
Qed.

Lemma eventOK_same home h e : eventOK f home h e -> eventOK g home h e.
Proof.
  assert (Hstarted : forall k, levelStarted f h k -> levelStarted g h k).
  { intros [t |]; simpl; [apply parentLevelCompleted_same | trivial]. }
  destruct e as [| [] | [] | | | | | |]; simpl; try tauto.
  - intros [Hpid Hs]. split; [exact Hpid | by apply Hstarted].
  - intros [Hnext Hs]. split; [| by apply Hstarted].
    unfold nextInLevel in *. rewrite <- Hfg. exact Hnext.
Qed.

Lemma allOK_same home new : forall h, allOK f home h new -> allOK g home h new.
Proof.
  induction new as [| e new IH]; simpl; intros h; [trivial |].
  intros [He Hall]. split; [by apply eventOK_same | by apply IH].
Qed.

Lemma completedLevels_same h : completedLevels f h -> completedLevels g h.
Proof.
  intros (blocks & -> & Hall). exists blocks. split; [reflexivity |].
  eapply Forall_impl; [exact Hall |]. intros block [k Hk]. exists k.
  by apply completedLevel_same.
Qed.

End SamePages.

(** Every call of a run of [syncPages] is in order, and a run that returns
    is made of completed levels. *)
Lemma syncPages_trace {W} (confluence : Confluence W) fuel home localPages s s' r :
  syncPages confluence fuel home localPages s = (s', r) ->
  exists new,
    trace s' = trace s ++ new /\
    allOK (pagesOfLevel localPages) home [] new /\
    (r = Ok tt -> completedLevels (pagesOfLevel localPages) new).
Proof.
  unfold syncPages.
  pose proof (groupPages_level localPages) as Hlevel.
  destruct (groupPages localPages) as [pagesByParent sectionPages]. simpl in Hlevel.
  unfold bind.
  destruct (processLevel confluence pagesByParent sectionPages fuel None {[None := home]} s)
    as [s1 r1] eqn:Hrun.
  destruct (processLevel_ok confluence pagesByParent sectionPages home fuel
              None _ _ _ _ [] I eq_refl Hrun) as (new & Htrace & Hall & Hok).
  intros Hret. exists new.
  assert (Hs : s' = s1) by (destruct r1; by injection Hret). subst s'.
  split; [exact Htrace |].
  split; [eapply allOK_same; [exact Hlevel | exact Hall] |].
  intros ->. destruct r1 as [idx | |]; try discriminate.
  eapply completedLevels_same; [exact Hlevel |]. by apply (Hok idx).
Qed.

(** ** The first call of a level, and the calls after a fetch *)

Section FirstCall.
Context {W : Type}.
Variable confluence : Confluence W.
Variable pagesByParent : gmap (option string) (list LocalPage).
Variable sectionPages : gmap string LocalPage.

Lemma syncUnion_appends k union : forall idx (s s' : Run W) r,
  syncUnion confluence k union idx s = (s', r) ->
  exists new, trace s' = trace s ++ new.
Proof.
  induction union as [| u rest IH]; intros idx s s' r Hrun.
  - injection Hrun as <- <-. exists []. by rewrite app_nil_r.
  - simpl in Hrun. unfold bind, syncM in Hrun.
    destruct (pageSync confluence u (world s)) as [w [sp | e]].
    + destruct (IH _ _ _ _ Hrun) as (new & ->). simpl.
      eexists. by rewrite <- app_assoc.
    + injection Hrun as <- <-. simpl. eauto.
Qed.

Lemma processSections_appends
    (recur : option string -> gmap (option string) Z -> M (Run W) (gmap (option string) Z)) :
  (forall k idx s s' r, recur k idx s = (s', r) -> exists new, trace s' = trace s ++ new) ->
  forall todo idx s s' r,
    processSections sectionPages recur todo idx s = (s', r) ->
    exists new, trace s' = trace s ++ new.
Proof.
  intros Hrecur. induction todo as [| p rest IH]; intros idx s s' r Hrun.
  - injection Hrun as <- <-. exists []. by rewrite app_nil_r.
  - simpl in Hrun. destruct (sectionPages !! title p); [| by eapply IH].
    unfold bind in Hrun. destruct (recur (Some (title p)) idx s) as [s1 r1] eqn:Hchild.
    destruct (Hrecur _ _ _ _ _ Hchild) as (new1 & Htrace1).
    destruct r1 as [idx1 | e |].
    + destruct (IH _ _ _ _ Hrun) as (new2 & ->). rewrite Htrace1.
      eexists. by rewrite <- app_assoc.
    + injection Hrun as <- <-. eauto.
    + injection Hrun as <- <-. eauto.
Qed.

(** A level that is entered starts with the fetch of its remote children,
    made with the id the index holds under its key. *)
Lemma processLevel_appends fuel : forall k idx s s' r,
  processLevel confluence pagesByParent sectionPages fuel k idx s = (s', r) ->
  exists new : list event,
    trace s' = trace s ++ new /\
    (fuel <> O ->
     exists out rest, new = GetChildPages (AtLevel k) (idx !! k) out :: rest).
Proof.
  induction fuel as [| fuel IH]; intros k idx s s' r Hrun.
  - injection Hrun as <- <-. exists []. rewrite app_nil_r. by split.
  - simpl in Hrun. unfold bind at 1 in Hrun. unfold getChildPagesM in Hrun.
    destruct (getChildPages confluence (idx !! k) (world s)) as [remote | e];
      cbn [ofOutcome] in Hrun.
    2:{ injection Hrun as <- <-. simpl. eexists. split; [reflexivity | eauto]. }
    unfold bind at 1 in Hrun.
    destruct (syncUnion confluence k _ idx _) as [s1 r1] eqn:Hsync.
    destruct (syncUnion_appends _ _ _ _ _ _ Hsync) as (new1 & Htrace1). simpl in Htrace1.
    assert (Hdone : exists new, trace s' = trace s1 ++ new).
    { destruct r1 as [idx1 | e |].
      - eapply processSections_appends; [| exact Hrun].
        intros k' idx' t t' r' Hchild. destruct (IH _ _ _ _ _ Hchild) as (new & Hnew & _).
        eauto.
      - injection Hrun as <- <-. exists []. by rewrite app_nil_r.
      - injection Hrun as <- <-. exists []. by rewrite app_nil_r. }
    destruct Hdone as (new2 & ->). rewrite Htrace1.
    eexists. split; [rewrite <- !app_assoc; reflexivity |]. simpl. eauto.
Qed.

End FirstCall.

(** A run of [syncPages] within the recursion budget starts with the fetch
    of the children of the home page. *)
Lemma syncPages_starts {W} (confluence : Confluence W) fuel home localPages s s' r :
  syncPages confluence fuel home localPages s = (s', r) ->
  r <> OutOfFuel ->
  exists out rest,
    trace s' = trace s ++ GetChildPages (AtLevel None) (Some home) out :: rest.
Proof.
  unfold syncPages. destruct (groupPages localPages) as [pagesByParent sectionPages].
  unfold bind.
  destruct (processLevel confluence pagesByParent sectionPages fuel None {[None := home]} s)
    as [s1 r1] eqn:Hrun.
  destruct (processLevel_appends confluence pagesByParent sectionPages fuel _ _ _ _ _ Hrun)
    as (new & Htrace & Hfirst).
  intros Hret Hfuel.
  assert (Hs : s' = s1) by (destruct r1; by injection Hret). subst s'.
  destruct fuel as [| fuel].
  { injection Hrun as <- <-. by injection Hret as <-. }
  destruct (Hfirst ltac:(discriminate)) as (out & rest & ->).
  rewrite lookup_singleton_eq in Htrace. eauto.
Qed.

Lemma syncTrace_no_fetch k union outs o pid out :
  GetChildPages o pid out ∉ syncTrace k union outs.
Proof.
  unfold syncTrace. intros [i Hi]%list_elem_of_lookup.
  apply lookup_zip_with_Some in Hi as (u & x & Heq & _). discriminate Heq.
Qed.

Lemma app_eq_split {A} (a b l1 l2 : list A) x :
  l1 ++ x :: l2 = a ++ b -> x ∉ a ->
  exists l1', l1 = a ++ l1' /\ b = l1' ++ x :: l2.
Proof.
  revert l1. induction a as [| y a IH]; intros l1 Heq Hx.
  - exists l1. by split.
  - destruct l1 as [| z l1]; simpl in Heq.
    + injection Heq as -> _. exfalso. apply Hx. left.
    + injection Heq as -> Heq. destruct (IH l1 Heq) as (l1' & -> & ->).
      { intros Hin. apply Hx. by right. }
      exists l1'. by split.
Qed.

(** In a trace made of completed levels, every fetch is followed by the
    [sync] calls of the whole union of its level, each of them returned. *)
Lemma completedLevels_at pagesAt new h k pid out post :
  completedLevels pagesAt new ->
  new = h ++ GetChildPages (AtLevel k) pid out :: post ->
  exists remote outs after,
    out = Returned remote /\
    post = syncTrace k (levelUnion pid (pagesAt k) remote) outs ++ after /\
    length outs = length (levelUnion pid (pagesAt k) remote) /\
    Forall returned outs.
Proof.
  intros (blocks & -> & Hblocks). revert h.
  induction Hblocks as [| block blocks [kb Hblock] _ IH]; intros h Heq; simpl in Heq.
  { by destruct h. }
  destruct Hblock as (pidb & remote & outs & -> & Hlen & Hret).
  destruct h as [| e h]; simpl in Heq.
  - injection Heq as <- <- <- <-. exists remote, outs, (concat blocks). auto.
  - injection Heq as _ Heq. symmetry in Heq.
    apply app_eq_split in Heq as (h' & _ & Hrest); [| apply syncTrace_no_fetch].
    by apply (IH h').
Qed.

(** ** C3: a level starts after the level of its parent *)


(** ** C10: the order of the calls within a level *)

(** C10. A run of [syncPages] within the recursion budget starts with the
    fetch of the remote children of the home page. A sync of a level comes
    right after the fetch of that level and the syncs, each returned, of the
    pages of the union before it, and it is the sync of the next page of the
    union. The union is the local pages of the level in their order, each one
    alone (to be created) or attached to the remote child fetched under its
    path (to be updated), followed by the remote children that no local page
    matched. In a run that returns, every fetch of a level is followed by the
    syncs of the whole union of the level, one call for each of its pages in
    that order, every one returned, before any call of another level: the
    run is made of completed levels, one after the other, the first of them
    the root level. *)
Theorem C10_level_syncs_in_union_order
    {W} (confluence : Confluence W) (fuel : nat) (home : Z)
    (localPages : list LocalPage) (s s' : Run W) (r : result unit) :
  syncPages confluence fuel home localPages s = (s', r) ->
  exists new,
    trace s' = trace s ++ new /\
    (r <> OutOfFuel ->
     exists out rest, new = GetChildPages (AtLevel None) (Some home) out :: rest) /\
    (forall h k u out post,
       new = h ++ Sync (AtLevel k) u out :: post ->
       exists before parentPageId remotePages outcomes matched,
         let pages := pagesOfLevel localPages k in
         let union := levelUnion parentPageId pages remotePages in
         h = before ++ GetChildPages (AtLevel k) parentPageId (Returned remotePages)
                    :: syncTrace k union outcomes /\
         Forall returned outcomes /\
         union !! length outcomes = Some u /\
         union = matched ++ (Remote <$> unmatched pages remotePages) /\
         Forall2 (isPairOf parentPageId remotePages) pages matched) /\
    (r = Ok tt ->
     completedLevels (pagesOfLevel localPages) new /\
     forall h k parentPageId out post,
       new = h ++ GetChildPages (AtLevel k) parentPageId out :: post ->
       exists remotePages outcomes matched after,
         let pages := pagesOfLevel localPages k in
         let union := levelUnion parentPageId pages remotePages in
         out = Returned remotePages /\
         post = syncTrace k union outcomes ++ after /\
         length outcomes = length union /\
         Forall returned outcomes /\
         union = matched ++ (Remote <$> unmatched pages remotePages) /\
         Forall2 (isPairOf parentPageId remotePages) pages matched).
Proof.
  intros Hrun. destruct (syncPages_trace _ _ _ _ _ _ _ Hrun) as (new & Htrace & Hall & Hok).
  exists new. split; [exact Htrace |]. split; [| split].
  - intros Hfuel. destruct (syncPages_starts _ _ _ _ _ _ _ Hrun Hfuel) as (out & rest & Hstart).
    rewrite Htrace in Hstart. apply app_inv_head in Hstart. eauto.
  - intros h k u out post ->. apply allOK_split in Hall. simpl in Hall.
    destruct Hall as [(before & pid & remote & outs & Hh & Hret & Hu & _) _].
    destruct (levelUnion_shape pid (pagesOfLevel localPages k) remote)
      as (matched & Hshape & Hpairs).
    exists before, pid, remote, outs, matched. simpl. auto.
  - intros Hr. specialize (Hok Hr). split; [exact Hok |].
    intros h k pid out post Hnew.
    destruct (completedLevels_at _ _ _ _ _ _ _ Hok Hnew)
      as (remote & outs & after & -> & -> & Hlen & Hret).
    destruct (levelUnion_shape pid (pagesOfLevel localPages k) remote)
      as (matched & Hshape & Hpairs).
    exists remote, outs, matched, after. simpl. split_and!; auto.
Qed.

(** ** C1: the parent id of a level *)



(** The pages of the second example come from a navigation: a page [X] at
    the root, and a section [A] that holds the section [X]. *)
Lemma nestedPages_from_nav :
  getContext Examples.nestedHost "" "site" Examples.nestedNav "repo" "Site"
  = (Examples.nestedBuild, Ok Examples.nestedContext) /\
  syncPages SpecStore.sdk 10 7 Examples.nestedPages (Examples.start SpecStore.empty)
  = Examples.nestedRun /\
  ctxPages Examples.nestedContext = Examples.nestedPages /\
  ctxSectionHierarchy Examples.nestedContext = [("A", None); ("X", Some "A")] /\
  (fun p => (title p, path (meta p), parentPath p)) <$> Examples.nestedPages
  = [("X", Some "site/docs/x.md", None);
     ("Y", Some "site/docs/a/y.md", Some "A");
     ("C", Some "site/docs/a/x/c.md", Some "X");
     ("A", Some "site/docs/a/README.md", None);
     ("X", Some "site/docs/a/x/README.md", Some "A")].
Proof.
  split; [vm_compute; reflexivity |]. split; [vm_compute; reflexivity |].
  split; [| split]; reflexivity.
Qed.


(** The run on [sameTitlePages] returns: it starts with the fetch of the
    children of the home page, followed by the syncs of the two pages of the
    root level, both returned. *)
Lemma C10_level_syncs_in_union_order_witness :
  syncPages SpecStore.sdk 10 7 Examples.sameTitlePages (Examples.start SpecStore.empty)
  = Examples.sameTitleRun /\
  completedLevels (pagesOfLevel Examples.sameTitlePages) (trace Examples.sameTitleRun.1) /\
  exists outcomes after,
    trace Examples.sameTitleRun.1
    = GetChildPages (AtLevel None) (Some 7) (Returned [])
        :: syncTrace None
             (levelUnion (Some 7) (pagesOfLevel Examples.sameTitlePages None) [])
             outcomes ++ after /\
    length (pagesOfLevel Examples.sameTitlePages None) = 2%nat /\
    length outcomes = 2%nat /\ Forall returned outcomes.
Proof.
  assert (Hrun : syncPages SpecStore.sdk 10 7 Examples.sameTitlePages
                   (Examples.start SpecStore.empty)
                 = (Examples.sameTitleRun.1, Ok tt))
    by (vm_compute; reflexivity).
  split; [vm_compute; reflexivity |].
  destruct (C10_level_syncs_in_union_order _ _ _ _ _ _ _ Hrun)
    as (new & Htrace & _ & _ & Hdone).
  simpl app in Htrace. subst new. destruct (Hdone eq_refl) as [Hlevels Hfetch].
  split; [exact Hlevels |].
  destruct (Hfetch [] None (Some 7) (Returned []) (drop 1 (trace Examples.sameTitleRun.1))
              eq_refl)
    as (remote & outs & matched & after & Hout & Hpost & Hlen & Hret & _).
  injection Hout as <-. exists outs, after.
  split; [change (trace Examples.sameTitleRun.1)
            with (GetChildPages (AtLevel None) (Some 7) (Returned [])
                    :: drop 1 (trace Examples.sameTitleRun.1)) at 1;
          by rewrite Hpost |].
  split; [reflexivity |]. split; [exact Hlen | exact Hret].
Defined.

(** The pages of the example come from a navigation: two sections, and a
    page in the first that bears the name of the second. *)
Lemma sameTitlePages_from_nav :
  getContext Examples.sameTitleHost "" "site" Examples.sameTitleNav "repo" "Site"
  = (Examples.sameTitleBuild, Ok Examples.sameTitleContext) /\
  ctxPages Examples.sameTitleContext = Examples.sameTitlePages /\
  (fun p => (title p, path (meta p), parentPath p)) <$> Examples.sameTitlePages
  = [("B", Some "site/docs/a/b.md", Some "A");
     ("C", Some "site/docs/b/c.md", Some "B");
     ("A", Some "site/docs/a/README.md", None);
     ("B", Some "site/docs/b/README.md", None)].
Proof. split; [vm_compute; reflexivity |]. split; reflexivity. Qed.



(** ** C2: the children of a section without page *)

(** C2, as the code has it. In every run of [syncPages], a level keyed by a
    title is entered only from a local page that bears the title: when no
    local page is titled after a section, no call is made at the level of
    that section, neither the fetch of its remote children nor the sync of
    any of its pages. *)
Theorem C2_pageless_section_is_never_entered
    {W} (confluence : Confluence W) (fuel : nat) (home : Z)
    (localPages : list LocalPage) (s s' : Run W) (r : result unit) (t : string) :
  syncPages confluence fuel home localPages s = (s', r) ->
  (forall p, p ∈ localPages -> title p <> t) ->
  exists new,
    trace s' = trace s ++ new /\
    forall e, e ∈ new -> levelOf e <> Some (Some t).
Proof.
  intros Hrun Hnone.
  destruct (syncPages_trace _ _ _ _ _ _ _ Hrun) as (new & Htrace & Hall & _).
  exists new. split; [exact Htrace |].
  intros e (h & post & ->)%list_elem_of_split Hlevel.
  apply allOK_split in Hall. simpl in Hall.
  assert (Hdone : parentLevelCompleted (pagesOfLevel localPages) h t).
  { destruct e as [| [] | [] | | | | | |]; simpl in Hlevel; try discriminate;
      injection Hlevel as ->; destruct Hall as [_ Hstarted]; exact Hstarted. }
  destruct Hdone as (k & block & before & after & p & _ & _ & Hp & Ht).
  apply (Hnone p); [| exact Ht].
  unfold pagesOfLevel in Hp. apply list_elem_of_filter in Hp. tauto.
Qed.

(** The section [Guides] has the child [Intro] and no page: [getContext]
    gives the section its hierarchy entry and returns [Intro] under it, and
    the run of [syncPages] makes no call at the level [Guides]. *)
Lemma C2_pageless_section_witness :
  getContext Examples.bareHost "" "." Examples.guidesNav "repo" "Site"
  = (Examples.bareBuild, Ok Examples.bareContext) /\
  ctxSectionHierarchy Examples.bareContext = [("Guides", None)] /\
  ctxPages Examples.bareContext
  = [Examples.pageAtSha "Intro" "docs/guides/intro.md"
       "sha1:/repo/docs/guides/intro.md" (Some "Guides")] /\
  (forall p, p ∈ ctxPages Examples.bareContext -> title p <> "Guides") /\
  exists s' new,
    syncPages SpecStore.sdk 10 1 (ctxPages Examples.bareContext)
              (Examples.start SpecStore.empty) = (s', Ok tt) /\
    trace s' = new /\
    forall e, e ∈ new -> levelOf e <> Some (Some "Guides").
Proof.
  assert (Hnone : forall p, p ∈ ctxPages Examples.bareContext -> title p <> "Guides").
  { intros p Hp. apply list_elem_of_singleton in Hp. subst p. discriminate. }
  split; [vm_compute; reflexivity |]. split; [reflexivity |]. split; [reflexivity |].
  split; [exact Hnone |].
  destruct (C2_pageless_section_is_never_entered SpecStore.sdk 10 1
              (ctxPages Examples.bareContext) (Examples.start SpecStore.empty)
              (mkRun SpecStore.empty [GetChildPages (AtLevel None) (Some 1) (Returned [])])
              (Ok tt) "Guides" eq_refl Hnone) as (new & Htrace & Hnew).
  eexists _, new. split; [reflexivity |]. split; [exact Htrace | exact Hnew].
Defined.

(** The whole run on that checkout: [sync] syncs the home page, fetches the
    children of the root, and reports the site published; the only [sync]
    call of the run is the one of the home page, and [Intro] is never
    synced. The same holds of [syncPages] whatever the recursion budget. *)
Lemma pageless_section_run :
  sync SpecStore.sdk Examples.noConfig 10 (Ok Examples.bareContext)
       (Examples.start SpecStore.empty)
  = Examples.bareRun /\
  Examples.bareRun.2 = Ok tt /\
  (forall e, e ∈ trace Examples.bareRun.1 ->
             forall o u out, e = Sync o u out -> pageTitle u = "Site") /\
  forall fuel,
    syncPages SpecStore.sdk (S fuel) 1 (ctxPages Examples.bareContext)
              (Examples.start SpecStore.empty)
    = (mkRun SpecStore.empty [GetChildPages (AtLevel None) (Some 1) (Returned [])], Ok tt).
Proof.
  split; [vm_compute; reflexivity |]. split; [reflexivity |]. split.
  - intros e He o u out ->. vm_compute in He.
    repeat (apply elem_of_cons in He as [He | He]; [try discriminate He |]).
    + by injection He as -> -> ->.
    + by apply elem_of_nil in He.
  - intros fuel. reflexivity.
Qed.

(** ** The recursion budget *)

Section EnoughFuel.
Context {W : Type}.
Variable confluence : Confluence W.
Variable pagesByParent : gmap (option string) (list LocalPage).
Variable sectionPages : gmap string LocalPage.

Lemma syncUnion_runs k union : forall idx (s : Run W),
  (syncUnion confluence k union idx s).2 <> OutOfFuel.
Proof.
  induction union as [| u rest IH]; intros idx s; simpl; [discriminate |].
  unfold bind, syncM. destruct (pageSync confluence u (world s)) as [w [sp | e]]; simpl.
  - apply IH.
  - discriminate.
Qed.

Lemma processSections_runs
    (recur : option string -> gmap (option string) Z -> M (Run W) (gmap (option string) Z))
    todo :
  (forall p, p ∈ todo -> is_Some (sectionPages !! title p) ->
             forall idx s, (recur (Some (title p)) idx s).2 <> OutOfFuel) ->
  forall idx s, (processSections sectionPages recur todo idx s).2 <> OutOfFuel.
Proof.
  induction todo as [| p rest IH]; intros Hrecur idx s; simpl; [discriminate |].
  destruct (sectionPages !! title p) as [child |] eqn:Hsection.
  - unfold bind.
    pose proof (Hrecur p ltac:(left) ltac:(by rewrite Hsection) idx s) as Hp.
    destruct (recur (Some (title p)) idx s) as [s1 [idx1 | e |]]; simpl in *.
    + apply IH. intros q Hq. apply Hrecur. by right.
    + discriminate.
    + contradiction.
  - apply IH. intros q Hq. apply Hrecur. by right.
Qed.

(** When the titles that key a level rank below the key of the level their
    page is in, as the depth of a tree does, a budget above the rank of a
    level is enough for the walk from that level. *)
Lemma processLevel_enough_fuel (rank : option string -> nat) :
  (forall k p, p ∈ levelPages pagesByParent k -> is_Some (sectionPages !! title p) ->
               (rank (Some (title p)) < rank k)%nat) ->
  forall fuel k idx s,
    (rank k < fuel)%nat ->
    (processLevel confluence pagesByParent sectionPages fuel k idx s).2 <> OutOfFuel.
Proof.
  intros Hrank. induction fuel as [| fuel IH]; intros k idx s Hk; [lia |].
  simpl. unfold bind at 1. unfold getChildPagesM.
  destruct (getChildPages confluence (idx !! k) (world s)) as [remote | e];
    cbn [ofOutcome]; [| discriminate].
  unfold bind at 1.
  pose proof (syncUnion_runs k
                (levelUnion (idx !! k) (default [] (pagesByParent !! k)) remote) idx
                (mkRun (world s)
                   (trace s ++ [GetChildPages (AtLevel k) (idx !! k) (Returned remote)])))
    as Hsync.
  destruct (syncUnion _ _ _ _ _) as [s1 [idx1 | e |]]; simpl in Hsync; try done.
  apply processSections_runs. intros p Hp Hsection idx' s'.
  apply IH. specialize (Hrank k p Hp Hsection). lia.
Qed.

End EnoughFuel.

(** The same for a run of [syncPages], from the root level. *)
Lemma syncPages_enough_fuel {W} (confluence : Confluence W) (rank : option string -> nat)
    (fuel : nat) (home : Z) (localPages : list LocalPage) (s : Run W) :
  (forall k p, p ∈ pagesOfLevel localPages k ->
               is_Some ((groupPages localPages).2 !! title p) ->
               (rank (Some (title p)) < rank k)%nat) ->
  (rank None < fuel)%nat ->
  (syncPages confluence fuel home localPages s).2 <> OutOfFuel.
Proof.
  intros Hrank Hfuel. unfold syncPages.
  pose proof (groupPages_level localPages) as Hlevel.
  destruct (groupPages localPages) as [pagesByParent sectionPages]. simpl in *.
  unfold bind.
  pose proof (processLevel_enough_fuel confluence pagesByParent sectionPages rank) as Hruns.
  specialize (Hruns ltac:(intros k p; rewrite Hlevel; apply Hrank) fuel None
                    {[None := home]} s Hfuel).
  destruct (processLevel _ _ _ _ _ _ _) as [s1 [idx | e |]]; simpl in *;
    [discriminate.. | contradiction].
Qed.

(** The pages of the example make a tree three levels deep: a budget of
    four is enough. *)
Lemma sameTitlePages_enough_fuel (fuel : nat) (s : Run SpecStore.Store) :
  (4 <= fuel)%nat ->
  (syncPages SpecStore.sdk fuel 7 Examples.sameTitlePages s).2 <> OutOfFuel.
Proof.
  intros Hfuel.
  apply (syncPages_enough_fuel SpecStore.sdk
           (fun k => match k with
                     | None => 3
                     | Some t => if String.eqb t "A" then 2
                                 else if String.eqb t "B" then 1 else 0
                     end)%nat); [| lia].
  intros [t |] p Hp Hsection.
  - unfold pagesOfLevel in Hp. apply list_elem_of_filter in Hp as [Hkey Hp].
    vm_compute in Hp.
    repeat (apply elem_of_cons in Hp as [-> | Hp]);
      try (by apply elem_of_nil in Hp);
      vm_compute in Hkey; try discriminate Hkey;
      injection Hkey as <-; vm_compute; lia || (destruct Hsection as [x Hx]; vm_compute in Hx; discriminate Hx).
  - unfold pagesOfLevel in Hp. apply list_elem_of_filter in Hp as [Hkey Hp].
    vm_compute in Hp.
    repeat (apply elem_of_cons in Hp as [-> | Hp]);
      try (by apply elem_of_nil in Hp);
      vm_compute in Hkey; try discriminate Hkey; vm_compute; lia.
Qed.

(** * Further properties of the two modules *)

Section MoreBuilderFacts.
Variable host : Host.
Variable titlePrefix : string.

Lemma addOut_nil b : addOut [] b = b.
Proof. destruct b. unfold addOut. simpl. by rewrite app_nil_r. Qed.

Lemma addOut_addOut e1 e2 b : addOut e2 (addOut e1 b) = addOut (e1 ++ e2) b.
Proof. unfold addOut. simpl. by rewrite app_assoc. Qed.

(** What [traverse]'s callback does on a leaf. *)
Lemma traverseItem_leaf repo_url basePath parent t p b :
  exists evs,
    traverseItem host titlePrefix repo_url basePath parent (NavLeaf t p) b
    = (mkBuild (pages b ++ option_list (leafPage host titlePrefix repo_url basePath (t, p, parent)))
               (sectionHierarchy b) (out b ++ evs), Ok tt) /\
    Forall (confined host) evs.
Proof.
  simpl. unfold bind. rewrite getPage_cases. unfold leafPage.
  destruct (JS.startsWith _ (cwd host)) eqn:Hsafe; simpl.
  - destruct (existsSync host _) eqn:Hex; simpl.
    + eexists. split; [reflexivity |]. repeat constructor; assumption.
    + eexists. rewrite app_nil_r. split; [reflexivity |]. repeat constructor; assumption.
  - eexists. rewrite app_nil_r. split; [reflexivity |]. repeat constructor.
Qed.


Lemma head_app_list {A} (l1 l2 : list A) :
  head (l1 ++ l2) = match head l1 with Some x => Some x | None => head l2 end.
Proof. destruct l1; reflexivity. Qed.

Lemma traverse_list_run repo_url basePath parent items :
  Forall (fun item => forall parent b,
            traversed host titlePrefix repo_url basePath parent b (leaves parent item)
                      (head (bareStrings item))
                      (traverseItem host titlePrefix repo_url basePath parent item b)) items ->
  forall b,
    traversed host titlePrefix repo_url basePath parent b (navLeaves parent items) (firstBare items)
              (traverse host titlePrefix repo_url items basePath parent b).
Proof.
  induction 1 as [| i r Hi _ IH]; intros b.
  - exists []. simpl. rewrite !app_nil_r. repeat split. constructor.
  - unfold firstBare, navLeaves. simpl. rewrite head_app_list. unfold bind.
    destruct (Hi parent b) as (evs1 & Hout1 & Hconf1 & Hres1).
    destruct (traverseItem host titlePrefix repo_url basePath parent i b) as [b1 r1].
    simpl in *. destruct (head (bareStrings i)) as [s |].
    + subst r1. exists evs1. simpl. auto.
    + destruct Hres1 as [-> Hpages1].
      destruct (IH b1) as (evs2 & Hout2 & Hconf2 & Hres2).
      exists (evs1 ++ evs2). split; [rewrite Hout2, Hout1; by rewrite app_assoc |].
      split; [by apply Forall_app |].
      fold (firstBare r). destruct (firstBare r) as [s |]; [exact Hres2 |].
      destruct Hres2 as [Hr2 Hpages2]. split; [exact Hr2 |].
      rewrite Hpages2, Hpages1, omap_app. by rewrite app_assoc.
Qed.

Lemma traverseItem_run repo_url basePath item :
  forall parent b,
    traversed host titlePrefix repo_url basePath parent b (leaves parent item)
              (head (bareStrings item))
              (traverseItem host titlePrefix repo_url basePath parent item b).
Proof.
  induction item as [s | t p | t items IH] using navItem_nested_ind; intros parent b.
  - exists []. simpl. rewrite app_nil_r. repeat split. constructor.
  - destruct (traverseItem_leaf repo_url basePath parent t p b) as (evs & -> & Hconf).
    set (lp := leafPage host titlePrefix repo_url basePath (t, p, parent)).
    exists evs. split; [reflexivity |]. split; [exact Hconf |].
    split; [reflexivity |]. cbn [fst pages leaves omap list_omap]. fold lp.
    by destruct lp.
  - rewrite traverseItem_section. unfold bind, setSection, modify.
    apply (traverse_list_run repo_url basePath (Some t) items IH
             (mkBuild (pages b) (Map_set t parent (sectionHierarchy b)) (out b))).
Qed.

Lemma traverse_run repo_url basePath nav parent b :
  traversed host titlePrefix repo_url basePath parent b (navLeaves parent nav) (firstBare nav)
            (traverse host titlePrefix repo_url nav basePath parent b).
Proof.
  apply traverse_list_run. apply Forall_forall. intros item _. apply traverseItem_run.
Qed.


(** Pages with a recorded path give their directories without a throw. *)
Lemma mapO_relativeDir children :
  Forall (fun c => is_Some (path (meta c))) children ->
  exists dirs, mapO (relativeDir host) children = Returned dirs /\
               Forall2 (fun c d => relativeDir host c = Returned d) children dirs.
Proof.
  induction 1 as [| c cs [p Hp] _ (dirs & IH & IH2)]; simpl.
  - exists []. split; [reflexivity | constructor].
  - rewrite IH. destruct (relativeDir host c) as [d | e] eqn:Hc.
    + exists (d :: dirs). split; [reflexivity | by constructor].
    + unfold relativeDir in Hc. rewrite Hp in Hc. by destruct (JS.indexOf p "/docs/").
Qed.

Lemma inferSectionDirectory_returns children :
  Forall (fun c => is_Some (path (meta c))) children ->
  exists dir, inferSectionDirectory host children = Returned dir.
Proof.
  intros Hall. unfold inferSectionDirectory. destruct children as [| c cs]; [eauto |].
  destruct (mapO_relativeDir _ Hall) as (dirs & -> & _).
  destruct (omap id dirs) as [| firstPath rest]; [eauto |].
  destruct (forallb _ _); eauto.
Qed.

Lemma sectionPage_run repo_url basePath leafs acc entry b :
  Forall (fun c => is_Some (path (meta c))) leafs ->
  exists evs pick,
    sectionPage host titlePrefix repo_url basePath leafs acc entry b
    = (addOut evs b, Ok (acc ++ option_list pick)) /\
    Forall (confined host) evs /\
    picked host titlePrefix repo_url basePath leafs entry pick.
Proof.
  intros Hpaths. destruct entry as [name parent]. unfold sectionPage, picked. simpl.
  set (children := filter (fun p => parentPath p = Some name) leafs).
  assert (Hchildren : Forall (fun c => is_Some (path (meta c))) children).
  { apply Forall_forall. intros c Hc. apply list_elem_of_filter in Hc as [_ Hc].
    rewrite Forall_forall in Hpaths. by apply Hpaths. }
  assert (Hnone : exists evs pick,
             (b, Ok acc) = (addOut evs b, Ok (acc ++ option_list pick)) /\
             Forall (confined host) evs /\
             forall p, pick = Some p ->
               exists dir, hasReadme host basePath leafs name dir /\
                 p = sectionReadme host titlePrefix repo_url basePath name parent dir).
  { exists [], None. rewrite addOut_nil. simpl. rewrite app_nil_r.
    split; [reflexivity |]. split; [constructor | discriminate]. }
  destruct children as [| c cs] eqn:Hcs; [exact Hnone |].
  destruct (inferSectionDirectory_returns _ Hchildren) as (dir & Hdir).
  unfold bind, liftO. rewrite Hdir. simpl.
  destruct dir as [[| c0 d] |]; [exact Hnone | | exact Hnone].
  rewrite getPage_cases.
  destruct (JS.startsWith _ (cwd host)) eqn:Hsafe; simpl.
  - destruct (existsSync host _) eqn:Hex; simpl.
    + eexists _, (Some _). unfold emit, modify, ret. simpl.
      split; [unfold addOut; simpl; rewrite <- app_assoc; reflexivity |].
      split; [repeat constructor; assumption |].
      intros p [= <-]. exists (String c0 d). split; [| reflexivity].
      unfold hasReadme. fold children. rewrite Hcs. auto.
    + eexists _, None. simpl. rewrite app_nil_r. split; [reflexivity |].
      split; [repeat constructor; assumption | discriminate].
  - eexists _, None. simpl. rewrite app_nil_r. split; [reflexivity |].
    split; [repeat constructor | discriminate].
Qed.

Lemma createSectionPagesFrom_run repo_url basePath leafs entries :
  Forall (fun c => is_Some (path (meta c))) leafs ->
  forall acc b,
  exists evs picks,
    createSectionPagesFrom host titlePrefix repo_url basePath leafs entries acc b
    = (addOut evs b, Ok (acc ++ omap id picks)) /\
    Forall (confined host) evs /\
    Forall2 (picked host titlePrefix repo_url basePath leafs) entries picks.
Proof.
  intros Hpaths. induction entries as [| entry r IH]; intros acc b.
  - exists [], []. rewrite addOut_nil. simpl. rewrite app_nil_r.
    split; [reflexivity |]. split; constructor.
  - simpl. unfold bind.
    destruct (sectionPage_run repo_url basePath leafs acc entry b Hpaths)
      as (evs1 & pick & -> & Hconf1 & Hpick).
    destruct (IH (acc ++ option_list pick) (addOut evs1 b))
      as (evs2 & picks & -> & Hconf2 & Hpicks).
    exists (evs1 ++ evs2), (pick :: picks). rewrite addOut_addOut.
    split; [f_equal; f_equal; rewrite <- app_assoc; f_equal; by destruct pick |].
    split; [by apply Forall_app | by constructor].
Qed.


Lemma getPage_readme basePath repo_url site_name b :
  exists evs,
    getPage host repo_url site_name (resolve host [basePath; README_MD]) "" b
    = (addOut evs b, Ok (readmeOf host basePath repo_url site_name)) /\
    Forall (confined host) evs.
Proof.
  rewrite getPage_cases. unfold readmeOf.
  destruct (JS.startsWith _ (cwd host)) eqn:Hsafe; simpl.
  - destruct (existsSync host _) eqn:Hex; simpl; eexists; (split; [reflexivity |]);
      repeat constructor; assumption.
  - eexists. split; [reflexivity |]. repeat constructor.
Qed.

Lemma leafPage_path repo_url basePath ls :
  Forall (fun c => is_Some (path (meta c)))
         (omap (leafPage host titlePrefix repo_url basePath) ls).
Proof.
  apply Forall_forall. intros c (leaf & _ & Hc)%list_elem_of_omap.
  destruct leaf as [[t p] parent]. unfold leafPage in Hc.
  destruct (_ && _); [| discriminate]. injection Hc as <-. simpl. eauto.
Qed.

(** What a run of [getContext] amounts to. *)
Lemma getContext_run basePath nav repo_url site_name :
  let run := getContext host titlePrefix basePath nav repo_url site_name in
  Forall (confined host) (out run.1) /\
  match firstBare nav with
  | Some s => run.2 = Throw (NoTitle s)
  | None =>
      exists picks,
        let leafs := omap (leafPage host titlePrefix repo_url basePath) (navLeaves None nav) in
        let hierarchy := setAll (sectionVisits None nav) [] in
        let readme := readmeOf host basePath repo_url site_name in
        let all := leafs ++ omap id picks in
        Forall2 (picked host titlePrefix repo_url basePath leafs) hierarchy picks /\
        sectionHierarchy run.1 = hierarchy /\
        run.2 = Ok (mkContext site_name repo_url all
                      (foldl setRef (initialRefs readme) all)
                      (Object_fromEntries hierarchy) readme)
  end.
Proof.
  cbv zeta. destruct (getContext _ _ _ _ _ _) as [b r] eqn:Hrun.
  unfold getContext, getContextM in Hrun. unfold bind at 1 in Hrun.
  pose proof (traverse_run repo_url basePath nav None (mkBuild [] [] [])) as Htr.
  pose proof (traverse_hierarchy host titlePrefix repo_url basePath nav None (mkBuild [] [] []))
    as Hhier.
  destruct (traverse host titlePrefix repo_url nav basePath None (mkBuild [] [] []))
    as [b1 r1].
  destruct Htr as (evs1 & Hout1 & Hconf1 & Hres1). simpl in Hout1, Hres1.
  destruct (firstBare nav) as [s |].
  { subst r1. injection Hrun as <- <-. simpl. rewrite Hout1. auto. }
  destruct Hres1 as [-> Hpages1]. specialize (Hhier b1 eq_refl). simpl in Hhier.
  unfold bind at 1 in Hrun.
  destruct (getPage_readme basePath repo_url site_name b1) as (evs2 & Hreadme & Hconf2).
  rewrite Hreadme in Hrun. clear Hreadme.
  unfold bind at 1 in Hrun. unfold gets at 1 in Hrun.
  unfold bind at 1 in Hrun. unfold gets at 1 in Hrun.
  cbn [addOut pages sectionHierarchy] in Hrun. unfold bind at 1 in Hrun.
  unfold createSectionPages in Hrun.
  destruct (createSectionPagesFrom_run repo_url basePath (pages b1) (sectionHierarchy b1)
              ltac:(rewrite Hpages1; apply leafPage_path) [] (addOut evs2 b1))
    as (evs3 & picks & Hcreate & Hconf3 & Hpicks).
  rewrite Hcreate in Hrun. clear Hcreate.
  unfold bind at 1 in Hrun. rewrite forEach_pushPage in Hrun. unfold bind, gets, ret in Hrun.
  cbn [addOut pages sectionHierarchy out fst snd app] in Hrun.
  injection Hrun as <- <-. cbn [fst snd out].
  split.
  - rewrite Hout1. apply Forall_app. split; [by apply Forall_app | exact Hconf3].
  - exists picks. rewrite Hpages1, Hhier in Hpicks. simpl in Hpicks.
    split; [exact Hpicks |]. split; [exact Hhier |]. rewrite Hpages1, Hhier. reflexivity.
Qed.

End MoreBuilderFacts.

Lemma lastWithPath_snoc k pages p :
  lastWithPath k (pages ++ [p])
  = if decide (path (meta p) = Some k) then Some p else lastWithPath k pages.
Proof.
  unfold lastWithPath. rewrite filter_app, filter_cons, filter_nil.
  destruct (decide _); [by rewrite last_snoc | by rewrite app_nil_r].
Qed.

(** The references after the pages of [pages], each with a recorded path:
    the key [__proto__] apart, a path names the last page recorded under
    it. *)
Lemma foldl_setRef pages : forall base k,
  Forall (fun p => is_Some (path (meta p))) pages ->
  foldl setRef base pages !! k
  = match (if String.eqb k "__proto__" then None else lastWithPath k pages) with
    | Some p => Some (title p)
    | None => base !! k
    end.
Proof.
  induction pages as [| p pages IH] using rev_ind; intros base k Hall.
  { simpl. by destruct (String.eqb k "__proto__"). }
  apply Forall_app in Hall as [Hall Hp]. apply Forall_singleton in Hp as [kp Hkp].
  rewrite foldl_app, lastWithPath_snoc. simpl. unfold setRef at 1, refKey. rewrite Hkp. simpl.
  destruct (String.eqb_spec kp "__proto__") as [-> | Hproto].
  - rewrite (IH base k Hall). destruct (String.eqb_spec k "__proto__") as [-> | Hk];
      [reflexivity |].
    destruct (decide (Some "__proto__" = Some k)) as [[= <-] | _]; [congruence | reflexivity].
  - destruct (decide (Some kp = Some k)) as [[= ->] | Hne].
    + rewrite lookup_insert_eq. by destruct (String.eqb_spec k "__proto__").
    + rewrite lookup_insert_ne by congruence. by apply IH.
Qed.

(** ** The traversal of the parsed entries *)

(** Induction over a value and the values nested in it. *)
Lemma jsValue_nested_ind (P : jsValue -> Prop) :
  P JUndefined -> P JNull -> (forall b, P (JBool b)) -> (forall n, P (JNumber n)) ->
  (forall s, P (JString s)) ->
  (forall items, Forall P items -> P (JArray items)) ->
  (forall props, Forall (fun kv => P kv.2) props -> P (JObject props)) ->
  forall v, P v.
Proof.
  intros Hu Hn Hb Hnum Hs Ha Ho. fix IH 1. intros [| | b | n | s | items | props].
  - exact Hu.
  - exact Hn.
  - apply Hb.
  - apply Hnum.
  - apply Hs.
  - apply Ha. induction items as [| i r IHr]; constructor; [apply IH | exact IHr].
  - apply Ho. induction props as [| [k v] r IHr]; constructor; [apply IH | exact IHr].
Qed.

Section RawFacts.
Variable host : Host.
Variable titlePrefix : string.

(** The loop nested in [traverseItem] is [traverse]. *)
Lemma Raw_traverse_nested repo_url basePath parent nav :
  (fix traverse (nav : list jsValue) : M Build unit :=
     match nav with
     | [] => ret tt
     | i :: r => bind (Raw.traverseItem host titlePrefix repo_url basePath parent i)
                      (fun _ => traverse r)
     end) nav
  = Raw.traverse host titlePrefix repo_url nav basePath parent.
Proof. induction nav as [| i r IH]; simpl; [reflexivity | rewrite IH; reflexivity]. Qed.

Lemma walked_throw b e : walked host b (Some e) (b, Throw e).
Proof.
  exists []. simpl. rewrite app_nil_r. split; [reflexivity |].
  split; [constructor |]. split; [trivial | reflexivity].
Qed.

Lemma Raw_traverse_list_run repo_url basePath parent items :
  Forall (fun item => forall parent b,
            walked host b (offence item)
                   (Raw.traverseItem host titlePrefix repo_url basePath parent item b)) items ->
  forall b,
    walked host b (firstOffence items)
           (Raw.traverse host titlePrefix repo_url items basePath parent b).
Proof.
  induction 1 as [| i r Hi _ IH]; intros b.
  - exists []. simpl. rewrite app_nil_r. split; [reflexivity |].
    split; [constructor |]. split; [trivial | reflexivity].
  - unfold firstOffence. simpl. unfold bind.
    destruct (Hi parent b) as (evs1 & Hout1 & Hconf1 & Hpaths1 & Hres1).
    destruct (Raw.traverseItem host titlePrefix repo_url basePath parent i b) as [b1 r1].
    simpl in *. destruct (offence i) as [e |]; subst r1.
    + exists evs1. simpl. auto.
    + destruct (IH b1) as (evs2 & Hout2 & Hconf2 & Hpaths2 & Hres2).
      exists (evs1 ++ evs2). split; [rewrite Hout2, Hout1; by rewrite app_assoc |].
      split; [by apply Forall_app |]. split; [auto | exact Hres2].
Qed.

(** What the callback does on [{title: path}] is what it does on the leaf
    of the navigation. *)
Lemma Raw_leaf_run repo_url basePath parent t p b :
  walked host b None
    (traverseItem host titlePrefix repo_url basePath parent (NavLeaf t p) b).
Proof.
  destruct (traverseItem_leaf host titlePrefix repo_url basePath parent t p b)
    as (evs & -> & Hconf).
  exists evs. simpl. split; [reflexivity |]. split; [exact Hconf |].
  split; [| reflexivity]. intros Hpaths. apply Forall_app. split; [exact Hpaths |].
  unfold leafPage. destruct (_ && _); simpl; [| constructor].
  constructor; [| constructor]. unfold hasPath. simpl. eauto.
Qed.

Lemma Raw_section_run repo_url basePath parent t items b :
  Forall (fun item => forall parent b,
            walked host b (offence item)
                   (Raw.traverseItem host titlePrefix repo_url basePath parent item b)) items ->
  walked host b (firstOffence items)
    (bind (setSection t parent)
          (fun _ => Raw.traverse host titlePrefix repo_url items basePath (Some t)) b).
Proof.
  intros Hitems. unfold bind, setSection, modify.
  apply (Raw_traverse_list_run repo_url basePath (Some t) items Hitems
           (mkBuild (pages b) (Map_set t parent (sectionHierarchy b)) (out b))).
Qed.

(** The run of the callback on an entry, and on the entries of a
    sequence. *)
Lemma Raw_traverseItem_run repo_url basePath item :
  (forall parent b,
     walked host b (offence item)
            (Raw.traverseItem host titlePrefix repo_url basePath parent item b)) /\
  (forall items, item = JArray items ->
     Forall (fun i => forall parent b,
               walked host b (offence i)
                      (Raw.traverseItem host titlePrefix repo_url basePath parent i b)) items).
Proof.
  assert (Hentry : forall t v parent b,
            (forall items, v = JArray items ->
               Forall (fun i => forall parent b,
                         walked host b (offence i)
                                (Raw.traverseItem host titlePrefix repo_url basePath parent i b))
                      items) ->
            walked host b (offence (JObject [(t, v)]))
                   (Raw.traverseItem host titlePrefix repo_url basePath parent
                      (JObject [(t, v)]) b)).
  { intros t v parent b Hsub. destruct v as [| | x | n | p | sub | props].
    - apply walked_throw.
    - apply walked_throw.
    - apply walked_throw.
    - apply walked_throw.
    - apply (Raw_leaf_run repo_url basePath parent t p b).
    - cbn [Raw.traverseItem offence]. rewrite Raw_traverse_nested.
      apply Raw_section_run. by apply Hsub.
    - apply walked_throw. }
  induction item as [| | x | n | s | items IH | props IH] using jsValue_nested_ind.
  - split; [intros; apply walked_throw | discriminate].
  - split; [intros; apply walked_throw | discriminate].
  - split; [intros; apply walked_throw | discriminate].
  - split; [intros; apply walked_throw | discriminate].
  - split; [intros; apply walked_throw | discriminate].
  - split.
    + intros parent b. destruct IH as [| v rest [_ Hv] _]; [apply walked_throw |].
      apply (Hentry "0" v parent b Hv).
    + intros items' [= <-]. eapply Forall_impl; [exact IH |]. by intros i [Hi _].
  - split; [| discriminate].
    intros parent b. destruct IH as [| [t v] rest [_ Hv] _]; [apply walked_throw |].
    apply (Hentry t v parent b Hv).
Qed.

Lemma Raw_traverse_run repo_url basePath nav parent b :
  walked host b (firstOffence nav)
         (Raw.traverse host titlePrefix repo_url nav basePath parent b).
Proof.
  apply Raw_traverse_list_run. apply Forall_forall. intros item _.
  apply Raw_traverseItem_run.
Qed.



Lemma offence_navValue item : offence (navValue item) = NoTitle <$> head (bareStrings item).
Proof.
  induction item as [s | t p | t items IH] using navItem_nested_ind; try reflexivity.
  cbn [navValue offence bareStrings].
  induction IH as [| i r Hi _ IHr]; [reflexivity |].
  simpl. rewrite Hi, head_app_list.
  destruct (head (bareStrings i)); [reflexivity | exact IHr].
Qed.

Lemma firstOffence_navValue nav : firstOffence (navValue <$> nav) = NoTitle <$> firstBare nav.
Proof.
  unfold firstOffence, firstBare. induction nav as [| i r IH]; [reflexivity |].
  simpl. rewrite offence_navValue, head_app_list.
  destruct (head (bareStrings i)); [reflexivity | exact IH].
Qed.

(** What a run of [getContext] on parsed entries amounts to. *)
Lemma Raw_getContext_run basePath nav repo_url site_name :
  let run := Raw.getContext host titlePrefix basePath nav repo_url site_name in
  match firstOffence nav with
  | Some e => run.2 = Throw e
  | None => exists ctx, run.2 = Ok ctx /\ siteName ctx = site_name /\ ctxRepo ctx = repo_url
  end.
Proof.
  cbv zeta. destruct (Raw.getContext _ _ _ _ _ _) as [b r] eqn:Hrun.
  unfold Raw.getContext, Raw.getContextM in Hrun. unfold bind at 1 in Hrun.
  pose proof (Raw_traverse_run repo_url basePath nav None (mkBuild [] [] [])) as Htr.
  destruct (Raw.traverse host titlePrefix repo_url nav basePath None (mkBuild [] [] []))
    as [b1 r1].
  destruct Htr as (evs1 & _ & _ & Hpaths1 & Hres1). simpl in Hpaths1, Hres1.
  destruct (firstOffence nav) as [e |]; subst r1.
  { by injection Hrun as <- <-. }
  unfold bind at 1 in Hrun.
  destruct (getPage_readme host basePath repo_url site_name b1) as (evs2 & Hreadme & _).
  rewrite Hreadme in Hrun. clear Hreadme.
  unfold bind at 1 in Hrun. unfold gets at 1 in Hrun.
  unfold bind at 1 in Hrun. unfold gets at 1 in Hrun.
  cbn [addOut pages sectionHierarchy] in Hrun. unfold bind at 1 in Hrun.
  unfold createSectionPages in Hrun.
  destruct (createSectionPagesFrom_run host titlePrefix repo_url basePath (pages b1)
              (sectionHierarchy b1) (Hpaths1 ltac:(constructor)) [] (addOut evs2 b1))
    as (evs3 & picks & Hcreate & _ & _).
  rewrite Hcreate in Hrun. clear Hcreate.
  unfold bind at 1 in Hrun. rewrite forEach_pushPage in Hrun. unfold bind, gets, ret in Hrun.
  injection Hrun as <- <-. eexists. split; [reflexivity |]. split; reflexivity.
Qed.

End RawFacts.

(** ** What stops the traversal *)

Lemma head_omap_Some {A B} (f : A -> option B) l y :
  head (omap f l) = Some y -> exists x, x ∈ l /\ f x = Some y.
Proof.
  intros Hy. apply head_Some_elem_of in Hy.
  apply list_elem_of_omap in Hy as (x & Hx & Hy). eauto.
Qed.

(** The errors of the entries are those of [traverse] itself and of the
    runtime. *)
Lemma offence_kind item :
  (forall e, offence item = Some e ->
             (exists s, e = NoTitle s) \/ (exists what, e = TypeError what)) /\
  (forall items, item = JArray items ->
     Forall (fun i => forall e, offence i = Some e ->
                        (exists s, e = NoTitle s) \/ (exists what, e = TypeError what))
            items).
Proof.
  assert (Hentry : forall t v,
            (forall items, v = JArray items ->
               Forall (fun i => forall e, offence i = Some e ->
                          (exists s, e = NoTitle s) \/ (exists what, e = TypeError what))
                      items) ->
            forall e, offence (JObject [(t, v)]) = Some e ->
                      (exists s, e = NoTitle s) \/ (exists what, e = TypeError what)).
  { intros t v Hsub e He. destruct v as [| | x | n | p | sub | props]; simpl in He;
      try (injection He as <-; right; by eexists); [discriminate He |].
    apply head_omap_Some in He as (i & Hi & He).
    specialize (Hsub sub eq_refl). rewrite Forall_forall in Hsub. by apply (Hsub i). }
  induction item as [| | x | n | s | items IH | props IH] using jsValue_nested_ind.
  1-4: split; [intros e [= <-]; right; by eexists | discriminate].
  - split; [intros e [= <-]; left; by eexists | discriminate].
  - split.
    + intros e He. destruct IH as [| v rest [_ Hv] _];
        [injection He as <-; right; by eexists |].
      apply (Hentry "0" v Hv e He).
    + intros items' [= <-]. eapply Forall_impl; [exact IH |]. by intros i [Hi _].
  - split; [| discriminate].
    intros e He. destruct IH as [| [t v] rest [_ Hv] _];
      [injection He as <-; right; by eexists |].
    apply (Hentry t v Hv e He).
Qed.

(** X2. [traverse] throws exactly when the navigation holds, at any depth, an
    entry it cannot go past: a bare string, for which it throws its own
    error, or an entry that is [null] or whose first value is neither a
    string nor a sequence, for which the runtime throws a [TypeError]. The
    error is that of the first such entry in depth-first order; otherwise
    [traverse] returns. An entry that is a number, a boolean, an empty
    mapping or an empty sequence has no first value; of a mapping with
    several keys and of a sequence only the first value is read. On entries
    that are bare strings, [{title: path}] or [{title: [entries]}] the only
    error is the one of the first bare string. *)
Theorem traverse_throws_at_the_first_entry_it_cannot_read
    (host : Host) (titlePrefix repo_url basePath : string) (nav : list jsValue)
    (parentSection : option string) (b : Build) :
  (Raw.traverse host titlePrefix repo_url nav basePath parentSection b).2
  = match firstOffence nav with
    | Some e => Throw e
    | None => Ok tt
    end /\
  (forall e, firstOffence nav = Some e ->
             (exists s, e = NoTitle s) \/ (exists what, e = TypeError what)) /\
  (forall items : list navItem,
     firstOffence (navValue <$> items) = NoTitle <$> firstBare items).
Proof.
  split; [| split].
  - destruct (Raw_traverse_run host titlePrefix repo_url basePath nav parentSection b)
      as (evs & _ & _ & _ & Hres).
    exact Hres.
  - intros e (item & _ & He)%head_omap_Some. by apply (offence_kind item).
  - apply firstOffence_navValue.
Qed.

(** The entries of [mixedNav]: the first gives the page of its first key,
    the second is a section [0] whose only page is missing, and the third
    stops the traversal. *)
Lemma mixedNav_run :
  let run := Raw.traverse Parsed.indexHost "" "repo" Parsed.mixedNav "." None
                          (mkBuild [] [] []) in
  run.2 = Throw (notAPath "type number (2024)") /\
  (fun p => (title p, path (meta p), parentPath p)) <$> pages run.1
  = [("Home", Some "docs/index.md", None)] /\
  sectionHierarchy run.1 = [("0", None)].
Proof. vm_compute. split; [reflexivity |]. split; reflexivity. Qed.

(** X3. [getContext] throws only what [traverse] throws, for the first entry of
    the navigation it cannot go past: the page of [README.md], the section
    pages and the references add no error. On a navigation without such an
    entry it returns a context, with the site name and the repository url it
    was given. *)
Theorem getContext_throws_only_for_an_entry_it_cannot_read
    (host : Host) (titlePrefix basePath : string) (nav : list jsValue)
    (repo_url site_name : string) :
  match firstOffence nav with
  | Some e =>
      (Raw.getContext host titlePrefix basePath nav repo_url site_name).2 = Throw e
  | None =>
      exists ctx,
        (Raw.getContext host titlePrefix basePath nav repo_url site_name).2 = Ok ctx /\
        siteName ctx = site_name /\ ctxRepo ctx = repo_url
  end.
Proof. apply Raw_getContext_run. Qed.


(** ** What the tree builder collects *)

(** X1. A traversal that returns has appended, for the leaves of the navigation
    in depth-first order, the page of each leaf whose file exists under the
    working directory, placed in the section that encloses the leaf; the
    other leaves give no page. *)
Theorem traverse_collects_the_existing_leaves
    (host : Host) (titlePrefix repo_url basePath : string) (nav : list navItem)
    (parentSection : option string) (b b' : Build) :
  traverse host titlePrefix repo_url nav basePath parentSection b = (b', Ok tt) ->
  pages b' = pages b ++ omap (leafPage host titlePrefix repo_url basePath)
                             (navLeaves parentSection nav).
Proof.
  intros Hrun.
  destruct (traverse_run host titlePrefix repo_url basePath nav parentSection b)
    as (evs & _ & _ & Hres).
  rewrite Hrun in Hres. simpl in Hres.
  destruct (firstBare nav); [discriminate Hres | tauto].
Qed.

Lemma traverse_collects_the_existing_leaves_witness :
  (fun p => (title p, path (meta p), parentPath p))
    <$> pages (traverse Cases.siblingHost "" "repo" Cases.siblingNav "." None
                        (mkBuild [] [] [])).1
  = [("Home", Some "docs/index.md", None);
     ("Secret", Some "../repo2/secret.md", Some "Notes");
     ("Welcome", Some "README.md", Some "Notes")].
Proof.
  rewrite (traverse_collects_the_existing_leaves Cases.siblingHost "" "repo" "."
             Cases.siblingNav None (mkBuild [] [] [])
             (traverse Cases.siblingHost "" "repo" Cases.siblingNav "." None
                       (mkBuild [] [] [])).1);
    [reflexivity | vm_compute; reflexivity].
Defined.

(** X4. Whatever the navigation and the outcome, [getContext] asks the file
    system only about paths that start with the working directory, and
    hashes only files it found to exist. *)
Theorem getContext_reads_only_under_the_working_directory
    (host : Host) (titlePrefix basePath : string) (nav : list navItem)
    (repo_url site_name : string) :
  Forall (confined host)
         (out (getContext host titlePrefix basePath nav repo_url site_name).1).
Proof. apply getContext_run. Qed.

Section ContextFacts.
Variable host : Host.
Variable titlePrefix : string.

Lemma leafPage_fromFile repo_url basePath leaf p :
  leafPage host titlePrefix repo_url basePath leaf = Some p -> fromFile host repo_url p.
Proof.
  destruct leaf as [[t f] parent]. unfold leafPage.
  destruct (JS.startsWith _ _) eqn:Hsafe; [| discriminate].
  destruct (existsSync _ _) eqn:Hex; [| discriminate].
  intros [= <-]. eexists. split; [exact Hsafe |]. split; [exact Hex | reflexivity].
Qed.

Lemma picked_fromFile repo_url basePath leafs entry p :
  picked host titlePrefix repo_url basePath leafs entry (Some p) -> fromFile host repo_url p.
Proof.
  intros Hpick. destruct (Hpick p eq_refl) as (dir & (_ & _ & Hsafe & Hex) & ->).
  eexists. split; [exact Hsafe |]. split; [exact Hex | reflexivity].
Qed.

Lemma readmeOf_fromFile basePath repo_url site_name p :
  readmeOf host basePath repo_url site_name = Some p -> fromFile host repo_url p.
Proof.
  unfold readmeOf.
  destruct (JS.startsWith _ _) eqn:Hsafe; [| discriminate].
  destruct (existsSync _ _) eqn:Hex; [| discriminate].
  intros [= <-]. eexists. split; [exact Hsafe |]. split; [exact Hex | reflexivity].
Qed.

(** The context of a run that returns. *)
Lemma getContext_Ok basePath nav repo_url site_name b ctx :
  getContext host titlePrefix basePath nav repo_url site_name = (b, Ok ctx) ->
  exists picks,
    let leafs := omap (leafPage host titlePrefix repo_url basePath) (navLeaves None nav) in
    let all := leafs ++ omap id picks in
    leafPages host titlePrefix repo_url basePath nav = leafs /\
    Forall2 (picked host titlePrefix repo_url basePath leafs)
            (setAll (sectionVisits None nav) []) picks /\
    ctx = mkContext site_name repo_url all
            (foldl setRef (initialRefs (readmeOf host basePath repo_url site_name)) all)
            (Object_fromEntries (setAll (sectionVisits None nav) []))
            (readmeOf host basePath repo_url site_name).
Proof.
  intros Hrun.
  destruct (getContext_run host titlePrefix basePath nav repo_url site_name) as [_ Hres].
  rewrite Hrun in Hres. simpl in Hres.
  destruct (traverse_run host titlePrefix repo_url basePath nav None (mkBuild [] [] []))
    as (evs & _ & _ & Hleafs).
  destruct (firstBare nav); [discriminate Hres |].
  destruct Hres as (picks & Hpicks & _ & [= ->]). exists picks. simpl.
  split; [unfold leafPages; tauto |]. split; [exact Hpicks | reflexivity].
Qed.

(** The [Map] of a run that returns holds the binding of every section, in
    the order in which the names were first met. *)
Lemma getContext_hierarchy basePath nav repo_url site_name b ctx :
  getContext host titlePrefix basePath nav repo_url site_name = (b, Ok ctx) ->
  sectionHierarchy b = setAll (sectionVisits None nav) [].
Proof.
  intros Hrun.
  destruct (getContext_run host titlePrefix basePath nav repo_url site_name) as [_ Hres].
  rewrite Hrun in Hres. simpl in Hres.
  destruct (firstBare nav); [discriminate Hres |].
  by destruct Hres as (picks & _ & Hhier & _).
Qed.

Lemma context_paths basePath nav repo_url picks :
  Forall2 (picked host titlePrefix repo_url basePath
             (omap (leafPage host titlePrefix repo_url basePath) (navLeaves None nav)))
          (setAll (sectionVisits None nav) []) picks ->
  Forall (fromFile host repo_url)
         (omap (leafPage host titlePrefix repo_url basePath) (navLeaves None nav)
            ++ omap id picks).
Proof.
  intros Hpicks. apply Forall_app. split.
  - apply Forall_forall. intros p (leaf & _ & Hp)%list_elem_of_omap.
    by eapply leafPage_fromFile.
  - apply Forall_forall. intros p (pick & Hin & Hp)%list_elem_of_omap.
    simpl in Hp. subst pick.
    apply list_elem_of_lookup in Hin as [i Hi].
    destruct (Forall2_lookup_r _ _ _ _ _ Hpicks Hi) as (entry & _ & Hpick).
    by eapply picked_fromFile.
Qed.

End ContextFacts.

(** X5. Every page of the context [getContext] returns, and its home page when
    it has one, stands for a file that exists and whose path starts with the
    working directory; it carries the repository url of the configuration,
    the path of the file relative to the working directory, and its hash. *)
Theorem getContext_pages_stand_for_files
    (host : Host) (titlePrefix basePath : string) (nav : list navItem)
    (repo_url site_name : string) (b : Build) (ctx : Context) :
  getContext host titlePrefix basePath nav repo_url site_name = (b, Ok ctx) ->
  Forall (fromFile host (ctxRepo ctx)) (ctxPages ctx) /\
  forall p, readMe ctx = Some p -> fromFile host (ctxRepo ctx) p.
Proof.
  intros Hrun. destruct (getContext_Ok _ _ _ _ _ _ _ _ Hrun) as (picks & _ & Hpicks & ->).
  simpl. split; [by apply context_paths |].
  intros p Hp. by eapply readmeOf_fromFile.
Qed.

Lemma getContext_pages_stand_for_files_witness :
  getContext Cases.siblingHost "" "." Cases.siblingNav "repo" "Site"
  = (Cases.siblingBuild, Ok Cases.siblingContext) /\
  Forall (fromFile Cases.siblingHost "repo") (ctxPages Cases.siblingContext) /\
  (fun p => path (meta p)) <$> ctxPages Cases.siblingContext
  = [Some "docs/index.md"; Some "../repo2/secret.md"; Some "README.md"].
Proof.
  assert (Hctx : getContext Cases.siblingHost "" "." Cases.siblingNav "repo" "Site"
                 = (Cases.siblingBuild, Ok Cases.siblingContext))
    by (vm_compute; reflexivity).
  split; [exact Hctx |]. split; [| reflexivity].
  apply (getContext_pages_stand_for_files _ _ _ _ _ _ _ _ Hctx).
Defined.

(** X6. The references of the context [getContext] returns: a path other than
    [__proto__] is mapped to the title of the last page of the context
    recorded under it; a path no page is recorded under is mapped to the
    title of the home page when it is the path of the home page, and to
    nothing otherwise. Under the key [__proto__] no page is recorded: the
    references are a plain object, and the assignment of a title under that
    key leaves it without property. *)
Theorem getContext_pageRefs_name_the_last_page
    (host : Host) (titlePrefix basePath : string) (nav : list navItem)
    (repo_url site_name : string) (b : Build) (ctx : Context) :
  getContext host titlePrefix basePath nav repo_url site_name = (b, Ok ctx) ->
  forall k,
    pageRefs ctx !! k
    = match (if String.eqb k "__proto__" then None else lastWithPath k (ctxPages ctx)) with
      | Some p => Some (title p)
      | None =>
          match readMe ctx with
          | Some home => if decide (path (meta home) = Some k) then Some (title home) else None
          | None => None
          end
      end.
Proof.
  intros Hrun k. destruct (getContext_Ok _ _ _ _ _ _ _ _ Hrun) as (picks & _ & Hpicks & ->).
  simpl. rewrite foldl_setRef.
  - destruct (if String.eqb k "__proto__" then None else lastWithPath k _); [reflexivity |].
    pose proof (readmeOf_fromFile host basePath repo_url site_name) as Hhome.
    destruct (readmeOf host basePath repo_url site_name) as [home |]; simpl; [| reflexivity].
    destruct (Hhome home eq_refl) as (f & _ & _ & Hmeta).
    unfold refKey. rewrite Hmeta. simpl.
    destruct (decide (Some _ = Some k)) as [[= ->] | Hne].
    + by rewrite lookup_singleton_eq.
    + rewrite lookup_singleton_ne by congruence. reflexivity.
  - eapply Forall_impl; [by apply context_paths |].
    intros p (f & _ & _ & ->). simpl. eauto.
Qed.

(** The page of the file [__proto__] is a page of the context, and the
    references do not name it. *)
Lemma getContext_pageRefs_name_the_last_page_witness :
  getContext Cases.protoHost "" "." Cases.protoNav "repo" "Site"
  = (Cases.protoBuild, Ok Cases.protoContext) /\
  (fun p => (title p, path (meta p))) <$> ctxPages Cases.protoContext
  = [("Proto", Some "__proto__"); ("Home", Some "docs/index.md")] /\
  pageRefs Cases.protoContext !! "__proto__" = None /\
  pageRefs Cases.protoContext !! "docs/index.md" = Some "Home".
Proof.
  assert (Hctx : getContext Cases.protoHost "" "." Cases.protoNav "repo" "Site"
                 = (Cases.protoBuild, Ok Cases.protoContext))
    by (vm_compute; reflexivity).
  split; [exact Hctx |]. split; [reflexivity |].
  split; rewrite (getContext_pageRefs_name_the_last_page _ _ _ _ _ _ _ _ Hctx); reflexivity.
Defined.

(** X7. The pages of the context are the pages of the leaves followed by the
    section pages, and the section pages follow the entries of the [Map] of
    the sections, in the order in which the section names were first met:
    each entry gives at most one page, in the order of the entries, and a
    page it gives is the one built from the existing index file of the
    directory inferred from the leaf pages of the section. A section without
    leaf page of its own gives none. The context carries the same entries as
    a plain object, which lists the names that are array indices first. *)
Theorem createSectionPages_follow_the_hierarchy
    (host : Host) (titlePrefix basePath : string) (nav : list navItem)
    (repo_url site_name : string) (b : Build) (ctx : Context) :
  getContext host titlePrefix basePath nav repo_url site_name = (b, Ok ctx) ->
  exists picks,
    ctxPages ctx = leafPages host titlePrefix repo_url basePath nav ++ omap id picks /\
    Forall2 (picked host titlePrefix repo_url basePath
               (leafPages host titlePrefix repo_url basePath nav))
            (sectionHierarchy b) picks /\
    sectionHierarchy b = setAll (sectionVisits None nav) [] /\
    ctxSectionHierarchy ctx = Object_fromEntries (sectionHierarchy b).
Proof.
  intros Hrun. rewrite (getContext_hierarchy _ _ _ _ _ _ _ _ Hrun).
  destruct (getContext_Ok _ _ _ _ _ _ _ _ Hrun) as (picks & -> & Hpicks & ->).
  exists picks. simpl. split; [reflexivity |]. split; [exact Hpicks |]. split; reflexivity.
Qed.

(** The section [Guides] is met before the section [2024]: the page of
    [Guides] comes first, and the object of the context lists [2024]
    first. *)
Lemma createSectionPages_follow_the_hierarchy_witness :
  getContext Cases.yearHost "" "site" Cases.yearNav "repo" "Site"
  = (Cases.yearBuild, Ok Cases.yearContext) /\
  sectionHierarchy Cases.yearBuild = [("Guides", None); ("2024", None)] /\
  ctxSectionHierarchy Cases.yearContext = [("2024", None); ("Guides", None)] /\
  title <$> ctxPages Cases.yearContext = ["Intro"; "News"; "Guides"; "2024"] /\
  exists picks,
    ctxPages Cases.yearContext
    = leafPages Cases.yearHost "" "repo" "site" Cases.yearNav ++ omap id picks /\
    length picks = 2%nat.
Proof.
  assert (Hctx : getContext Cases.yearHost "" "site" Cases.yearNav "repo" "Site"
                 = (Cases.yearBuild, Ok Cases.yearContext))
    by (vm_compute; reflexivity).
  split; [exact Hctx |]. split; [reflexivity |]. split; [reflexivity |].
  split; [reflexivity |].
  destruct (createSectionPages_follow_the_hierarchy _ _ _ _ _ _ _ _ Hctx)
    as (picks & Hpages & Hpicks & _).
  exists picks. split; [exact Hpages |].
  apply Forall2_length in Hpicks. rewrite <- Hpicks. reflexivity.
Defined.

(** ** The directory of a section *)

Lemma string_prefix_refl (s : string) : String.prefix s s = true.
Proof.
  induction s as [| c s IH]; [reflexivity |]. simpl.
  destruct (ascii_dec c c); [exact IH | congruence].
Qed.

Lemma split_nonempty sep s : JS.split sep s <> [].
Proof.
  destruct s as [| c r]; simpl; [discriminate |].
  destruct (Ascii.eqb c sep); [discriminate |]. by destruct (JS.split sep r).
Qed.

(** Splitting at a separator and joining with it gives the string back. *)
Lemma join_split sep s : JS.join sep (JS.split sep s) = s.
Proof.
  unfold JS.join. induction s as [| c r IH]; [reflexivity |]. simpl.
  destruct (Ascii.eqb_spec c sep) as [-> | Hne].
  - pose proof (split_nonempty sep r) as Hr.
    destruct (JS.split sep r) as [| h t] eqn:Hsplit; [congruence |].
    simpl. simpl in IH. by rewrite IH.
  - pose proof (split_nonempty sep r) as Hr.
    destruct (JS.split sep r) as [| h t] eqn:Hsplit; [congruence |].
    simpl in *. destruct t; simpl in *; by rewrite <- IH.
Qed.

Lemma mapO_Returned {A B} (f : A -> outcome B) xs : forall ys,
  mapO f xs = Returned ys -> Forall2 (fun x y => f x = Returned y) xs ys.
Proof.
  induction xs as [| x xs IH]; simpl; intros ys.
  - intros [= <-]. constructor.
  - destruct (f x) as [y | e] eqn:Hx; [| discriminate].
    destruct (mapO f xs) as [ys' | e]; [| discriminate].
    intros [= <-]. constructor; [exact Hx | by apply IH].
Qed.

Lemma commonPrefix_sound host parts relativePaths len prefix :
  commonPrefix host parts relativePaths len = Some prefix ->
  exists n, (0 < n <= len)%nat /\
            prefix = JS.join (sep host) (take n parts) /\
            forallb (fun p => JS.startsWith p prefix) relativePaths = true.
Proof.
  induction len as [| len IH]; simpl; [discriminate |].
  match goal with |- (if ?c then _ else _) = _ -> _ => destruct c eqn:Hall end.
  - intros [= <-]. exists (S len). split; [lia |]. split; [reflexivity | exact Hall].
  - intros Hrest. destruct (IH Hrest) as (n & Hn & Hp & Hfor).
    exists n. split; [lia | by split].
Qed.

(** X8. When [inferSectionDirectory] gives a directory, the directory is made of
    the leading components of the directory of one of the children, at least
    one of them, and it is a prefix, as a string, of the directory of every
    child that has one. *)
Theorem inferSectionDirectory_gives_a_common_string_prefix
    (host : Host) (children : list LocalPage) (d : string) :
  inferSectionDirectory host children = Returned (Some d) ->
  (exists c firstPath n,
     c ∈ children /\ relativeDir host c = Returned (Some firstPath) /\
     (0 < n <= length (JS.split (sep host) firstPath))%nat /\
     d = JS.join (sep host) (take n (JS.split (sep host) firstPath))) /\
  forall c dir,
    c ∈ children -> relativeDir host c = Returned (Some dir) ->
    JS.startsWith dir d = true.
Proof.
  unfold inferSectionDirectory. destruct children as [| c0 cs]; [discriminate |].
  set (children := c0 :: cs).
  destruct (mapO (relativeDir host) children) as [dirs | e] eqn:Hmap; [| discriminate].
  apply mapO_Returned in Hmap.
  assert (Hin : forall p, p ∈ omap id dirs <->
                          exists c, c ∈ children /\ relativeDir host c = Returned (Some p)).
  { intros p. rewrite list_elem_of_omap. split.
    - intros (o & Ho & Hp). simpl in Hp. subst o.
      apply list_elem_of_lookup in Ho as [i Hi].
      destruct (Forall2_lookup_r _ _ _ _ _ Hmap Hi) as (c & Hc & Hrel).
      exists c. split; [by eapply list_elem_of_lookup_2 | exact Hrel].
    - intros (c & Hc & Hrel). apply list_elem_of_lookup in Hc as [i Hi].
      destruct (Forall2_lookup_l _ _ _ _ _ Hmap Hi) as (o & Ho & Hrel').
      exists o. split; [by eapply list_elem_of_lookup_2 |]. simpl. congruence. }
  destruct (omap id dirs) as [| firstPath rest] eqn:Hpaths; [discriminate |].
  destruct (proj1 (Hin firstPath) ltac:(left)) as (cf & Hcf & Hfirst).
  destruct (forallb _ _) eqn:Hsame.
  - intros [= <-]. split.
    + exists cf, firstPath, (length (JS.split (sep host) firstPath)).
      split; [exact Hcf |]. split; [exact Hfirst |].
      pose proof (split_nonempty (sep host) firstPath) as Hne.
      split; [destruct (JS.split (sep host) firstPath); [congruence | simpl; lia] |].
      by rewrite take_ge, join_split.
    + intros c dir Hc Hrel.
      assert (Hdir : dir ∈ firstPath :: rest) by (apply Hin; eauto).
      rewrite forallb_forall in Hsame. apply list_elem_of_In in Hdir.
      apply Hsame in Hdir. apply String.eqb_eq in Hdir as ->. apply string_prefix_refl.
  - intros [= Hcommon]. apply commonPrefix_sound in Hcommon as (n & Hn & -> & Hall).
    split.
    + exists cf, firstPath, n. auto.
    + intros c dir Hc Hrel.
      assert (Hdir : dir ∈ firstPath :: rest) by (apply Hin; eauto).
      rewrite forallb_forall in Hall. apply list_elem_of_In in Hdir.
      by apply Hall in Hdir.
Qed.

(** Two children in [guides/ab] and [guides/abc]: the directory given is
    [guides/ab], a prefix of both as strings. *)
Lemma inferSectionDirectory_gives_a_common_string_prefix_witness :
  inferSectionDirectory Examples.guidesHost
    [Examples.pageAt "P" "site/docs/guides/ab/p.md" (Some "Guides");
     Examples.pageAt "Q" "site/docs/guides/abc/q.md" (Some "Guides")]
  = Returned (Some "guides/ab") /\
  JS.startsWith "guides/abc" "guides/ab" = true.
Proof.
  split; [reflexivity |].
  destruct (inferSectionDirectory_gives_a_common_string_prefix Examples.guidesHost
              [Examples.pageAt "P" "site/docs/guides/ab/p.md" (Some "Guides");
               Examples.pageAt "Q" "site/docs/guides/abc/q.md" (Some "Guides")]
              "guides/ab" eq_refl) as [_ Hall].
  apply (Hall (Examples.pageAt "Q" "site/docs/guides/abc/q.md" (Some "Guides")));
    [right; left | reflexivity].
Defined.

(** ** Strings *)

Lemma string_app_cons x (a b : string) : String x a +:+ b = String x (a +:+ b).
Proof. reflexivity. Qed.

Lemma string_app_assoc (a b c : string) : (a +:+ b) +:+ c = a +:+ (b +:+ c).
Proof.
  induction a as [| x a IH]; [reflexivity |]. by rewrite !string_app_cons, IH.
Qed.

Lemma string_app_nil_r (a : string) : a +:+ "" = a.
Proof. induction a as [| x a IH]; [reflexivity |]. by rewrite string_app_cons, IH. Qed.

Lemma string_app_length (a b : string) :
  String.length (a +:+ b) = (String.length a + String.length b)%nat.
Proof.
  induction a as [| x a IH]; [reflexivity |]. rewrite string_app_cons. simpl. by rewrite IH.
Qed.

Lemma chars_inj s1 s2 :
  String.list_ascii_of_string s1 = String.list_ascii_of_string s2 -> s1 = s2.
Proof.
  intros H. rewrite <- (String.string_of_list_ascii_of_string s1),
    <- (String.string_of_list_ascii_of_string s2). by rewrite H.
Qed.

Lemma chars_app (a b : string) :
  String.list_ascii_of_string (a +:+ b)
  = String.list_ascii_of_string a ++ String.list_ascii_of_string b.
Proof.
  induction a as [| x a IH]; [reflexivity |]. rewrite string_app_cons. simpl. by rewrite IH.
Qed.

Lemma string_rev_app_chars s1 : forall s2,
  String.list_ascii_of_string (String.rev_app s1 s2)
  = rev (String.list_ascii_of_string s1) ++ String.list_ascii_of_string s2.
Proof.
  induction s1 as [| c r IH]; intros s2; simpl; [reflexivity |].
  rewrite IH. simpl. by rewrite <- app_assoc.
Qed.

Lemma string_rev_chars s :
  String.list_ascii_of_string (String.rev s) = rev (String.list_ascii_of_string s).
Proof. unfold String.rev. rewrite string_rev_app_chars. simpl. by rewrite app_nil_r. Qed.

Lemma string_rev_involutive s : String.rev (String.rev s) = s.
Proof. apply chars_inj. by rewrite !string_rev_chars, rev_involutive. Qed.

Lemma string_rev_app (a b : string) :
  String.rev (a +:+ b) = String.rev b +:+ String.rev a.
Proof.
  apply chars_inj. by rewrite chars_app, !string_rev_chars, chars_app, rev_app_distr.
Qed.

Lemma string_rev_length s : String.length (String.rev s) = String.length s.
Proof.
  assert (Hlen : forall t, String.length t = length (String.list_ascii_of_string t)).
  { induction t as [| c t IH]; simpl; [reflexivity | by rewrite IH]. }
  by rewrite !Hlen, string_rev_chars, length_rev.
Qed.

Lemma string_rev_empty s : String.rev s = "" <-> s = "".
Proof.
  split; [| by intros ->]. intros H. apply (f_equal String.rev) in H.
  by rewrite string_rev_involutive in H.
Qed.

(** ** Trimming *)

Lemma stripPrefix_Some p : forall s r, JS.stripPrefix p s = Some r <-> s = p +:+ r.
Proof.
  induction p as [| a p IH]; intros s r.
  - change ("" +:+ r) with r. destruct s; simpl; split; congruence.
  - rewrite string_app_cons. destruct s as [| b s]; simpl; [split; discriminate |].
    destruct (Ascii.eqb_spec a b) as [-> | Hne].
    + rewrite IH. split; congruence.
    + split; [discriminate | congruence].
Qed.

Lemma stripOne_Some seqs s r :
  JS.stripOne seqs s = Some r -> exists w, w ∈ seqs /\ s = w +:+ r.
Proof.
  unfold JS.stripOne. intros (w & Hw & Hr)%head_omap_Some.
  apply stripPrefix_Some in Hr. eauto.
Qed.

Lemma stripOne_None seqs s :
  JS.stripOne seqs s = None <-> forall w r, w ∈ seqs -> s <> w +:+ r.
Proof.
  unfold JS.stripOne. split.
  - intros Hnone w r Hw Hs. apply stripPrefix_Some in Hs.
    assert (Hin : r ∈ omap (fun w => JS.stripPrefix w s) seqs).
    { apply list_elem_of_omap. eauto. }
    destruct (omap _ seqs); [by apply elem_of_nil in Hin | discriminate].
  - intros Hall. destruct (head _) as [r |] eqn:Hhead; [| reflexivity].
    apply head_omap_Some in Hhead as (w & Hw & Hr). apply stripPrefix_Some in Hr.
    by destruct (Hall w r Hw).
Qed.

Lemma dropAll_id seqs fuel s : JS.stripOne seqs s = None -> JS.dropAll seqs fuel s = s.
Proof. intros Hnone. destruct fuel; simpl; [reflexivity | by rewrite Hnone]. Qed.

(** What is dropped is made of the sequences, and what is left starts with
    none of them. *)
Lemma dropAll_split seqs fuel : forall s,
  exists pre, madeOf seqs pre /\ s = pre +:+ JS.dropAll seqs fuel s.
Proof.
  induction fuel as [| fuel IH]; intros s; simpl.
  - exists "". split; [constructor | reflexivity].
  - destruct (JS.stripOne seqs s) as [r |] eqn:Hstrip.
    + apply stripOne_Some in Hstrip as (w & Hw & ->).
      destruct (IH r) as (pre & Hpre & Hr). exists (w +:+ pre).
      split; [by constructor |]. rewrite string_app_assoc. by rewrite <- Hr.
    + exists "". split; [constructor | reflexivity].
Qed.

Lemma dropAll_fixed seqs fuel : forall s,
  Forall (fun w => w <> "") seqs ->
  (String.length s <= fuel)%nat ->
  JS.stripOne seqs (JS.dropAll seqs fuel s) = None.
Proof.
  intros s Hne. rewrite Forall_forall in Hne. revert s.
  induction fuel as [| fuel IH]; intros s Hlen; simpl.
  - destruct s; [| simpl in Hlen; lia]. apply stripOne_None. intros w r Hw Hs.
    apply (Hne w Hw). by destruct w.
  - destruct (JS.stripOne seqs s) as [r |] eqn:Hstrip; [| exact Hstrip].
    apply stripOne_Some in Hstrip as (w & Hw & ->). apply IH.
    rewrite string_app_length in Hlen. specialize (Hne w Hw).
    destruct w; [congruence | simpl in Hlen; lia].
Qed.

Lemma madeOf_app seqs a b : madeOf seqs a -> madeOf seqs b -> madeOf seqs (a +:+ b).
Proof.
  induction 1 as [| w s Hw _ IH]; intros Hb; [exact Hb |].
  rewrite string_app_assoc. constructor; [exact Hw | by apply IH].
Qed.

Lemma madeOf_rev seqs s : madeOf (String.rev <$> seqs) s -> madeOf seqs (String.rev s).
Proof.
  induction 1 as [| w s Hw _ IH]; [constructor |].
  apply list_elem_of_fmap in Hw as (w' & -> & Hw').
  rewrite string_rev_app, string_rev_involutive.
  apply madeOf_app; [exact IH |]. rewrite <- (string_app_nil_r w'). by repeat constructor.
Qed.

(** Of two prefixes of a string, one is a prefix of the other. *)
Lemma prefixes_compare (w : string) : forall w' r r',
  w +:+ r = w' +:+ r' -> String.prefix w w' = true \/ String.prefix w' w = true.
Proof.
  induction w as [| a w IH]; intros w' r r' Heq.
  - left. by destruct w'.
  - destruct w' as [| b w']; [by right |].
    injection Heq as -> Heq. destruct (IH w' r r' Heq) as [H | H]; [left | right];
      simpl; by destruct (ascii_dec b b).
Qed.

(** No white-space character is the start of another one. *)
Lemma whiteSpace_prefix_free w w' r r' :
  w ∈ JS.whiteSpace -> w' ∈ JS.whiteSpace -> w +:+ r = w' +:+ r' -> w = w'.
Proof.
  assert (Hall : Forall (fun w => Forall (fun w' => String.prefix w w' = true -> w = w')
                                         JS.whiteSpace) JS.whiteSpace).
  { apply (bool_decide_unpack _). vm_compute. exact I. }
  rewrite Forall_forall in Hall.
  intros Hw Hw' Heq. pose proof (Hall w Hw) as H1. pose proof (Hall w' Hw') as H2.
  rewrite Forall_forall in H1, H2.
  destruct (prefixes_compare w w' r r' Heq) as [H | H];
    [by apply H1 | symmetry; by apply H2].
Qed.

Lemma whiteSpace_nonempty : Forall (fun w => w <> "") JS.whiteSpace.
Proof. apply (bool_decide_unpack _). vm_compute. exact I. Qed.

Lemma whiteSpace_rev_nonempty : Forall (fun w => w <> "") (String.rev <$> JS.whiteSpace).
Proof. apply (bool_decide_unpack _). vm_compute. exact I. Qed.

(** [s.trimStart()] is empty exactly when [s] is white space only. *)
Lemma trimStart_blank s : JS.trimStart s = "" <-> blank s.
Proof.
  unfold JS.trimStart, blank. split.
  - intros Hempty. destruct (dropAll_split JS.whiteSpace (String.length s) s)
      as (pre & Hpre & Hs).
    rewrite Hempty, string_app_nil_r in Hs. by subst pre.
  - intros Hblank.
    cut (forall fuel, (String.length s <= fuel)%nat -> JS.dropAll JS.whiteSpace fuel s = "").
    { intros Hall. by apply Hall. }
    induction Hblank as [| w s Hw _ IH]; intros fuel Hlen.
    + by destruct fuel.
    + pose proof whiteSpace_nonempty as Hne. rewrite Forall_forall in Hne.
      specialize (Hne w Hw). rewrite string_app_length in Hlen.
      destruct fuel as [| fuel]; [destruct w; [congruence | simpl in Hlen; lia] |].
      simpl. destruct (JS.stripOne JS.whiteSpace (w +:+ s)) as [r |] eqn:Hstrip.
      * apply stripOne_Some in Hstrip as (w' & Hw' & Heq).
        pose proof (whiteSpace_prefix_free _ _ _ _ Hw Hw' Heq) as <-.
        apply (inj (String.app w)) in Heq as <-. apply IH.
        destruct w; [congruence | simpl in Hlen; lia].
      * rewrite stripOne_None in Hstrip. by destruct (Hstrip w s Hw).
Qed.

(** [s.trim()] is empty exactly when [s] is white space only. *)
Lemma trim_blank s : JS.trim s = "" <-> blank s.
Proof.
  split.
  - unfold JS.trim, JS.trimEnd. rewrite string_rev_empty. intros Hempty.
    destruct (dropAll_split JS.whiteSpace (String.length s) s) as (pre & Hpre & Hs).
    fold (JS.trimStart s) in Hs.
    destruct (dropAll_split (String.rev <$> JS.whiteSpace)
                (String.length (JS.trimStart s)) (String.rev (JS.trimStart s)))
      as (post & Hpost & Ht).
    rewrite Hempty, string_app_nil_r in Ht. subst post. apply madeOf_rev in Hpost.
    rewrite string_rev_involutive in Hpost. rewrite Hs. by apply madeOf_app.
  - intros Hblank. apply trimStart_blank in Hblank. unfold JS.trim. by rewrite Hblank.
Qed.

Lemma prefix_split (w : string) : forall x,
  String.prefix w x = true -> exists r, x = w +:+ r.
Proof.
  induction w as [| a w IH]; intros x Hp.
  - exists x. reflexivity.
  - destruct x as [| b x]; [discriminate Hp |]. simpl in Hp.
    destruct (ascii_dec a b) as [-> | Hne]; [| discriminate Hp].
    destruct (IH x Hp) as (r & ->). by exists r.
Qed.

(** A trimmed string neither starts nor ends with white space, and trimming
    leaves it as it is. *)
Lemma trim_trimmed s :
  (forall w, w ∈ JS.whiteSpace ->
     JS.startsWith (JS.trim s) w = false /\ endsWith (JS.trim s) w = false) /\
  JS.trim (JS.trim s) = JS.trim s.
Proof.
  set (t := JS.trimStart s).
  assert (Ht : JS.stripOne JS.whiteSpace t = None).
  { apply dropAll_fixed; [apply whiteSpace_nonempty | reflexivity]. }
  set (u := JS.dropAll (String.rev <$> JS.whiteSpace) (String.length t) (String.rev t)).
  assert (Hu : JS.stripOne (String.rev <$> JS.whiteSpace) u = None).
  { apply dropAll_fixed; [apply whiteSpace_rev_nonempty | by rewrite string_rev_length]. }
  assert (Htrim : JS.trim s = String.rev u) by reflexivity.
  destruct (dropAll_split (String.rev <$> JS.whiteSpace) (String.length t) (String.rev t))
    as (post & _ & Hsplit).
  fold u in Hsplit.
  assert (Hprefix : t = String.rev u +:+ String.rev post).
  { rewrite <- string_rev_app, <- Hsplit. by rewrite string_rev_involutive. }
  assert (Hstart : JS.stripOne JS.whiteSpace (String.rev u) = None).
  { apply stripOne_None. intros w r Hw Heq. rewrite stripOne_None in Ht.
    apply (Ht w (r +:+ String.rev post) Hw). by rewrite Hprefix, Heq, string_app_assoc. }
  split.
  - intros w Hw. rewrite Htrim. split.
    + unfold JS.startsWith. destruct (String.prefix w (String.rev u)) eqn:Hp; [| reflexivity].
      apply prefix_split in Hp as (r & Hr). rewrite stripOne_None in Hstart.
      by destruct (Hstart w r Hw).
    + unfold endsWith. rewrite string_rev_involutive.
      destruct (String.prefix (String.rev w) u) eqn:Hp; [| reflexivity].
      apply prefix_split in Hp as (r & Hr). rewrite stripOne_None in Hu.
      destruct (Hu (String.rev w) r); [| exact Hr].
      apply list_elem_of_fmap. eauto.
  - rewrite Htrim. unfold JS.trim, JS.trimStart. rewrite (dropAll_id _ _ _ Hstart).
    unfold JS.trimEnd. rewrite string_rev_involutive, (dropAll_id _ _ _ Hu). reflexivity.
Qed.

(** ** The configuration [loadConfig] accepts *)

(** X9. [loadConfig] returns exactly when the file is read and parsed to a
    mapping whose [nav] is a sequence and whose [repo_url] is a string that is
    not white space only; it then returns the two with the [site_name] of the
    mapping as it is, whatever it is, [undefined] included. A value whose
    [nav] is not a sequence is refused for its [nav], whatever its
    [repo_url]. *)
Theorem loadConfig_accepts_nav_and_repo_url
    (host : Host) (readFileSync : string -> outcome string)
    (parseYaml : string -> outcome jsValue) (basePath : string) :
  (forall cfg,
     loadConfig host readFileSync parseYaml basePath = inr cfg <->
     exists yml props,
       readFileSync (resolve host [basePath; "mkdocs.yml"]) = Returned yml /\
       parseYaml yml = Returned (JObject props) /\
       Map_get "nav" props = Some (JArray (cfgNav cfg)) /\
       Map_get "repo_url" props = Some (JString (cfgRepoUrl cfg)) /\
       ~ blank (cfgRepoUrl cfg) /\
       cfgSiteName cfg = default JUndefined (Map_get "site_name" props)) /\
  (forall yml json,
     readFileSync (resolve host [basePath; "mkdocs.yml"]) = Returned yml ->
     parseYaml yml = Returned json ->
     json <> JNull -> json <> JUndefined ->
     (forall props items, json = JObject props -> Map_get "nav" props <> Some (JArray items)) ->
     loadConfig host readFileSync parseYaml basePath = inl NavMissing).
Proof.
  split.
  - intros cfg. unfold loadConfig, MKDOCS_YML. split.
    + destruct (readFileSync _) as [yml | e] eqn:Hread; [| discriminate].
      destruct (parseYaml yml) as [json | e] eqn:Hparse; [| discriminate].
      destruct json as [| | b | n | s | items | props]; simpl; try discriminate.
      destruct (Map_get "nav" props) as [[| | | | | items |] |] eqn:Hnav;
        simpl; try discriminate.
      destruct (Map_get "repo_url" props) as [[| | | | url | |] |] eqn:Hurl;
        simpl; try discriminate.
      destruct (Nat.eqb _ 0) eqn:Hlen; [discriminate |].
      intros [= <-]. exists yml, props. simpl. repeat split; try assumption.
      intros Hblank. apply trim_blank in Hblank. rewrite Hblank in Hlen. discriminate.
    + intros (yml & props & -> & -> & Hnav & Hurl & Hblank & Hsite). simpl.
      rewrite Hnav, Hurl. simpl.
      destruct (Nat.eqb _ 0) eqn:Hlen.
      * exfalso. apply Hblank, trim_blank. apply Nat.eqb_eq in Hlen.
        by destruct (JS.trim (cfgRepoUrl cfg)).
      * destruct cfg. simpl in *. by rewrite Hsite.
  - intros yml json Hread Hparse Hnull Hundef Hnav. unfold loadConfig, MKDOCS_YML.
    rewrite Hread, Hparse.
    destruct json as [| | b | n | s | items | props]; simpl; try reflexivity; try congruence.
    specialize (Hnav props).
    destruct (Map_get "nav" props) as [[| | | | | items |] |]; simpl; try reflexivity.
    by destruct (Hnav items eq_refl).
Qed.

(** A [repo_url] made of a no-break space and an ideographic space is white
    space only, and the configuration is refused. *)
Lemma loadConfig_accepts_nav_and_repo_url_witness :
  let url := JS.ofBytes [194; 160; 227; 128; 128]%N in
  let parseYaml := fun _ : string =>
    Returned (JObject [("nav", JArray []); ("repo_url", JString url)]) in
  blank url /\
  loadConfig Examples.guidesHost Returned parseYaml "." = inl RepoUrlMissing /\
  forall cfg, loadConfig Examples.guidesHost Returned parseYaml "." <> inr cfg.
Proof.
  cbv zeta.
  assert (Hblank : blank (JS.ofBytes [194; 160; 227; 128; 128]%N)).
  { apply (madeOf_more _ (JS.ofBytes [194; 160]%N) (JS.ofBytes [227; 128; 128]%N)).
    - apply (bool_decide_unpack _). vm_compute. exact I.
    - rewrite <- (string_app_nil_r (JS.ofBytes [227; 128; 128]%N)).
      constructor; [| constructor]. apply (bool_decide_unpack _). vm_compute. exact I. }
  split; [exact Hblank |]. split; [vm_compute; reflexivity |].
  intros cfg Hcfg.
  destruct (loadConfig_accepts_nav_and_repo_url Examples.guidesHost Returned
              (fun _ => Returned (JObject [("nav", JArray []);
                                           ("repo_url",
                                            JString (JS.ofBytes [194; 160; 227; 128; 128]%N))]))
              ".") as [Hiff _].
  apply Hiff in Hcfg as (yml & props & _ & [= <-] & _ & [= Hurl] & Hnot & _).
  apply Hnot. rewrite <- Hurl. exact Hblank.
Defined.

(** ** The home page *)

Section HomeFacts.
Context {W : Type}.
Variable confluence : Confluence W.
Variable config : Config.

(** What a run of [findParentPage] amounts to. *)
Lemma findParentPage_run (s : Run W) :
  exists finds r,
    findParentPage confluence config s = (mkRun (world s) (trace s ++ finds), r) /\
    Forall isFindPage finds /\
    match r with
    | Ok parentPageId =>
        configuredParent confluence config (world s) parentPageId /\
        Forall callReturned finds
    | Throw _ => True
    | OutOfFuel => False
    end.
Proof.
  unfold findParentPage, configuredParent.
  destruct (parentPage config) as [[| c t] |].
  - exists [], (Ok None). rewrite app_nil_r. destruct s. repeat split; constructor.
  - unfold bind, findPageM.
    destruct (findPage confluence (String c t) (world s)) as [[p |] | e] eqn:Hfind; simpl.
    + eexists [_], _. split; [reflexivity |]. split; [repeat constructor |].
      split; [eauto | repeat constructor].
    + eexists [_], _. split; [reflexivity |]. split; [repeat constructor | exact I].
    + eexists [_], _. split; [reflexivity |]. split; [repeat constructor | exact I].
  - exists [], (Ok None). rewrite app_nil_r. destruct s. repeat split; constructor.
Qed.

End HomeFacts.

(** What a run of [syncHome] amounts to. *)
Lemma syncHome_run
    {W} (confluence : Confluence W) (config : Config) (repo' siteName : string)
    (readMe : option LocalPage) (s s' : Run W) (r : result Z) :
  syncHome confluence config repo' siteName readMe s = (s', r) ->
  syncedOnce confluence config repo' siteName readMe s s' r.
Proof.
  unfold syncHome. fold (homeLocalPage repo' siteName readMe). unfold bind at 1.
  destruct (findParentPage_run confluence config s) as (finds & r0 & -> & Hfinds & Hr0).
  destruct r0 as [parentPageId | e |]; [| | contradiction].
  2:{ intros [= <- <-]. exists finds. split; [exact Hfinds |]. left. simpl. eauto. }
  destruct Hr0 as [Hparent Hret]. unfold bind at 1. unfold findPageM at 1. simpl.
  set (lp := setParentPageId parentPageId (homeLocalPage repo' siteName readMe)).
  destruct (findPage confluence siteName (world s)) as [found | e] eqn:Hfound; simpl.
  2:{ intros [= <- <-]. exists (finds ++ [FindPage AtHome siteName (Threw e)]).
      split; [apply Forall_app; split; [exact Hfinds | repeat constructor] |].
      left. simpl. rewrite app_assoc. eauto. }
  assert (Hsync :
            (forall remotePage, found = Some remotePage ->
                                repoConflict (setLocalPage lp remotePage) = false) ->
            bind (syncM confluence AtHome (homePage found lp))
                 (fun synced => match synced with
                                | Some p => ret (remoteId p)
                                | None => throw (TypeError
                                    "Cannot read properties of undefined (reading 'id')")
                                end)
                 (mkRun (world s) ((trace s ++ finds)
                                     ++ [FindPage AtHome siteName (Returned found)]))
            = (s', r) ->
            syncedOnce confluence config repo' siteName readMe s s' r).
  { intros Hfree. unfold bind, syncM. simpl.
    destruct (pageSync confluence (homePage found lp) (world s)) as [w out] eqn:Hout.
    intros Hrun. exists (finds ++ [FindPage AtHome siteName (Returned found)]).
    split; [apply Forall_app; split; [exact Hfinds | repeat constructor] |].
    right. exists finds, found, out, parentPageId.
    assert (Hs' : s' = mkRun w (((trace s ++ finds)
                                   ++ [FindPage AtHome siteName (Returned found)])
                                  ++ [Sync AtHome (homePage found lp) out]) /\
                  r = match out with
                      | Returned (Some p) => Ok (remoteId p)
                      | Returned None =>
                          Throw (TypeError "Cannot read properties of undefined (reading 'id')")
                      | Threw e => Throw e
                      end).
    { destruct out as [[p |] | e]; simpl in Hrun; by injection Hrun as <- <-. }
    destruct Hs' as [-> ->]. simpl. rewrite <- !app_assoc.
    split; [reflexivity |]. split; [reflexivity |]. split; [exact Hout |].
    split; [exact Hparent |]. split; [exact Hfree |]. split; [| reflexivity].
    apply Forall_app. split; [exact Hret | repeat constructor]. }
  destruct found as [found |].
  - destruct (repoConflict (setLocalPage lp found)) eqn:Hconflict.
    + unfold bind, throw. intros [= <- <-].
      exists (finds ++ [FindPage AtHome siteName (Returned (Some found))]).
      split; [apply Forall_app; split; [exact Hfinds | repeat constructor] |].
      left. simpl. rewrite app_assoc. eauto.
    + unfold bind at 1. unfold ret at 1. apply Hsync. by intros ? [= <-].
  - unfold bind at 1. unfold ret at 1. apply Hsync. discriminate.
Qed.

(** X10. Whatever its outcome, [syncHome] reads the store by title and then makes
    at most one [sync] call, its last call, and the store changes by that
    call only. The call is made on the page found under the site name, when
    there is one and it does not conflict, and on the local page otherwise;
    either way the local page carries, as parent id, the id of the page
    configured as parent. [syncHome] returns exactly when the call resolves
    to a page, with the id of that page. *)
Theorem syncHome_syncs_the_home_page_once
    {W} (confluence : Confluence W) (config : Config) (repo' siteName : string)
    (readMe : option LocalPage) (s s' : Run W) (r : result Z) :
  syncHome confluence config repo' siteName readMe s = (s', r) ->
  exists finds,
    Forall isFindPage finds /\
    ((world s' = world s /\ trace s' = trace s ++ finds /\ exists e, r = Throw e) \/
     (exists parentFinds found out parentPageId,
        let localPage :=
          setParentPageId parentPageId (homeLocalPage repo' siteName readMe) in
        finds = parentFinds ++ [FindPage AtHome siteName (Returned found)] /\
        trace s' = trace s ++ finds ++ [Sync AtHome (homePage found localPage) out] /\
        pageSync confluence (homePage found localPage) (world s) = (world s', out) /\
        configuredParent confluence config (world s) parentPageId /\
        (forall remotePage, found = Some remotePage ->
                            repoConflict (setLocalPage localPage remotePage) = false) /\
        Forall callReturned finds /\
        r = match out with
            | Returned (Some p) => Ok (remoteId p)
            | Returned None =>
                Throw (TypeError "Cannot read properties of undefined (reading 'id')")
            | Threw e => Throw e
            end)).
Proof. apply syncHome_run. Qed.

(** On an empty store and without configured parent, the home page made of
    the site name is created, and its id is returned. *)
Lemma syncHome_syncs_the_home_page_once_witness :
  syncHome SpecStore.sdk Examples.noConfig "repo" "Site" None (Examples.start SpecStore.empty)
  = Stores.createdHome /\
  Stores.createdHome.2 = Ok 1 /\
  exists out,
    trace Stores.createdHome.1
    = [FindPage AtHome "Site" (Returned None);
       Sync AtHome (Local (setParentPageId None (homeLocalPage "repo" "Site" None))) out].
Proof.
  assert (Hrun : syncHome SpecStore.sdk Examples.noConfig "repo" "Site" None
                   (Examples.start SpecStore.empty)
                 = (Stores.createdHome.1, Stores.createdHome.2))
    by (vm_compute; reflexivity).
  split; [vm_compute; reflexivity |]. split; [reflexivity |].
  destruct (syncHome_syncs_the_home_page_once _ _ _ _ _ _ _ _ Hrun)
    as (finds & _ & [(_ & _ & e & He) | (pf & found & out & pid & _)]).
  - discriminate He.
  - eexists. reflexivity.
Defined.

(** X11. When the page configured as parent is not in the store, [sync] stops
    there: it has looked the parent up, reports the failure, and has not
    looked for the home page nor written anything. *)
Theorem sync_stops_when_the_parent_page_is_missing
    {W} (confluence : Confluence W) (config : Config) (fuel : nat) (ctx : Context)
    (s : Run W) (t : string) :
  parentPage config = Some t -> t <> "" ->
  findPage confluence t (world s) = Returned None ->
  sync confluence config fuel (Ok ctx) s
  = (mkRun (world s)
           (trace s ++ [FindPage AtHome t (Returned None); LogFail (ParentPageMissing t)]),
     Ok tt).
Proof.
  intros Hconfig Ht Hfind.
  unfold sync, tryCatch, bind, liftR, syncHome, bind, findParentPage.
  rewrite Hconfig. destruct t as [| c t]; [congruence |].
  unfold bind, findPageM. rewrite Hfind. simpl.
  unfold errorHandler, log, modify. simpl. by rewrite <- app_assoc.
Qed.

Lemma sync_stops_when_the_parent_page_is_missing_witness :
  sync SpecStore.sdk Stores.underDocs 10 (Ok Examples.bareContext)
       (Examples.start SpecStore.empty)
  = (mkRun SpecStore.empty
           [FindPage AtHome "Docs" (Returned None); LogFail (ParentPageMissing "Docs")],
     Ok tt).
Proof.
  apply (sync_stops_when_the_parent_page_is_missing SpecStore.sdk Stores.underDocs 10
           Examples.bareContext (Examples.start SpecStore.empty) "Docs");
    [reflexivity | discriminate | reflexivity].
Defined.

(** ** Loops of calls *)

Lemma ranUntil_cons {A B} n (o : A) (outs : list (outcome A)) (r : result B) :
  ranUntil n outs r -> ranUntil (S n) (Returned o :: outs) r.
Proof.
  destruct r as [b | e |]; simpl; [| | trivial].
  - intros [<- Hall]. split; [reflexivity | by constructor].
  - intros (done & -> & Hall & Hlen). exists (Returned o :: done).
    split; [reflexivity |]. split; [by constructor | simpl; lia].
Qed.

Lemma ranUntil_threw {A} (B : Type) n (e : error) :
  @ranUntil A B (S n) [Threw e] (Throw e).
Proof. exists []. simpl. split; [reflexivity |]. split; [constructor | lia]. Qed.

Section CallLoops.
Context {W : Type}.
Variable confluence : Confluence W.

(** What a run of [unpublish] amounts to. *)
Lemma unpublish_run remotePages : forall (s s' : Run W) r,
  unpublish confluence remotePages s = (s', r) ->
  exists outs,
    trace s' = trace s ++ deleteTrace (remoteId <$> remotePages) outs /\
    ranUntil (length remotePages) outs r.
Proof.
  unfold unpublish, deleteTrace.
  induction remotePages as [| p rest IH]; intros s s' r Hrun; simpl in Hrun.
  - injection Hrun as <- <-. exists []. simpl. rewrite app_nil_r.
    split; [reflexivity |]. split; [reflexivity | constructor].
  - unfold bind, deletePageM in Hrun.
    destruct (deletePage confluence (remoteId p) (world s)) as [w [[] | e]];
      cbn [ofOutcome] in Hrun.
    + destruct (IH _ _ _ Hrun) as (outs & Htrace & Hran).
      exists (Returned tt :: outs). split.
      * rewrite Htrace. simpl. by rewrite <- app_assoc.
      * by apply ranUntil_cons.
    + injection Hrun as <- <-. exists [Threw e]. simpl. rewrite zip_with_nil_r.
      split; [reflexivity |]. exact (ranUntil_threw unit (length rest) e).
Qed.

(** What a run of the [sync] loop of a level amounts to. *)
Lemma syncUnion_run k union : forall idx (s s' : Run W) r,
  syncUnion confluence k union idx s = (s', r) ->
  exists outs,
    trace s' = trace s ++ syncTrace k union outs /\
    ranUntil (length union) outs r.
Proof.
  unfold syncTrace. induction union as [| u rest IH]; intros idx s s' r Hrun; simpl in Hrun.
  - injection Hrun as <- <-. exists []. simpl. rewrite app_nil_r.
    split; [reflexivity |]. split; [reflexivity | constructor].
  - unfold bind, syncM in Hrun.
    destruct (pageSync confluence u (world s)) as [w [sp | e]]; cbn [ofOutcome] in Hrun.
    + destruct (IH _ _ _ _ Hrun) as (outs & Htrace & Hran).
      exists (Returned sp :: outs). split.
      * rewrite Htrace. simpl. by rewrite <- app_assoc.
      * by apply ranUntil_cons.
    + injection Hrun as <- <-. exists [Threw e]. simpl. rewrite zip_with_nil_r.
      split; [reflexivity |]. exact (ranUntil_threw (gmap (option string) Z) (length rest) e).
Qed.

End CallLoops.

(** ** Removing pages *)

(** X12. [unpublish] deletes the pages in their order, one call each, and stops
    at the first call that throws, which is what it throws; it returns once
    every page is deleted. *)
Theorem unpublish_stops_at_the_first_failure
    {W} (confluence : Confluence W) (remotePages : list RemotePage)
    (s s' : Run W) (r : result unit) :
  unpublish confluence remotePages s = (s', r) ->
  exists outcomes,
    trace s' = trace s ++ deleteTrace (remoteId <$> remotePages) outcomes /\
    ranUntil (length remotePages) outcomes r.
Proof.
  apply unpublish_run.
Qed.

Lemma unpublish_stops_at_the_first_failure_witness :
  unpublish SpecStore.sdk [Stores.childA; Stores.childB] (Examples.start Stores.published)
  = Stores.unpublished /\
  SpecStore.remote (world Stores.unpublished.1) = [Stores.siteHome] /\
  exists outcomes,
    trace Stores.unpublished.1 = deleteTrace [2; 3] outcomes /\
    length outcomes = 2%nat /\ Forall returned outcomes.
Proof.
  assert (Hrun : unpublish SpecStore.sdk [Stores.childA; Stores.childB]
                   (Examples.start Stores.published)
                 = (Stores.unpublished.1, Ok tt))
    by (vm_compute; reflexivity).
  split; [vm_compute; reflexivity |]. split; [reflexivity |].
  apply (unpublish_stops_at_the_first_failure _ _ _ _ _ Hrun).
Defined.

(** X13. When the site has a home page, [cleanup] fetches the children of the
    home page and deletes them in the order of the fetch, then the home
    page, then writes the summary. A call that throws ends the deletions:
    the failure is reported in place of the summary, and the home page is
    deleted only after each of the children was. [cleanup] deletes no other
    page, and does not throw. *)
Theorem cleanup_deletes_the_children_then_the_home_page
    {W} (confluence : Confluence W) (ctx : Context) (s s' : Run W) (r : result unit)
    (home : RemotePage) (remotePages : list (string * RemotePage)) :
  findPage confluence (siteName ctx) (world s) = Returned (Some home) ->
  getChildPages confluence (Some (remoteId home)) (world s) = Returned remotePages ->
  cleanup confluence (Ok ctx) s = (s', r) ->
  r = Ok tt /\
  exists outcomes last,
    trace s'
    = trace s
        ++ [FindPage AtCleanup (siteName ctx) (Returned (Some home));
            GetChildPages AtCleanup (Some (remoteId home)) (Returned remotePages)]
        ++ deleteTrace ((remoteId <$> Map_values remotePages) ++ [remoteId home]) outcomes
        ++ [last] /\
    ((length outcomes = S (length remotePages) /\ Forall returned outcomes /\
      last = SummaryCleanup (siteName ctx)) \/
     (exists done e, outcomes = done ++ [Threw e] /\ Forall returned done /\
                     (length done <= length remotePages)%nat /\ last = LogFail e)).
Proof.
  intros Hhome Hchildren. unfold cleanup. unfold bind at 1. unfold liftR at 1.
  unfold tryCatch, bind at 1. unfold findPageM at 1. rewrite Hhome. cbn [ofOutcome].
  unfold bind at 1. unfold getChildPagesM at 1. cbn [world trace]. rewrite Hchildren.
  cbn [ofOutcome]. unfold bind at 1.
  set (s1 := mkRun (world s)
               ((trace s ++ [FindPage AtCleanup (siteName ctx) (Returned (Some home))])
                  ++ [GetChildPages AtCleanup (Some (remoteId home)) (Returned remotePages)])).
  destruct (unpublish confluence (Map_values remotePages) s1) as [s2 r1] eqn:Hrun1.
  destruct (unpublish_run confluence _ _ _ _ Hrun1) as (outs1 & Htrace1 & Hran1).
  assert (Hlen : length (Map_values remotePages) = length remotePages)
    by (unfold Map_values; by rewrite length_fmap).
  assert (Hids : length (remoteId <$> Map_values remotePages) = length remotePages)
    by (by rewrite length_fmap).
  destruct r1 as [[] | e |]; simpl in Hran1; [| | contradiction].
  - destruct Hran1 as [Hlen1 Hret1]. unfold bind at 1.
    destruct (unpublish confluence [home] s2) as [s3 r2] eqn:Hrun2.
    destruct (unpublish_run confluence _ _ _ _ Hrun2) as (outs2 & Htrace2 & Hran2).
    destruct r2 as [[] | e |]; simpl in Hran2; [| | contradiction].
    + destruct Hran2 as [Hlen2 Hret2]. unfold log, modify. intros [= <- <-].
      split; [reflexivity |]. exists (outs1 ++ outs2), (SummaryCleanup (siteName ctx)).
      split.
      * simpl. rewrite Htrace2, Htrace1. unfold s1, deleteTrace. simpl.
        rewrite zip_with_app by (rewrite Hids; lia).
        rewrite <- !app_assoc. reflexivity.
      * left. rewrite length_app, Hlen1, Hlen2, Hlen. simpl.
        split; [lia |]. split; [by apply Forall_app | reflexivity].
    + destruct Hran2 as (done2 & -> & Hret2 & Hlen2). unfold errorHandler, log, modify.
      intros [= <- <-]. split; [reflexivity |].
      exists (outs1 ++ done2 ++ [Threw e]), (LogFail e). split.
      * simpl. rewrite Htrace2, Htrace1. unfold s1, deleteTrace. simpl.
        rewrite zip_with_app by (rewrite Hids; lia).
        rewrite <- !app_assoc. reflexivity.
      * right. exists (outs1 ++ done2), e. rewrite <- app_assoc.
        split; [reflexivity |]. split; [by apply Forall_app |].
        simpl in Hlen2. destruct done2; [| simpl in Hlen2; lia].
        rewrite app_nil_r. split; [lia | reflexivity].
  - destruct Hran1 as (done1 & -> & Hret1 & Hlen1). unfold errorHandler, log, modify.
    intros [= <- <-]. split; [reflexivity |].
    exists (done1 ++ [Threw e]), (LogFail e). split.
    + simpl. rewrite Htrace1. unfold s1, deleteTrace. simpl.
      assert (Hzip : forall (ids more : list Z) (outs : list (outcome unit)),
                (length outs <= length ids)%nat ->
                zip_with (DeletePage AtCleanup) (ids ++ more) outs
                = zip_with (DeletePage AtCleanup) ids outs).
      { clear. induction ids as [| i ids IH]; intros more [| o outs] Hle; simpl in *;
          try reflexivity; try lia.
        - by destruct more.
        - f_equal. apply IH. lia. }
      rewrite Hzip by (rewrite Hids, length_app; simpl; lia).
      rewrite <- !app_assoc. reflexivity.
    + right. exists done1, e. split; [reflexivity |]. split; [exact Hret1 |].
      split; [lia | reflexivity].
Qed.

Lemma cleanup_deletes_the_children_then_the_home_page_witness :
  cleanup SpecStore.sdk (Ok Examples.bareContext) (Examples.start Stores.published)
  = Stores.cleanedUp /\
  SpecStore.remote (world Stores.cleanedUp.1) = [] /\
  exists calls outcomes last,
    trace Stores.cleanedUp.1 = calls ++ deleteTrace [2; 3; 1] outcomes ++ [last] /\
    length calls = 2%nat.
Proof.
  assert (Hrun : cleanup SpecStore.sdk (Ok Examples.bareContext)
                   (Examples.start Stores.published)
                 = (Stores.cleanedUp.1, Stores.cleanedUp.2))
    by (vm_compute; reflexivity).
  split; [vm_compute; reflexivity |]. split; [reflexivity |].
  destruct (cleanup_deletes_the_children_then_the_home_page SpecStore.sdk
              Examples.bareContext (Examples.start Stores.published) _ _
              Stores.siteHome
              [("docs/a.md", Stores.childA); ("docs/b.md", Stores.childB)]
              eq_refl eq_refl Hrun) as (_ & outs & fin & Htrace & _).
  eexists _, outs, fin. split; [exact Htrace | reflexivity].
Defined.

(** ** The walk over the levels *)

Lemma fetchedAt_app k h1 h2 : fetchedAt k (h1 ++ h2) <-> fetchedAt k h1 \/ fetchedAt k h2.
Proof.
  unfold fetchedAt. split.
  - intros (pid & out & [H | H]%elem_of_app); eauto.
  - intros [(pid & out & H) | (pid & out & H)]; exists pid, out; apply elem_of_app; auto.
Qed.

Lemma fetchedAt_syncTrace k k' union outs : ~ fetchedAt k (syncTrace k' union outs).
Proof.
  intros (pid & out & Hin). unfold syncTrace in Hin.
  apply list_elem_of_lookup in Hin as [i Hi].
  apply lookup_zip_with_Some in Hi as (u & o & Heq & _). discriminate Heq.
Qed.

Lemma closedUnderDescent_app pagesAt descend h1 h2 :
  closedUnderDescent pagesAt descend h1 ->
  closedUnderDescent pagesAt descend h2 ->
  closedUnderDescent pagesAt descend (h1 ++ h2).
Proof.
  intros H1 H2 k p [Hk | Hk]%fetchedAt_app Hp Hd; apply fetchedAt_app; eauto.
Qed.

Section Walk.
Context {W : Type}.
Variable confluence : Confluence W.
Variable pagesByParent : gmap (option string) (list LocalPage).
Variable sectionPages : gmap string LocalPage.

Local Abbreviation pagesAt := (levelPages pagesByParent).
Local Abbreviation descend := (fun p : LocalPage => is_Some (sectionPages !! title p)).

Lemma processSections_walk
    (recur : option string -> gmap (option string) Z -> M (Run W) (gmap (option string) Z)) :
  walkSpec pagesAt descend recur ->
  forall todo idx s s' r,
    processSections sectionPages recur todo idx s = (s', r) ->
    exists new,
      trace s' = trace s ++ new /\
      forall idx', r = Ok idx' ->
        closedUnderDescent pagesAt descend new /\
        forall p, p ∈ todo -> descend p -> fetchedAt (Some (title p)) new.
Proof.
  intros Hrecur. induction todo as [| p rest IH]; intros idx s s' r Hrun.
  - injection Hrun as <- <-. exists []. rewrite app_nil_r. split; [reflexivity |].
    intros _ _. split.
    + intros k p (pid & out & Hin). by apply elem_of_nil in Hin.
    + intros p Hp. by apply elem_of_nil in Hp.
  - simpl in Hrun. destruct (sectionPages !! title p) as [child |] eqn:Hsection.
    + unfold bind in Hrun.
      destruct (recur (Some (title p)) idx s) as [s1 r1] eqn:Hchild.
      destruct (Hrecur _ _ _ _ _ Hchild) as (new1 & Htrace1 & Hok1).
      destruct r1 as [idx1 | e |].
      * destruct (IH _ _ _ _ Hrun) as (new2 & Htrace2 & Hok2).
        exists (new1 ++ new2). split; [rewrite Htrace2, Htrace1; by rewrite app_assoc |].
        intros idx' Hr. destruct (Hok1 idx1 eq_refl) as [(remote & rest1 & Hnew1) Hclosed1].
        destruct (Hok2 idx' Hr) as [Hclosed2 Hall2].
        split; [by apply closedUnderDescent_app |].
        intros q [-> | Hq]%elem_of_cons Hd; apply fetchedAt_app.
        -- left. rewrite Hnew1. eexists _, _. left.
        -- right. by apply Hall2.
      * injection Hrun as <- <-. exists new1. split; [exact Htrace1 |]. intros ? [=].
      * injection Hrun as <- <-. exists new1. split; [exact Htrace1 |]. intros ? [=].
    + destruct (IH _ _ _ _ Hrun) as (new & Htrace & Hok). exists new.
      split; [exact Htrace |]. intros idx' Hr. destruct (Hok idx' Hr) as [Hclosed Hall].
      split; [exact Hclosed |].
      intros q [-> | Hq]%elem_of_cons Hd; [| by apply Hall].
      rewrite Hsection in Hd. by destruct Hd.
Qed.

Lemma processLevel_walk fuel :
  walkSpec pagesAt descend (processLevel confluence pagesByParent sectionPages fuel).
Proof.
  induction fuel as [| fuel IH]; intros k idx s s' r Hrun.
  - injection Hrun as <- <-. exists []. rewrite app_nil_r. split; [reflexivity |].
    intros ? [=].
  - simpl in Hrun. unfold bind at 1 in Hrun. unfold getChildPagesM in Hrun.
    destruct (getChildPages confluence (idx !! k) (world s)) as [remote | e];
      cbn [ofOutcome] in Hrun.
    2:{ injection Hrun as <- <-. eexists [_]. split; [reflexivity |]. intros ? [=]. }
    unfold bind at 1 in Hrun.
    destruct (syncUnion confluence k _ idx _) as [s1 r1] eqn:Hsync.
    destruct (syncUnion_run _ _ _ _ _ _ _ Hsync) as (outs & Htrace1 & _).
    simpl in Htrace1.
    destruct r1 as [idx1 | e |].
    + destruct (processSections_walk _ IH _ _ _ _ _ Hrun) as (new2 & Htrace2 & Hok2).
      eexists (_ :: syncTrace k _ outs ++ new2). split.
      { rewrite Htrace2, Htrace1. rewrite <- !app_assoc. reflexivity. }
      intros idx' Hr. destruct (Hok2 idx' Hr) as [Hclosed2 Hall2].
      split; [eauto |].
      intros k' p Hk' Hp Hd.
      change (?e :: ?x ++ new2) with ([e] ++ x ++ new2) in *.
      apply fetchedAt_app in Hk' as [Hk' | Hk'].
      * destruct Hk' as (pid & out & Hin). apply list_elem_of_singleton in Hin.
        injection Hin as <- _ _. apply fetchedAt_app. right. apply fetchedAt_app. right.
        by apply Hall2.
      * apply fetchedAt_app in Hk' as [Hk' | Hk']; [by apply fetchedAt_syncTrace in Hk' |].
        apply fetchedAt_app. right. apply fetchedAt_app. right. by eapply Hclosed2.
    + injection Hrun as <- <-. eexists (_ :: syncTrace k _ outs).
      split; [rewrite Htrace1; by rewrite <- app_assoc |]. intros ? [=].
    + injection Hrun as <- <-. eexists (_ :: syncTrace k _ outs).
      split; [rewrite Htrace1; by rewrite <- app_assoc |]. intros ? [=].
Qed.

End Walk.

(** The pages that have children are those the grouping of [syncPages]
    records a section page for. *)
Lemma foldl_group_sections l : forall acc t,
  is_Some ((foldl group acc l).2 !! t)
  <-> is_Some (acc.2 !! t) \/ exists q, q ∈ l /\ parentPath q = Some t /\ t <> "".
Proof.
  induction l as [| p l IH]; intros acc t; simpl.
  - split; [auto |]. intros [H | (q & Hq & _)]; [exact H | by apply elem_of_nil in Hq].
  - rewrite IH. destruct acc as [pbp sp]. unfold group at 1. simpl.
    assert (Hone : is_Some (match parentPath p with
                            | Some (String _ _ as s0) =>
                                match sp !! s0 with
                                | Some _ => sp
                                | None => <[s0 := p]> sp
                                end
                            | _ => sp
                            end !! t)
                   <-> is_Some (sp !! t) \/ (parentPath p = Some t /\ t <> "")).
    { destruct (parentPath p) as [[| c0 s0] |] eqn:Hpp.
      - split; [auto |]. intros [H | [[= <-] Hne]]; [exact H | congruence].
      - destruct (sp !! String c0 s0) eqn:Hsp.
        + split; [auto |]. intros [H | [[= <-] Hne]]; [exact H | by rewrite Hsp].
        + rewrite lookup_insert_is_Some. split.
          * intros [<- | [_ H]]; [right; split; [reflexivity | discriminate] | by left].
          * intros [H | [[= <-] _]]; [| by left]. right. split; [| exact H].
            intros <-. rewrite Hsp in H. by destruct H.
      - split; [auto |]. intros [H | [[=] _]]. exact H. }
    rewrite Hone. split.
    + intros [[H | [Hp Ht]] | (q & Hq & Hpq & Ht)]; [by left | |].
      * right. exists p. split; [left | auto].
      * right. exists q. split; [by right | auto].
    + intros [H | (q & [-> | Hq]%elem_of_cons & Hpq & Ht)]; [by left; left | |].
      * left. right. auto.
      * right. exists q. auto.
Qed.

Lemma groupPages_sections localPages p :
  is_Some ((groupPages localPages).2 !! title p) <-> hasChildren localPages p.
Proof.
  unfold groupPages, hasChildren. rewrite foldl_group_sections. simpl.
  rewrite lookup_empty. split.
  - intros [[x Hx] | H]; [discriminate | exact H].
  - auto.
Qed.

Lemma closedUnderDescent_same (f g : option string -> list LocalPage)
    (d1 d2 : LocalPage -> Prop) h :
  (forall k, f k = g k) -> (forall p, d2 p -> d1 p) ->
  closedUnderDescent f d1 h -> closedUnderDescent g d2 h.
Proof.
  intros Hfg Hd Hclosed k p Hk Hp Hdp. apply (Hclosed k p Hk); [by rewrite Hfg | by apply Hd].
Qed.

(** A run of [syncPages] that returns starts with the fetch of the children
    of the home page, and its levels are closed under descent. *)
Lemma syncPages_walk {W} (confluence : Confluence W) fuel home localPages s s' :
  syncPages confluence fuel home localPages s = (s', Ok tt) ->
  exists remotePages rest,
    trace s' = trace s ++ GetChildPages (AtLevel None) (Some home) (Returned remotePages) :: rest /\
    closedUnderDescent (pagesOfLevel localPages) (hasChildren localPages)
      (GetChildPages (AtLevel None) (Some home) (Returned remotePages) :: rest).
Proof.
  unfold syncPages.
  pose proof (groupPages_level localPages) as Hlevel.
  pose proof (groupPages_sections localPages) as Hsections.
  destruct (groupPages localPages) as [pagesByParent sectionPages]. simpl in Hlevel, Hsections.
  unfold bind.
  destruct (processLevel confluence pagesByParent sectionPages fuel None {[None := home]} s)
    as [s1 r1] eqn:Hrun.
  destruct (processLevel_walk confluence pagesByParent sectionPages fuel _ _ _ _ _ Hrun)
    as (new & Htrace & Hok).
  destruct r1 as [idx | e |]; intros [= <-].
  destruct (Hok idx eq_refl) as [(remote & rest & ->) Hclosed].
  rewrite lookup_singleton_eq in Htrace, Hclosed.
  exists remote, rest. split; [exact Htrace |].
  eapply closedUnderDescent_same; [exact Hlevel | | exact Hclosed].
  intros p Hp. by apply Hsections.
Qed.

(** ** Every level the walk reaches is synced *)

Lemma reached_fetched localPages h k :
  fetchedAt None h ->
  closedUnderDescent (pagesOfLevel localPages) (hasChildren localPages) h ->
  reached localPages k -> fetchedAt k h.
Proof.
  intros Hroot Hclosed. induction 1 as [| k p _ IH Hp Hd]; [exact Hroot |].
  by apply (Hclosed k p).
Qed.

(** In a completed level every local page is synced, by a call that
    returned, carrying the parent id the level was fetched with. *)
Lemma levelUnion_synced k pid pages remote outs p :
  length outs = length (levelUnion pid pages remote) ->
  Forall returned outs ->
  p ∈ pages ->
  exists u synced,
    Sync (AtLevel k) u (Returned synced) ∈ syncTrace k (levelUnion pid pages remote) outs /\
    localOf u = Some (setParentPageId pid p).
Proof.
  intros Hlen Hret Hp.
  destruct (levelUnion_shape pid pages remote) as (matched & Hshape & Hpairs).
  apply list_elem_of_lookup in Hp as [i Hi].
  destruct (Forall2_lookup_l _ _ _ _ _ Hpairs Hi) as (u & Hu & Hpair).
  assert (Hunion : levelUnion pid pages remote !! i = Some u).
  { rewrite Hshape. by apply lookup_app_l_Some. }
  destruct (lookup_lt_is_Some_2 outs i) as [o Ho].
  { rewrite Hlen. eapply lookup_lt_Some. exact Hunion. }
  pose proof (Forall_lookup_1 _ _ _ _ Hret Ho) as Hreturned.
  destruct o as [synced | e]; [| contradiction].
  exists u, synced. split; [| by eapply isPairOf_localOf].
  apply list_elem_of_lookup. exists i. unfold syncTrace.
  rewrite lookup_zip_with, Hunion, Ho. reflexivity.
Qed.

(** X14. In a run of [syncPages] that returns, every level the walk reaches ran
    to its end: its remote children were fetched, with the id the index held
    under the key of the level at that point, and right after the fetch the
    pages of its union were synced, every call returned. Every local page of
    the level is among them, carrying as its parent id the id of the fetch:
    the home id at the root level, below it the id last recorded under the
    title that keys the level, and no id when none was recorded. The levels
    reached are the root level and, from a reached level, the level of each
    of its pages that some local page names as parent. *)
Theorem syncPages_syncs_every_page_it_reaches
    {W} (confluence : Confluence W) (fuel : nat) (home : Z)
    (localPages : list LocalPage) (s s' : Run W) :
  syncPages confluence fuel home localPages s = (s', Ok tt) ->
  exists new,
    trace s' = trace s ++ new /\
    forall k, reached localPages k ->
      exists before parentPageId remotePages outcomes after,
        let union := levelUnion parentPageId (pagesOfLevel localPages k) remotePages in
        new = before ++ GetChildPages (AtLevel k) parentPageId (Returned remotePages)
                     :: syncTrace k union outcomes ++ after /\
        parentPageId = recordedFor home before k /\
        length outcomes = length union /\
        Forall returned outcomes /\
        forall p, p ∈ pagesOfLevel localPages k ->
          exists u synced,
            Sync (AtLevel k) u (Returned synced) ∈ syncTrace k union outcomes /\
            localOf u = Some (setParentPageId parentPageId p).
Proof.
  intros Hrun.
  destruct (syncPages_walk _ _ _ _ _ _ Hrun) as (remote & rest & Htrace & Hclosed).
  destruct (syncPages_trace _ _ _ _ _ _ _ Hrun) as (new & Htrace' & Hall & Hdone).
  rewrite Htrace in Htrace'. apply app_inv_head in Htrace'. subst new.
  specialize (Hdone eq_refl).
  eexists. split; [exact Htrace |]. intros k Hk.
  assert (Hfetched : fetchedAt k
            (GetChildPages (AtLevel None) (Some home) (Returned remote) :: rest)).
  { eapply reached_fetched; [| exact Hclosed | exact Hk]. eexists _, _. left. }
  destruct Hfetched as (pid & out & Hin).
  apply list_elem_of_split in Hin as (before & post & Hnew).
  destruct (completedLevels_at _ _ _ _ _ _ _ Hdone Hnew)
    as (remotePages & outs & after & -> & -> & Hlen & Hret).
  rewrite Hnew in Hall. apply allOK_split in Hall. simpl in Hall. destruct Hall as [Hpid _].
  exists before, pid, remotePages, outs, after. simpl.
  split; [exact Hnew |]. split; [rewrite Hpid; apply indexAfter_lookup |].
  split; [exact Hlen |]. split; [exact Hret |].
  intros p Hp. by apply levelUnion_synced.
Qed.

(** In the run on [sameTitlePages], the level [B] is reached from the page
    [B] of the root; it is fetched with the id the index holds under [B],
    and its page [C] is synced with that id as parent. *)
Lemma syncPages_syncs_every_page_it_reaches_witness :
  syncPages SpecStore.sdk 10 7 Examples.sameTitlePages (Examples.start SpecStore.empty)
  = Examples.sameTitleRun /\
  reached Examples.sameTitlePages (Some "B") /\
  exists before parentPageId remotePages outcomes after u synced,
    trace Examples.sameTitleRun.1
    = before ++ GetChildPages (AtLevel (Some "B")) parentPageId (Returned remotePages)
             :: syncTrace (Some "B")
                  (levelUnion parentPageId
                     (pagesOfLevel Examples.sameTitlePages (Some "B")) remotePages)
                  outcomes ++ after /\
    parentPageId = recordedFor 7 before (Some "B") /\
    Sync (AtLevel (Some "B")) u (Returned synced)
      ∈ syncTrace (Some "B")
          (levelUnion parentPageId
             (pagesOfLevel Examples.sameTitlePages (Some "B")) remotePages)
          outcomes /\
    localOf u = Some (setParentPageId parentPageId
                        (Examples.pageAtSha "C" "site/docs/b/c.md"
                           "sha1:/repo/site/docs/b/c.md" (Some "B"))).
Proof.
  assert (Hrun : syncPages SpecStore.sdk 10 7 Examples.sameTitlePages
                   (Examples.start SpecStore.empty)
                 = (Examples.sameTitleRun.1, Ok tt))
    by (vm_compute; reflexivity).
  assert (Hreached : reached Examples.sameTitlePages (Some "B")).
  { apply (reached_section Examples.sameTitlePages None
             (Examples.pageAtSha "B" "site/docs/b/README.md"
                "sha1:/repo/site/docs/b/README.md" None)).
    - constructor.
    - apply list_elem_of_filter. split; [reflexivity |]. do 3 right. left.
    - eexists. split; [right; left |]. split; [reflexivity | discriminate]. }
  split; [vm_compute; reflexivity |]. split; [exact Hreached |].
  destruct (syncPages_syncs_every_page_it_reaches _ _ _ _ _ _ Hrun)
    as (new & Htrace & Hall).
  simpl app in Htrace. subst new.
  destruct (Hall (Some "B") Hreached)
    as (before & pid & remote & outs & after & Hnew & Hpid & _ & _ & Hsynced).
  destruct (Hsynced (Examples.pageAtSha "C" "site/docs/b/c.md"
                       "sha1:/repo/site/docs/b/c.md" (Some "B")))
    as (u & synced & Hin & Hu).
  { apply list_elem_of_filter. split; [reflexivity |]. right. left. }
  exists before, pid, remote, outs, after, u, synced. auto.
Defined.

(** ** A walk that cannot end *)

Section Endless.
Context {W : Type}.
Variable confluence : Confluence W.
Variable pagesByParent : gmap (option string) (list LocalPage).
Variable sectionPages : gmap string LocalPage.
Variable endless : option string -> Prop.

Hypothesis descent : forall k, endless k ->
  exists p, p ∈ levelPages pagesByParent k /\ is_Some (sectionPages !! title p) /\
            endless (Some (title p)).

Lemma processSections_endless
    (recur : option string -> gmap (option string) Z -> M (Run W) (gmap (option string) Z))
    todo p :
  p ∈ todo -> is_Some (sectionPages !! title p) ->
  (forall idx s idx', (recur (Some (title p)) idx s).2 <> Ok idx') ->
  forall idx s idx', (processSections sectionPages recur todo idx s).2 <> Ok idx'.
Proof.
  intros Hp Hd Hrecur. induction todo as [| q rest IH]; intros idx s idx'.
  - by apply elem_of_nil in Hp.
  - simpl. destruct (sectionPages !! title q) as [child |] eqn:Hq.
    + unfold bind. destruct (recur (Some (title q)) idx s) as [s1 [idx1 | e |]] eqn:Hrun;
        simpl; try discriminate.
      apply elem_of_cons in Hp as [-> | Hp].
      * exfalso. apply (Hrecur idx s idx1). by rewrite Hrun.
      * by apply IH.
    + apply elem_of_cons in Hp as [-> | Hp]; [rewrite Hq in Hd; by destruct Hd |].
      by apply IH.
Qed.

Lemma processLevel_endless fuel : forall k idx s idx',
  endless k ->
  (processLevel confluence pagesByParent sectionPages fuel k idx s).2 <> Ok idx'.
Proof.
  induction fuel as [| fuel IH]; intros k idx s idx' Hk; [discriminate |].
  simpl. unfold bind at 1. unfold getChildPagesM.
  destruct (getChildPages confluence (idx !! k) (world s)) as [remote | e];
    cbn [ofOutcome]; [| discriminate].
  unfold bind at 1. destruct (syncUnion confluence k _ idx _) as [s1 [idx1 | e |]];
    try discriminate.
  destruct (descent k Hk) as (p & Hp & Hd & Hnext).
  apply (processSections_endless _ _ p Hp Hd). intros idx2 s2 idx2'. by apply IH.
Qed.

End Endless.

(** X15. When the root level belongs to a set of levels each of which holds a
    page that has children and whose own level is in the set again, as when
    a page bears the title of the section it is in, [syncPages] does not
    return, whatever the recursion budget: the walk descends without end,
    unless a call throws. *)
Theorem syncPages_does_not_return_on_a_cycle_of_titles
    {W} (confluence : Confluence W) (fuel : nat) (home : Z)
    (localPages : list LocalPage) (s : Run W) (endless : option string -> Prop) :
  endless None ->
  (forall k, endless k ->
     exists p, p ∈ pagesOfLevel localPages k /\ hasChildren localPages p /\
               endless (Some (title p))) ->
  (syncPages confluence fuel home localPages s).2 <> Ok tt.
Proof.
  intros Hroot Hdescent. unfold syncPages.
  pose proof (groupPages_level localPages) as Hlevel.
  pose proof (groupPages_sections localPages) as Hsections.
  destruct (groupPages localPages) as [pagesByParent sectionPages]. simpl in Hlevel, Hsections.
  unfold bind.
  pose proof (processLevel_endless confluence pagesByParent sectionPages endless) as Hnever.
  specialize (Hnever ltac:(intros k Hk; destruct (Hdescent k Hk) as (p & Hp & Hd & Hn);
                           exists p; rewrite Hlevel, Hsections; auto)
                     fuel None {[None := home]} s).
  destruct (processLevel _ _ _ _ _ _ _) as [s1 [idx | e |]]; simpl in *;
    [by destruct (Hnever idx Hroot) | discriminate..].
Qed.

(** A page [Guides] at the root, and a section [Guides] that lists a page
    titled [Guides]: the run on the pages of the context does not return. *)
Lemma syncPages_does_not_return_on_a_cycle_of_titles_witness :
  (getContext Cycle.selfHost "" "." Cycle.selfNav "repo" "Site").2 = Ok Cycle.selfContext /\
  (fun p => (title p, path (meta p), parentPath p)) <$> ctxPages Cycle.selfContext
  = [("Guides", Some "docs/guides.md", None);
     ("Guides", Some "docs/guides/index.md", Some "Guides")] /\
  (syncPages SpecStore.sdk 1000 1 (ctxPages Cycle.selfContext)
             (Examples.start SpecStore.empty)).2 <> Ok tt.
Proof.
  split; [vm_compute; reflexivity |]. split; [reflexivity |].
  apply (syncPages_does_not_return_on_a_cycle_of_titles SpecStore.sdk 1000 1
           (ctxPages Cycle.selfContext) (Examples.start SpecStore.empty)
           (fun k => k = None \/ k = Some "Guides")); [by left |].
  intros k [-> | ->].
  - eexists. split; [apply list_elem_of_filter; split; [| left]; reflexivity |].
    split; [| by right].
    eexists. split; [right; left |]. split; [reflexivity | discriminate].
  - eexists. split; [apply list_elem_of_filter; split; [| right; left]; reflexivity |].
    split; [| by right].
    eexists. split; [right; left |]. split; [reflexivity | discriminate].
Defined.

(** ** A walk that ends *)

Section AnyFuel.
Context {W : Type}.
Variable confluence : Confluence W.
Variable pagesByParent : gmap (option string) (list LocalPage).
Variable sectionPages : gmap string LocalPage.
Variable rank : option string -> nat.

Hypothesis ranked : forall k p,
  p ∈ levelPages pagesByParent k -> is_Some (sectionPages !! title p) ->
  (rank (Some (title p)) < rank k)%nat.

Lemma processSections_ext
    (recur1 recur2 : option string -> gmap (option string) Z
                     -> M (Run W) (gmap (option string) Z)) todo :
  (forall p, p ∈ todo -> is_Some (sectionPages !! title p) ->
             forall idx s, recur1 (Some (title p)) idx s = recur2 (Some (title p)) idx s) ->
  forall idx s,
    processSections sectionPages recur1 todo idx s
    = processSections sectionPages recur2 todo idx s.
Proof.
  induction todo as [| p rest IH]; intros Hsame idx s; simpl; [reflexivity |].
  destruct (sectionPages !! title p) as [child |] eqn:Hsection.
  - unfold bind. rewrite (Hsame p ltac:(left) ltac:(by rewrite Hsection)).
    destruct (recur2 (Some (title p)) idx s) as [s1 [idx1 | e |]]; try reflexivity.
    apply IH. intros q Hq. apply Hsame. by right.
  - apply IH. intros q Hq. apply Hsame. by right.
Qed.

(** Above the rank of a level, the recursion budget does not matter. *)
Lemma processLevel_any_fuel : forall fuel fuel' k idx s,
  (rank k < fuel)%nat -> (rank k < fuel')%nat ->
  processLevel confluence pagesByParent sectionPages fuel k idx s
  = processLevel confluence pagesByParent sectionPages fuel' k idx s.
Proof.
  induction fuel as [| fuel IH]; intros [| fuel'] k idx s Hfuel Hfuel'; try lia.
  simpl. unfold bind. destruct (getChildPagesM _ _ _ s) as [s1 [remote | e |]];
    try reflexivity.
  destruct (syncUnion _ _ _ _ s1) as [s2 [idx2 | e |]]; try reflexivity.
  apply processSections_ext. intros p Hp Hd idx' s'.
  specialize (ranked k p Hp Hd). apply IH; lia.
Qed.

End AnyFuel.

(** X16. When the levels can be ranked so that the level of every page with
    children ranks below the level the page is in, as in a tree of sections
    in which no title repeats down a branch, the walk ends: a recursion budget
    above the rank of the root level is enough, and the run is the same under
    every such budget. *)
Theorem syncPages_ends_when_the_titles_descend
    {W} (confluence : Confluence W) (rank : option string -> nat) (fuel fuel' : nat)
    (home : Z) (localPages : list LocalPage) (s : Run W) :
  (forall k p, p ∈ pagesOfLevel localPages k -> hasChildren localPages p ->
               (rank (Some (title p)) < rank k)%nat) ->
  (rank None < fuel)%nat -> (rank None < fuel')%nat ->
  (syncPages confluence fuel home localPages s).2 <> OutOfFuel /\
  syncPages confluence fuel' home localPages s = syncPages confluence fuel home localPages s.
Proof.
  intros Hrank Hfuel Hfuel'. split.
  - apply (syncPages_enough_fuel confluence rank); [| exact Hfuel].
    intros k p Hp Hd. apply Hrank; [exact Hp | by apply groupPages_sections].
  - unfold syncPages.
    pose proof (groupPages_level localPages) as Hlevel.
    pose proof (groupPages_sections localPages) as Hsections.
    destruct (groupPages localPages) as [pagesByParent sectionPages].
    simpl in Hlevel, Hsections. unfold bind.
    rewrite (processLevel_any_fuel confluence pagesByParent sectionPages rank
               ltac:(intros k p Hp Hd; apply Hrank;
                     [by rewrite <- Hlevel | by apply Hsections])
               fuel' fuel None _ s Hfuel' Hfuel).
    reflexivity.
Qed.

(** The pages of the example make a tree three levels deep. *)
Lemma syncPages_ends_when_the_titles_descend_witness :
  (syncPages SpecStore.sdk 4 7 Examples.sameTitlePages (Examples.start SpecStore.empty)).2
    <> OutOfFuel /\
  syncPages SpecStore.sdk 10 7 Examples.sameTitlePages (Examples.start SpecStore.empty)
  = syncPages SpecStore.sdk 4 7 Examples.sameTitlePages (Examples.start SpecStore.empty).
Proof.
  apply (syncPages_ends_when_the_titles_descend SpecStore.sdk
           (fun k => match k with
                     | None => 3
                     | Some t => if String.eqb t "A" then 2
                                 else if String.eqb t "B" then 1 else 0
                     end)%nat); [| lia | lia].
  intros k p Hp (q & Hq & Hparent & _).
  unfold pagesOfLevel in Hp. apply list_elem_of_filter in Hp as [Hkey Hp].
  vm_compute in Hp.
  repeat (apply elem_of_cons in Hp as [-> | Hp]);
    try (by apply elem_of_nil in Hp);
    vm_compute in Hkey; subst k; vm_compute; try lia;
    vm_compute in Hq;
    repeat (apply elem_of_cons in Hq as [-> | Hq]);
    try (by apply elem_of_nil in Hq); discriminate Hparent.
Defined.

(** ** The union of a level *)

Lemma Map_delete_notin {V} (k : string) (m : list (string * V)) :
  k ∉ Map_keys m -> Map_delete k m = m.
Proof.
  unfold Map_keys. induction m as [| [k' v'] m IH]; simpl; [reflexivity |].
  intros Hnotin. apply not_elem_of_cons in Hnotin as [Hne Hnotin].
  case_decide; [congruence |]. by rewrite IH.
Qed.

Lemma Map_delete_keys {V} (k : string) (m : list (string * V)) :
  NoDup (Map_keys m) -> NoDup (Map_keys (Map_delete k m)).
Proof.
  unfold Map_keys. rewrite Map_delete_filter. intros Hnd.
  eapply sublist_NoDup; [exact Hnd |]. apply fmap_sublist, sublist_filter.
Qed.

(** A key of a map whose keys are distinct binds one entry. *)
Lemma Map_get_Permutation {V} (k : string) (m : list (string * V)) v :
  NoDup (Map_keys m) -> Map_get k m = Some v ->
  m ≡ₚ (k, v) :: Map_delete k m.
Proof.
  unfold Map_keys. induction m as [| [k' v'] m IH]; simpl; [discriminate |].
  intros Hnd. apply NoDup_cons in Hnd as [Hnotin Hnd].
  case_decide as Hk.
  - intros [= <-]. subst k'. by rewrite Map_delete_notin.
  - intros Hget. rewrite (IH Hnd Hget) at 1. apply Permutation_swap.
Qed.

Lemma omap_remoteOf_Remote (rs : list RemotePage) :
  omap remoteOf (Remote <$> rs) = remoteId <$> rs.
Proof. induction rs as [| r rs IH]; simpl; [reflexivity | f_equal; exact IH]. Qed.

Lemma pairPages_remote pid pages : forall remote union remaining union',
  NoDup (Map_keys remote) ->
  pairPages pid pages remote union = (remaining, union') ->
  omap remoteOf union' ++ (remoteId <$> Map_values remaining)
  ≡ₚ omap remoteOf union ++ (remoteId <$> Map_values remote).
Proof.
  induction pages as [| lp rest IH]; intros remote union remaining union' Hnd Hpair;
    simpl in Hpair.
  - by injection Hpair as <- <-.
  - cbn [setParentPageId meta] in Hpair.
    destruct (path (meta lp)) as [k |] eqn:Hpath; cbn [getByPath deleteByPath] in Hpair.
    + destruct (Map_get k remote) as [r |] eqn:Hget.
      * rewrite (IH _ _ _ _ (Map_delete_keys k remote Hnd) Hpair).
        rewrite omap_app. simpl. rewrite <- app_assoc. apply Permutation_app_head.
        unfold Map_values. rewrite (Map_get_Permutation k remote r Hnd Hget) at 2.
        reflexivity.
      * rewrite (IH _ _ _ _ Hnd Hpair). rewrite omap_app. simpl. by rewrite app_nil_r.
    + rewrite (IH _ _ _ _ Hnd Hpair). rewrite omap_app. simpl. by rewrite app_nil_r.
Qed.

(** X17. The union of a level holds every page of the level once: an entry for
    each local page, in the order of the local pages and with the parent id
    of the level set, and after them the remote children that no local page
    matched; and each remote child fetched is in exactly one entry, attached
    to a local page or alone, so that none is synced twice and none is left
    out. The remote children come as a [Map], whose keys are distinct. *)
Theorem levelUnion_holds_every_page_once
    (parentPageId : option Z) (pages : list LocalPage)
    (remotePages : list (string * RemotePage)) :
  NoDup (Map_keys remotePages) ->
  omap remoteOf (levelUnion parentPageId pages remotePages)
    ≡ₚ remoteId <$> Map_values remotePages /\
  exists matched,
    levelUnion parentPageId pages remotePages
    = matched ++ (Remote <$> unmatched pages remotePages) /\
    localOf <$> matched = (fun p => Some (setParentPageId parentPageId p)) <$> pages.
Proof.
  intros Hnd. split.
  - unfold levelUnion.
    destruct (pairPages parentPageId pages remotePages []) as [remaining union] eqn:Hpair.
    rewrite omap_app. change (map Remote ?l) with (Remote <$> l).
    rewrite omap_remoteOf_Remote.
    by rewrite (pairPages_remote _ _ _ _ _ _ Hnd Hpair).
  - destruct (levelUnion_shape parentPageId pages remotePages) as (matched & Hshape & Hpairs).
    exists matched. split; [exact Hshape |]. clear Hshape.
    induction Hpairs as [| lp u pages' matched' Hpair _ IH]; [reflexivity |].
    rewrite !fmap_cons, IH. f_equal. exact (isPairOf_localOf _ _ _ _ Hpair).
Qed.

(** Two remote children, one of which matches the local page of the level:
    the union updates that one and leaves the other for deletion. *)
Lemma levelUnion_holds_every_page_once_witness :
  omap remoteOf
       (levelUnion (Some 1) [Examples.pageAt "B" "docs/b.md" None]
                   [("docs/a.md", Stores.childA); ("docs/b.md", Stores.childB)])
  = [3; 2] /\
  [3; 2] ≡ₚ [2; 3].
Proof.
  split; [reflexivity |].
  apply (levelUnion_holds_every_page_once (Some 1) [Examples.pageAt "B" "docs/b.md" None]
           [("docs/a.md", Stores.childA); ("docs/b.md", Stores.childB)]).
  apply (bool_decide_unpack _). vm_compute. exact I.
Defined.

(** ** A site without local pages *)

(** X18. Without local pages, [syncPages] fetches the children of the home page
    and calls [sync] on each of them, none with a local page attached, in
    the order of the fetch; it stops at the first call that throws, and
    makes no other call. *)
Theorem syncPages_without_local_pages
    {W} (confluence : Confluence W) (fuel : nat) (home : Z) (s s' : Run W)
    (r : result unit) (remotePages : list (string * RemotePage)) :
  getChildPages confluence (Some home) (world s) = Returned remotePages ->
  syncPages confluence (S fuel) home [] s = (s', r) ->
  exists outcomes,
    trace s' = trace s
               ++ GetChildPages (AtLevel None) (Some home) (Returned remotePages)
               :: syncTrace None (Remote <$> Map_values remotePages) outcomes /\
    ranUntil (length remotePages) outcomes r.
Proof.
  intros Hfetch. unfold syncPages. simpl. unfold bind at 1. unfold bind at 1.
  unfold getChildPagesM. rewrite lookup_singleton_eq, Hfetch. cbn [ofOutcome].
  unfold bind at 1. rewrite lookup_empty. simpl.
  destruct (syncUnion confluence None _ _ _) as [s1 r1] eqn:Hsync.
  destruct (syncUnion_run _ _ _ _ _ _ _ Hsync) as (outs & Htrace & Hran).
  change (levelUnion (Some home) [] remotePages)
    with (Remote <$> Map_values remotePages) in *.
  simpl in Htrace. rewrite length_fmap in Hran.
  assert (Hlen : length (Map_values remotePages) = length remotePages)
    by (unfold Map_values; by rewrite length_fmap).
  rewrite Hlen in Hran.
  destruct r1 as [idx | e |]; simpl in Hran; [| | contradiction].
  - intros [= <- <-]. exists outs. split; [rewrite Htrace; by rewrite <- app_assoc | exact Hran].
  - intros [= <- <-]. exists outs. split; [rewrite Htrace; by rewrite <- app_assoc | exact Hran].
Qed.

Lemma syncPages_without_local_pages_witness :
  syncPages SpecStore.sdk 1 1 [] (Examples.start Stores.published) = Runs.emptied /\
  SpecStore.remote (world Runs.emptied.1) = [Stores.siteHome] /\
  exists outcomes,
    trace Runs.emptied.1
    = GetChildPages (AtLevel None) (Some 1)
        (Returned [("docs/a.md", Stores.childA); ("docs/b.md", Stores.childB)])
      :: syncTrace None [Remote Stores.childA; Remote Stores.childB] outcomes /\
    length outcomes = 2%nat /\ Forall returned outcomes.
Proof.
  assert (Hrun : syncPages SpecStore.sdk 1 1 [] (Examples.start Stores.published)
                 = (Runs.emptied.1, Ok tt))
    by (vm_compute; reflexivity).
  split; [vm_compute; reflexivity |]. split; [reflexivity |].
  apply (syncPages_without_local_pages SpecStore.sdk 0 1
           (Examples.start Stores.published) _ _
           [("docs/a.md", Stores.childA); ("docs/b.md", Stores.childB)] eq_refl Hrun).
Defined.

(** ** What [sync] reports *)

Lemma allOK_calls pagesAt home new : forall h,
  allOK pagesAt home h new -> Forall isCall new.
Proof.
  induction new as [| e new IH]; intros h; simpl; [constructor |].
  intros [He Hall]. constructor; [| by eapply IH].
  by destruct e as [| [] | [] | | | | | |].
Qed.

Lemma syncTrace_returned k union outs :
  Forall returned outs -> Forall callReturned (syncTrace k union outs).
Proof.
  unfold syncTrace. intros Hret. revert union.
  induction Hret as [| o outs Ho _ IH]; intros [| u union]; simpl; constructor.
  - exact Ho.
  - apply IH.
Qed.

Lemma completedLevels_returned pagesAt h :
  completedLevels pagesAt h -> Forall callReturned h.
Proof.
  intros (blocks & -> & Hblocks).
  induction Hblocks as [| block blocks [k Hblock] _ IH]; simpl; [constructor |].
  apply Forall_app. split; [| exact IH].
  destruct Hblock as (pid & remote & outs & -> & _ & Hret).
  constructor; [exact I | by apply syncTrace_returned].
Qed.

Lemma isFindPage_isCall finds : Forall isFindPage finds -> Forall isCall finds.
Proof. intros H. eapply Forall_impl; [exact H |]. by intros []. Qed.

(** X19. [sync] does not throw, and reports once, as its last act: the site is
    reported published, with the id the [sync] call of the home page resolved
    to, only after every call to the store returned, the fetch of the
    children of that id among them; otherwise the error that ended the run
    is reported as the failure. Before the report the run holds calls to the
    store only. (The third case is the one of a recursion budget that ran
    out, in which nothing is reported.) *)
Theorem sync_reports_once
    {W} (confluence : Confluence W) (config : Config) (fuel : nat) (ctx : Context)
    (s s' : Run W) (r : result unit) :
  sync confluence config fuel (Ok ctx) s = (s', r) ->
  exists calls,
    Forall isCall calls /\
    ((r = Ok tt /\ Forall callReturned calls /\
      exists home u p remotePages,
        trace s' = trace s ++ calls ++ [LogPublished (siteName ctx) home;
                                        SummaryPublished (siteName ctx) home] /\
        Sync AtHome u (Returned (Some p)) ∈ calls /\ remoteId p = home /\
        GetChildPages (AtLevel None) (Some home) (Returned remotePages) ∈ calls) \/
     (r = Ok tt /\ exists e, trace s' = trace s ++ calls ++ [LogFail e]) \/
     (r = OutOfFuel /\ trace s' = trace s ++ calls)).
Proof.
  unfold sync, tryCatch. unfold bind at 1. unfold liftR at 1. unfold bind at 1.
  destruct (syncHome confluence config (ctxRepo ctx) (siteName ctx) (readMe ctx) s)
    as [s1 r1] eqn:Hhome.
  destruct (syncHome_run _ _ _ _ _ _ _ _ Hhome)
    as (finds & Hfinds
        & [(_ & Htrace1 & e & ->)
          | (pf & found & out & pid & _ & Htrace1 & _ & _ & _ & Hret1 & ->)]).
  2: set (u := homePage found
                 (setParentPageId pid (homeLocalPage (ctxRepo ctx) (siteName ctx) (readMe ctx))))
       in *.
  { unfold errorHandler, log, modify. intros [= <- <-]. exists finds.
    split; [by apply isFindPage_isCall |]. right. left.
    split; [reflexivity |]. exists e. simpl. rewrite Htrace1. by rewrite <- app_assoc. }
  assert (Hcalls1 : Forall isCall (finds ++ [Sync AtHome u out])).
  { apply Forall_app. split; [by apply isFindPage_isCall | repeat constructor]. }
  match goal with |- _ -> ?G => set (reported := G) end.
  assert (Hfail : forall e,
            (let (s2, r2) := errorHandler e s1 in (s2, r2)) = (s', r) -> reported).
  { intros e. unfold errorHandler, log, modify. intros [= <- <-].
    exists (finds ++ [Sync AtHome u out]). split; [exact Hcalls1 |]. right. left.
    split; [reflexivity |]. exists e. simpl. rewrite Htrace1. by rewrite <- !app_assoc. }
  destruct out as [[p |] | e]; [| by apply Hfail | by apply Hfail].
  unfold bind at 1.
  destruct (syncPages confluence fuel (remoteId p) (ctxPages ctx) s1) as [s2 r2] eqn:Hpages.
  destruct (syncPages_trace _ _ _ _ _ _ _ Hpages) as (new & Htrace2 & Hall & Hdone).
  assert (Hcalls : Forall isCall ((finds ++ [Sync AtHome u (Returned (Some p))]) ++ new)).
  { apply Forall_app. split; [exact Hcalls1 | by eapply allOK_calls]. }
  destruct r2 as [[] | e |].
  - unfold bind, log, modify. intros [= <- <-].
    exists ((finds ++ [Sync AtHome u (Returned (Some p))]) ++ new).
    split; [exact Hcalls |]. left. split; [reflexivity |].
    split.
    { apply Forall_app. split; [| by eapply completedLevels_returned, Hdone].
      apply Forall_app. split; [exact Hret1 | repeat constructor]. }
    destruct (syncPages_walk _ _ _ _ _ _ Hpages) as (remote & rest & Htrace2' & _).
    rewrite Htrace2 in Htrace2'. apply app_inv_head in Htrace2'. subst new.
    exists (remoteId p), u, p, remote. simpl. split.
    { rewrite Htrace2, Htrace1. by rewrite <- !app_assoc. }
    split; [apply elem_of_app; left; apply elem_of_app; right; left |].
    split; [reflexivity |]. apply elem_of_app. right. left.
  - unfold errorHandler, log, modify. intros [= <- <-].
    exists ((finds ++ [Sync AtHome u (Returned (Some p))]) ++ new).
    split; [exact Hcalls |]. right. left. split; [reflexivity |].
    exists e. simpl. rewrite Htrace2, Htrace1. by rewrite <- !app_assoc.
  - intros [= <- <-].
    exists ((finds ++ [Sync AtHome u (Returned (Some p))]) ++ new).
    split; [exact Hcalls |]. right. right. split; [reflexivity |].
    rewrite Htrace2, Htrace1. by rewrite <- !app_assoc.
Qed.

Lemma sync_reports_once_witness :
  sync SpecStore.sdk Examples.noConfig 10 (Ok Examples.sameTitleContext)
       (Examples.start SpecStore.empty)
  = Runs.publishedRun /\
  exists calls,
    Forall callReturned calls /\
    trace Runs.publishedRun.1 = calls ++ [LogPublished "Site" 1; SummaryPublished "Site" 1].
Proof.
  assert (Hrun : sync SpecStore.sdk Examples.noConfig 10 (Ok Examples.sameTitleContext)
                   (Examples.start SpecStore.empty)
                 = (Runs.publishedRun.1, Runs.publishedRun.2))
    by (vm_compute; reflexivity).
  split; [vm_compute; reflexivity |].
  destruct (sync_reports_once _ _ _ _ _ _ _ Hrun)
    as (calls & _ & [(_ & Hret & home & u & p & remote & Htrace & _)
                    | [(_ & e & Htrace) | (Hr & _)]]).
  - exists calls. split; [exact Hret |]. simpl app in Htrace.
    assert (Hlast : last (trace Runs.publishedRun.1)
                    = Some (SummaryPublished "Site" 1)) by reflexivity.
    rewrite Htrace in Hlast.
    assert (Hl : forall (l : list event) a b, last (l ++ [a; b]) = Some b).
    { intros l a b. change (l ++ [a; b]) with (l ++ [a] ++ [b]).
      by rewrite app_assoc, last_snoc. }
    rewrite Hl in Hlast. injection Hlast as ->. exact Htrace.
  - exfalso. assert (Hlast : last (trace Runs.publishedRun.1)
                             = Some (SummaryPublished "Site" 1)) by reflexivity.
    rewrite Htrace in Hlast. simpl app in Hlast. rewrite last_snoc in Hlast.
    discriminate Hlast.
  - discriminate Hr.
Defined.

(** ** A navigation entry without title *)

(** X20. When the navigation holds an entry without title, [getContext] throws
    before anything is sent to the store, and the two entry points part ways:
    [sync] reports the error as the failure of the run and returns, while
    [cleanup], which calls [getContext] outside its [try], throws it and
    reports nothing. Neither makes a call to the store. *)
Theorem untitled_entry_fails_sync_and_escapes_cleanup
    {W} (confluence : Confluence W) (config : Config) (fuel : nat) (s : Run W)
    (host : Host) (titlePrefix basePath : string) (nav : list navItem)
    (repo_url site_name x : string) :
  firstBare nav = Some x ->
  sync confluence config fuel
       (getContext host titlePrefix basePath nav repo_url site_name).2 s
  = (mkRun (world s) (trace s ++ [LogFail (NoTitle x)]), Ok tt) /\
  cleanup confluence (getContext host titlePrefix basePath nav repo_url site_name).2 s
  = (s, Throw (NoTitle x)).
Proof.
  intros Hbare.
  destruct (getContext_run host titlePrefix basePath nav repo_url site_name) as [_ Hres].
  rewrite Hbare in Hres. rewrite Hres. split; reflexivity.
Qed.

Lemma untitled_entry_fails_sync_and_escapes_cleanup_witness :
  firstBare Cases.untitledNav = Some "deep.md" /\
  sync SpecStore.sdk Examples.noConfig 10
       (getContext Cases.siblingHost "" "." Cases.untitledNav "repo" "Site").2
       (Examples.start SpecStore.empty)
  = (mkRun SpecStore.empty [LogFail (NoTitle "deep.md")], Ok tt).
Proof.
  split; [reflexivity |].
  apply (untitled_entry_fails_sync_and_escapes_cleanup SpecStore.sdk Examples.noConfig 10
           (Examples.start SpecStore.empty) Cases.siblingHost "" "." Cases.untitledNav
           "repo" "Site" "deep.md" eq_refl).
Defined.

(** ** Sections without page *)

(** X21. When the path recorded for a leaf page never holds [/docs/], as for the
    files of the [docs] directory of the working directory itself, no section
    gets a page: the pages of the context are the pages of the leaves, and
    nothing else. *)
Theorem getContext_gives_no_section_page_without_docs_in_the_paths
    (host : Host) (titlePrefix basePath : string) (nav : list navItem)
    (repo_url site_name : string) (b : Build) (ctx : Context) :
  getContext host titlePrefix basePath nav repo_url site_name = (b, Ok ctx) ->
  Forall (fun p => exists k, path (meta p) = Some k /\ JS.indexOf k "/docs/" = None)
         (leafPages host titlePrefix repo_url basePath nav) ->
  ctxPages ctx = leafPages host titlePrefix repo_url basePath nav.
Proof.
  intros Hrun Hpaths.
  destruct (getContext_Ok _ _ _ _ _ _ _ _ Hrun) as (picks & Hleafs & Hpicks & ->).
  simpl. rewrite <- Hleafs in *.
  assert (Hnone : omap id picks = []).
  { apply Forall2_Forall_r with (Q := fun pick => pick = None) in Hpicks.
    - clear -Hpicks. induction Hpicks as [| pick picks -> _ IH]; [reflexivity | exact IH].
    - apply Forall_forall. intros entry _ [p |] Hpick; [| reflexivity].
      destruct (Hpick p eq_refl) as (dir & (Hinfer & _) & _).
      rewrite inferSectionDirectory_without_docs in Hinfer; [discriminate |].
      apply Forall_forall. intros c Hc. apply list_elem_of_filter in Hc as [_ Hc].
      rewrite Forall_forall in Hpaths. by apply Hpaths. }
  rewrite Hnone. by rewrite app_nil_r.
Qed.

(** The checkout at [/repo] with [docs/guides/README.md] present: the leaf
    [Intro] is the only page. *)
Lemma getContext_gives_no_section_page_without_docs_in_the_paths_witness :
  getContext Examples.guidesHost "" "." Examples.guidesNav "repo" "Site"
  = (Examples.rootBuild, Ok Examples.rootContext) /\
  existsSync Examples.guidesHost "/repo/docs/guides/README.md" = true /\
  ctxPages Examples.rootContext
  = leafPages Examples.guidesHost "" "repo" "." Examples.guidesNav.
Proof.
  assert (Hctx : getContext Examples.guidesHost "" "." Examples.guidesNav "repo" "Site"
                 = (Examples.rootBuild, Ok Examples.rootContext))
    by (vm_compute; reflexivity).
  split; [exact Hctx |]. split; [reflexivity |].
  apply (getContext_gives_no_section_page_without_docs_in_the_paths _ _ _ _ _ _ _ _ Hctx).
  repeat constructor. eexists. split; reflexivity.
Defined.

(** ** Titles *)

(** A space before a string does not change what trimming gives. *)
Lemma trim_space t : JS.trim (" " +:+ t) = JS.trim t.
Proof. reflexivity. Qed.

(** X22. The titles of the pages of the context come from the titles of the
    navigation: the title of a page is the title of a leaf or of a section,
    behind the configured prefix and a space, trimmed, and without prefix it
    is that title, trimmed. A title neither starts nor ends with a
    white-space character, of those [trim] strips, and trimming it again
    changes nothing. The home page is titled with the site name, trimmed,
    whatever the prefix. *)
Theorem getContext_titles_are_trimmed
    (host : Host) (titlePrefix basePath : string) (nav : list navItem)
    (repo_url site_name : string) (b : Build) (ctx : Context) :
  getContext host titlePrefix basePath nav repo_url site_name = (b, Ok ctx) ->
  Forall (fun p => (exists t, t ∈ navTitles nav /\
                              title p = JS.trim (titlePrefix +:+ " " +:+ t) /\
                              (titlePrefix = "" -> title p = JS.trim t)) /\
                   (forall w, w ∈ JS.whiteSpace ->
                      JS.startsWith (title p) w = false /\ endsWith (title p) w = false) /\
                   JS.trim (title p) = title p)
         (ctxPages ctx) /\
  forall home, readMe ctx = Some home -> title home = JS.trim site_name.
Proof.
  intros Hrun. destruct (getContext_Ok _ _ _ _ _ _ _ _ Hrun) as (picks & _ & Hpicks & ->).
  simpl. split.
  - assert (Htrimmed : forall t p,
              t ∈ navTitles nav -> title p = JS.trim (titlePrefix +:+ " " +:+ t) ->
              (exists t, t ∈ navTitles nav /\
                         title p = JS.trim (titlePrefix +:+ " " +:+ t) /\
                         (titlePrefix = "" -> title p = JS.trim t)) /\
              (forall w, w ∈ JS.whiteSpace ->
                 JS.startsWith (title p) w = false /\ endsWith (title p) w = false) /\
              JS.trim (title p) = title p).
    { intros t p Ht Hp. split; [| rewrite Hp; apply trim_trimmed].
      exists t. split; [exact Ht |]. split; [exact Hp |]. intros ->.
      rewrite Hp. apply trim_space. }
    apply Forall_app. split.
    + apply Forall_forall. intros p (leaf & Hleaf & Hp)%list_elem_of_omap.
      destruct leaf as [[t f] parent]. unfold leafPage in Hp.
      destruct (_ && _); [| discriminate]. injection Hp as <-.
      apply (Htrimmed t); [| reflexivity].
      unfold navTitles. apply elem_of_app. left.
      apply list_elem_of_fmap. by exists (t, f, parent).
    + apply Forall_forall. intros p (pick & Hin & Hp)%list_elem_of_omap.
      simpl in Hp. subst pick. apply list_elem_of_lookup in Hin as [i Hi].
      destruct (Forall2_lookup_r _ _ _ _ _ Hpicks Hi) as ([name parent] & Hentry & Hpick).
      destruct (Hpick p eq_refl) as (dir & _ & ->).
      apply (Htrimmed name); [| reflexivity].
      unfold navTitles. apply elem_of_app. right.
      apply list_elem_of_lookup_2 in Hentry.
      destruct (setAll_keys (sectionVisits None nav) [] (NoDup_nil_2)) as [_ Hkeys].
      assert (Hname : name ∈ Map_keys (setAll (sectionVisits None nav) [])).
      { unfold Map_keys. apply list_elem_of_fmap. by exists (name, parent). }
      apply Hkeys in Hname as [Hname | Hname]; [exact Hname | by apply elem_of_nil in Hname].
  - unfold readmeOf. intros home. destruct (_ && _); [| discriminate]. intros [= <-].
    apply trim_space.
Qed.

(** The titles of the pages of [spacedNav], without title prefix: the em
    space and the no-break space are gone. *)
Lemma getContext_titles_are_trimmed_witness :
  getContext Examples.guidesHost "" "site" Titles.spacedNav "repo" "Site"
  = (Titles.spacedBuild, Ok Titles.spacedContext) /\
  title <$> ctxPages Titles.spacedContext = ["Intro"; "Guides"] /\
  Forall (fun p => JS.trim (title p) = title p) (ctxPages Titles.spacedContext).
Proof.
  assert (Hctx : getContext Examples.guidesHost "" "site" Titles.spacedNav "repo" "Site"
                 = (Titles.spacedBuild, Ok Titles.spacedContext))
    by (vm_compute; reflexivity).
  split; [exact Hctx |]. split; [reflexivity |].
  destruct (getContext_titles_are_trimmed _ _ _ _ _ _ _ _ Hctx) as [Hall _].
  eapply Forall_impl; [exact Hall |]. by intros p (_ & _ & Hp).
Defined.
